(** * Speckit implementation module (spec_implement.py): model and properties

    The program reads a markdown task list, validates checklists, replays the
    tasks phase by phase and writes completion markers back.  Almost all of
    its logic is regular-expression matching over file contents, so the
    development starts with a model of the part of Python's [re] module that
    the program uses: a pattern parser, a backtracking matcher that lists
    the possible matches in the engine's priority order, and the scanning
    functions [re.findall] and [re.sub]. *)

From Stdlib Require Import String Ascii List Bool Arith NArith Lia Permutation.
Import ListNotations.

Set Implicit Arguments.

(** ** Text

    A Python [str] is a sequence of code points.  The model covers the code
    points U+0000..U+00FF, one [ascii] each; the character classes below are
    the ones Python gives on that range. *)

Definition text := list ascii.

Definition txt (s : string) : text := list_ascii_of_string s.

Definition nl : ascii := "010"%char.

Definition code (c : ascii) : nat := nat_of_ascii c.

Definition in_range (lo hi : nat) (c : ascii) : bool :=
  (lo <=? code c) && (code c <=? hi).

(** [str.isspace] on one character, which is also what [\s] matches in a
    [str] pattern: TAB..CR, FS..US, space, NEL and NBSP. *)
Definition is_space (c : ascii) : bool :=
  in_range 9 13 c || in_range 28 32 c || (code c =? 133) || (code c =? 160).

(** [\d] in a [str] pattern: the decimal digits of the range. *)
Definition is_digit (c : ascii) : bool := in_range 48 57 c.

Definition is_ascii_letter (c : ascii) : bool :=
  in_range 65 90 c || in_range 97 122 c.

(** [str.lower] on one character: A..Z and the accented capitals
    U+00C0..U+00DE (but not the multiplication sign U+00D7) move up by 32. *)
Definition lower_char (c : ascii) : ascii :=
  if in_range 65 90 c || (in_range 192 222 c && negb (code c =? 215))
  then ascii_of_nat (code c + 32) else c.

Definition lower (s : text) : text := map lower_char s.

Definition text_eqb (a b : text) : bool :=
  if list_eq_dec ascii_dec a b then true else false.

Fixpoint starts_with (p s : text) : bool :=
  match p, s with
  | [], _ => true
  | _ :: _, [] => false
  | a :: p', b :: s' => Ascii.eqb a b && starts_with p' s'
  end.

(** [p in s] for strings: [p] occurs as a contiguous substring of [s]. *)
Fixpoint contains (p s : text) : bool :=
  starts_with p s ||
  match s with
  | [] => false
  | _ :: s' => contains p s'
  end.

Fixpoint lstrip (s : text) : text :=
  match s with
  | c :: s' => if is_space c then lstrip s' else s
  | [] => []
  end.

(** [str.strip()] with no argument. *)
Definition strip (s : text) : text := rev (lstrip (rev (lstrip s))).

(** [s[a:-b]] for [a], [b] within the usual bounds handling of slices. *)
Definition slice_mid (a b : nat) (s : text) : text :=
  firstn (length s - b - a) (skipn a s).

(** ** Regular expressions *)

Module Re.

Inductive set_item :=
| SiChar (c : ascii)
| SiRange (lo hi : ascii).

Inductive charset :=
| CsLit (c : ascii)                       (* a literal character *)
| CsAny                                   (* [.]: anything but a newline *)
| CsSpace (neg : bool)                    (* [\s], [\S] *)
| CsDigit (neg : bool)                    (* [\d], [\D] *)
| CsIn (neg : bool) (items : list set_item).   (* [[...]], [[^...]] *)

Definition item_mem (i : set_item) (c : ascii) : bool :=
  match i with
  | SiChar d => Ascii.eqb d c
  | SiRange lo hi => in_range (code lo) (code hi) c
  end.

Definition charset_mem (cs : charset) (c : ascii) : bool :=
  match cs with
  | CsLit d => Ascii.eqb d c
  | CsAny => negb (Ascii.eqb c nl)
  | CsSpace neg => xorb neg (is_space c)
  | CsDigit neg => xorb neg (is_digit c)
  | CsIn neg items => xorb neg (existsb (fun i => item_mem i c) items)
  end.

(** The parsed pattern.  [Repeat lo hi greedy r] is [r{lo,hi}] ([hi = None]
    for no upper bound), lazy when [greedy] is false; [Group i r] is the
    [i]-th capturing group. *)
Inductive regex :=
| Empty
| Chr (cs : charset)
| Seq (r1 r2 : regex)
| Alt (r1 r2 : regex)
| Repeat (lo : nat) (hi : option nat) (greedy : bool) (r : regex)
| Group (i : nat) (r : regex).

(** Captured groups: the most recent binding of a group comes first. *)
Definition caps := list (nat * text).

Fixpoint cap_lookup (i : nat) (c : caps) : option text :=
  match c with
  | [] => None
  | (j, t) :: c' => if i =? j then Some t else cap_lookup i c'
  end.

(** What was read between the input [s] and the remainder [rest]. *)
Definition consumed (s rest : text) : text :=
  firstn (length s - length rest) s.

(** A match state: the input that remains and the groups captured so far. *)
Definition mstate := (text * caps)%type.

Definition hi_allows (hi : option nat) : bool :=
  match hi with
  | Some 0 => false
  | _ => true
  end.

Definition hi_pred (hi : option nat) : option nat :=
  match hi with
  | Some n => Some (pred n)
  | None => None
  end.

(** Iterating a repeat body.  The outcomes are listed in the order in which
    a backtracking engine tries them: a greedy repeat first tries one more
    iteration and then stopping, a lazy one the reverse.  Every iteration
    reads at least one character, so the length of the input bounds the
    number of iterations. *)
Fixpoint rep (body : text -> caps -> list mstate) (fuel : nat)
    (lo : nat) (hi : option nat) (greedy : bool) (s : text) (c : caps)
    : list mstate :=
  let stop := if lo =? 0 then [(s, c)] else [] in
  match fuel with
  | 0 => stop
  | S fuel' =>
      let more :=
        if hi_allows hi then
          flat_map (fun st : mstate =>
                      if length (fst st) <? length s
                      then rep body fuel' (pred lo) (hi_pred hi) greedy (fst st) (snd st)
                      else [])
                   (body s c)
        else [] in
      if greedy then more ++ stop else stop ++ more
  end.

(** All the ways [r] matches a prefix of [s], best first. *)
Fixpoint matches (r : regex) (s : text) (c : caps) : list mstate :=
  match r with
  | Empty => [(s, c)]
  | Chr cs =>
      match s with
      | a :: s' => if charset_mem cs a then [(s', c)] else []
      | [] => []
      end
  | Seq r1 r2 =>
      flat_map (fun st : mstate => matches r2 (fst st) (snd st)) (matches r1 s c)
  | Alt r1 r2 => matches r1 s c ++ matches r2 s c
  | Repeat lo hi greedy r1 => rep (matches r1) (length s) lo hi greedy s c
  | Group i r1 =>
      map (fun st : mstate => (fst st, (i, consumed s (fst st)) :: snd st))
          (matches r1 s c)
  end.

(** The match the engine reports at the start of [s]: the first outcome,
    or, after an empty match at this very position, the first outcome that
    reads something. *)
Definition match_here (r : regex) (must_advance : bool) (s : text) : option mstate :=
  hd_error (filter (fun st : mstate =>
                      negb must_advance || (length (fst st) <? length s))
                   (matches r s [])).

(** ** Scanning: [re.findall] and [re.sub]

    The text is scanned from left to right.  Where the pattern matches, the
    match is reported and scanning resumes behind it; elsewhere one
    character is passed over.  After an empty match the engine tries once
    more at the same place for a match that reads something. *)

Inductive piece :=
| Skipped (c : ascii)                  (* a character outside every match *)
| Hit (whole : text) (c : caps).       (* a match: its text and groups *)

Definition hit_of (s : text) (st : mstate) : piece :=
  Hit (consumed s (fst st)) (snd st).

Definition taken (s : text) (st : mstate) : nat := length s - length (fst st).

Fixpoint scan_from (r : regex) (inside : nat) (s : text) : list piece :=
  match inside with
  | S k =>
      (* still within the previous match *)
      match s with
      | _ :: s' => scan_from r k s'
      | [] => []
      end
  | 0 =>
      let pass :=
        match s with
        | a :: s' => Skipped a :: scan_from r 0 s'
        | [] => []
        end in
      let jump (n : nat) :=
        match s with
        | _ :: s' => scan_from r (pred n) s'
        | [] => []
        end in
      match match_here r false s with
      | None => pass
      | Some st =>
          if taken s st =? 0 then
            hit_of s st ::
            match match_here r true s with
            | None => pass
            | Some st' => hit_of s st' :: jump (taken s st')
            end
          else hit_of s st :: jump (taken s st)
      end
  end.

Definition scan (r : regex) (s : text) : list piece := scan_from r 0 s.

Definition group_text (c : caps) (i : nat) : text :=
  match cap_lookup i c with
  | Some t => t
  | None => []
  end.

(** One result of [re.findall]: the whole match for a pattern without
    groups, otherwise the texts of groups 1..n, empty for a group that did
    not take part in the match. *)
Definition hit_groups (ngroups : nat) (whole : text) (c : caps) : list text :=
  match ngroups with
  | 0 => [whole]
  | _ => map (group_text c) (seq 1 ngroups)
  end.

Definition findall (r : regex) (ngroups : nat) (s : text) : list (list text) :=
  flat_map (fun p => match p with
                     | Skipped _ => []
                     | Hit whole c => [hit_groups ngroups whole c]
                     end)
           (scan r s).

(** [re.sub] with a replacement that contains no backslash, hence is
    inserted as it is. *)
Definition sub (r : regex) (repl : text) (s : text) : text :=
  flat_map (fun p => match p with
                     | Skipped a => [a]
                     | Hit _ _ => repl
                     end)
           (scan r s).

(** ** Parsing a pattern: [re.compile]

    The parser follows the one of Python's [re] module on the part of the
    pattern language modelled here: literals, [.], the classes [\s \S \d \D],
    escaped punctuation and control characters, bracketed sets of literals
    and ranges, capturing groups, alternation and the repeats [* + ? {m,n}]
    with their lazy forms.  A pattern that Python rejects gives [Raises]; a
    pattern outside the modelled part gives [NotModelled]. *)

Inductive parsed (A : Type) :=
| Parsed (a : A)
| Raises          (* the call raises an exception *)
| NotModelled.    (* valid or not, the pattern is outside the model *)

Arguments Parsed {A} a.
Arguments Raises {A}.
Arguments NotModelled {A}.

Definition bind {A B : Type} (x : parsed A) (f : A -> parsed B) : parsed B :=
  match x with
  | Parsed a => f a
  | Raises => Raises
  | NotModelled => NotModelled
  end.

(** Can [r] match the empty text? *)
Fixpoint nullable (r : regex) : bool :=
  match r with
  | Empty => true
  | Chr _ => false
  | Seq r1 r2 => nullable r1 && nullable r2
  | Alt r1 r2 => nullable r1 || nullable r2
  | Repeat lo _ _ r1 => (lo =? 0) || nullable r1
  | Group _ r1 => nullable r1
  end.

Definition is_repeat (r : regex) : bool :=
  match r with
  | Repeat _ _ _ _ => true
  | _ => false
  end.

(** The items of a sequence are collected most recent first. *)
Definition seq_of (items : list regex) : regex :=
  fold_left (fun acc r => match acc with
                          | Empty => r
                          | _ => Seq r acc
                          end) items Empty.

(** A repeat applies to the item before it. *)
Definition apply_repeat (lo : nat) (hi : option nat) (greedy : bool)
    (items : list regex) : parsed (list regex) :=
  match items with
  | [] => Raises                             (* nothing to repeat *)
  | r :: items' =>
      if is_repeat r then Raises             (* multiple repeat *)
      else if nullable r then NotModelled
      else Parsed (Repeat lo hi greedy r :: items')
  end.

(** The lazy mark after a repeat; a [+] there is a possessive repeat in
    recent versions and an error in older ones. *)
Definition repeat_suffix (s : text) : parsed (bool * text) :=
  match s with
  | "?"%char :: s' => Parsed (false, s')
  | "+"%char :: _ => NotModelled
  | _ => Parsed (true, s)
  end.

Fixpoint take_digits (s : text) : text * text :=
  match s with
  | c :: s' =>
      if in_range 48 57 c
      then let (d, rest) := take_digits s' in (c :: d, rest)
      else ([], s)
  | [] => ([], [])
  end.

Definition digits_value (d : text) : N :=
  fold_left (fun acc c => (10 * acc + N.of_nat (code c - 48))%N) d 0%N.

(** The largest repeat count the engine accepts. *)
Definition MAXREPEAT : N := 4294967295%N.

(** What follows an opening brace: [Some (Parsed (lo, hi, rest))] for a
    well-formed [{m}], [{m,n}], [{m,}] or [{,n}], [None] when the brace is
    an ordinary character. *)
Definition brace_spec (s : text) : option (parsed (nat * option nat * text)) :=
  match s with
  | "}"%char :: _ => None
  | _ =>
      let (lo, s1) := take_digits s in
      let (hi, s2) :=
        match s1 with
        | ","%char :: s1' => take_digits s1'
        | _ => (lo, s1)
        end in
      match s2 with
      | "}"%char :: rest =>
          let lov := match lo with [] => 0%N | _ => digits_value lo end in
          let hiv := match hi with [] => None | _ => Some (digits_value hi) end in
          if (MAXREPEAT <=? lov)%N then Some Raises   (* number too large *)
          else match hiv with
               | Some h =>
                   if (MAXREPEAT <=? h)%N then Some Raises
                   else if (h <? lov)%N then Some Raises   (* min above max *)
                   else Some (Parsed (N.to_nat lov, Some (N.to_nat h), rest))
               | None => Some (Parsed (N.to_nat lov, None, rest))
               end
      | _ => None
      end
  end.

(** A backslash outside a set, followed by [e]. *)
Definition escape (e : ascii) : parsed regex :=
  if Ascii.eqb e "s" then Parsed (Chr (CsSpace false))
  else if Ascii.eqb e "S" then Parsed (Chr (CsSpace true))
  else if Ascii.eqb e "d" then Parsed (Chr (CsDigit false))
  else if Ascii.eqb e "D" then Parsed (Chr (CsDigit true))
  else if Ascii.eqb e "n" then Parsed (Chr (CsLit nl))
  else if Ascii.eqb e "t" then Parsed (Chr (CsLit "009"))
  else if Ascii.eqb e "r" then Parsed (Chr (CsLit "013"))
  else if Ascii.eqb e "f" then Parsed (Chr (CsLit "012"))
  else if Ascii.eqb e "v" then Parsed (Chr (CsLit "011"))
  else if Ascii.eqb e "a" then Parsed (Chr (CsLit "007"))
  else if existsb (Ascii.eqb e) (txt "AZbBwWxuUN") then NotModelled
  else if is_digit e then NotModelled            (* back-reference or octal *)
  else if is_ascii_letter e then Raises          (* bad escape *)
  else Parsed (Chr (CsLit e)).

(** The inside of a bracketed set, after the opening bracket and the
    optional [^]. *)
Fixpoint parse_set (first : bool) (s : text) (items : list set_item)
    : parsed (list set_item * text) :=
  match s with
  | [] => Raises                                 (* unterminated set *)
  | a :: s' =>
      if Ascii.eqb a "]" && negb first then Parsed (rev items, s')
      else if Ascii.eqb a "\" then NotModelled
      else
        match s' with
        | "-"%char :: [] => Raises
        | "-"%char :: b :: s'' =>
            if Ascii.eqb b "]" then Parsed (rev (SiChar "-" :: SiChar a :: items), s'')
            else if Ascii.eqb b "\" then NotModelled
            else if code b <? code a then Raises  (* bad character range *)
            else parse_set false s'' (SiRange a b :: items)
        | _ => parse_set false s' (SiChar a :: items)
        end
  end.

(** [parse_seq] reads the items of one alternative, up to a [|], a closing
    parenthesis or the end; [parse_alt] reads alternatives separated by
    [|].  Both return the pattern read, the number of groups opened so far
    and the text that remains.  Each call reads at least one character, so
    the length of the pattern is enough [fuel]. *)
Fixpoint parse_seq (fuel : nat) (s : text) (ngroups : nat) (items : list regex)
    {struct fuel} : parsed (regex * nat * text) :=
  match fuel with
  | 0 => NotModelled
  | S fuel' =>
      match s with
      | [] => Parsed (seq_of items, ngroups, [])
      | a :: s' =>
          if Ascii.eqb a "|" || Ascii.eqb a ")" then Parsed (seq_of items, ngroups, s)
          else if Ascii.eqb a "\" then
            match s' with
            | [] => Raises                       (* bad escape (end of pattern) *)
            | e :: s'' =>
                bind (escape e) (fun r => parse_seq fuel' s'' ngroups (r :: items))
            end
          else if Ascii.eqb a "[" then
            let (neg, s1) := match s' with
                             | "^"%char :: t => (true, t)
                             | _ => (false, s')
                             end in
            bind (parse_set true s1 [])
                 (fun x => parse_seq fuel' (snd x) ngroups (Chr (CsIn neg (fst x)) :: items))
          else if Ascii.eqb a "*" || Ascii.eqb a "+" || Ascii.eqb a "?" then
            let lo := if Ascii.eqb a "+" then 1 else 0 in
            let hi := if Ascii.eqb a "?" then Some 1 else None in
            bind (repeat_suffix s') (fun g =>
            bind (apply_repeat lo hi (fst g) items) (fun items' =>
            parse_seq fuel' (snd g) ngroups items'))
          else if Ascii.eqb a "{" then
            match brace_spec s' with
            | None => parse_seq fuel' s' ngroups (Chr (CsLit a) :: items)
            | Some spec =>
                bind spec (fun x =>
                bind (repeat_suffix (snd x)) (fun g =>
                bind (apply_repeat (fst (fst x)) (snd (fst x)) (fst g) items) (fun items' =>
                parse_seq fuel' (snd g) ngroups items')))
            end
          else if Ascii.eqb a "." then parse_seq fuel' s' ngroups (Chr CsAny :: items)
          else if Ascii.eqb a "^" || Ascii.eqb a "$" then NotModelled
          else if Ascii.eqb a "(" then
            match s' with
            | "?"%char :: _ => NotModelled
            | _ =>
                let fix parse_alt_in (fuel1 : nat) (s1 : text) (n1 : nat)
                    : parsed (regex * nat * text) :=
                  match fuel1 with
                  | 0 => NotModelled
                  | S fuel1' =>
                      bind (parse_seq fuel' s1 n1 []) (fun x =>
                      match snd x with
                      | "|"%char :: s2 =>
                          bind (parse_alt_in fuel1' s2 (snd (fst x))) (fun y =>
                          Parsed (Alt (fst (fst x)) (fst (fst y)), snd (fst y), snd y))
                      | _ => Parsed x
                      end)
                  end in
                bind (parse_alt_in fuel' s' (S ngroups)) (fun x =>
                match snd x with
                | ")"%char :: s2 =>
                    parse_seq fuel' s2 (snd (fst x)) (Group (S ngroups) (fst (fst x)) :: items)
                | _ => Raises                    (* missing ) *)
                end)
            end
          else parse_seq fuel' s' ngroups (Chr (CsLit a) :: items)
      end
  end.

Fixpoint parse_alt (fuel : nat) (s : text) (ngroups : nat)
    : parsed (regex * nat * text) :=
  match fuel with
  | 0 => NotModelled
  | S fuel' =>
      bind (parse_seq (S (length s)) s ngroups []) (fun x =>
      match snd x with
      | "|"%char :: s2 =>
          bind (parse_alt fuel' s2 (snd (fst x))) (fun y =>
          Parsed (Alt (fst (fst x)) (fst (fst y)), snd (fst y), snd y))
      | _ => Parsed x
      end)
  end.

(** [re.compile]: the pattern and the number of its groups. *)
Definition compile (p : text) : parsed (regex * nat) :=
  bind (parse_alt (S (length p)) p 0) (fun x =>
  match snd x with
  | [] => Parsed (fst x)
  | _ => Raises                                  (* unbalanced parenthesis *)
  end).

(** What a match leaves is a suffix of what it was given. *)
Definition suffix_closed (body : text -> caps -> list mstate) : Prop :=
  forall s c st, In st (body s c) -> exists w, s = w ++ fst st.

(** A pattern whose matches all read something. *)
Definition consuming (r : regex) : Prop :=
  forall s c st, In st (matches r s c) -> length (fst st) < length s.

End Re.

Import Re.

(** ** Task records *)

(** The dictionary built for each task. *)
Record task := {
  id : text;
  description : text;
  is_parallel : bool;
  story : option text;
  completed : bool
}.

(** Truth value of a string: non-empty. *)
Definition truthy (s : text) : bool :=
  match s with
  | [] => false
  | _ => true
  end.

(** Truth value of the [story] entry: neither [None] nor empty. *)
Definition has_story (t : task) : bool :=
  match story t with
  | Some s => truthy s
  | None => false
  end.

(** [task_pattern] in [parse_tasks]. *)
Definition task_pattern : text :=
  txt "-\s*\[\s*\]\s*(T\d{3})\s*(\[P\])?\s*(\[US\d+\])?\s*(.+)".

Definition ws : regex := Repeat 0 None true (Chr (CsSpace false)).

Definition lit (c : ascii) : regex := Chr (CsLit c).

(** The pattern as parsed (see [task_pattern_compiles]). *)
Definition task_regex : regex :=
  Seq (lit "-") (Seq ws (Seq (lit "[") (Seq ws (Seq (lit "]") (Seq ws
  (Seq (Group 1 (Seq (lit "T") (Repeat 3 (Some 3) true (Chr (CsDigit false)))))
  (Seq ws
  (Seq (Repeat 0 (Some 1) true (Group 2 (Seq (lit "[") (Seq (lit "P") (lit "]")))))
  (Seq ws
  (Seq (Repeat 0 (Some 1) true
          (Group 3 (Seq (lit "[") (Seq (lit "U") (Seq (lit "S")
                   (Seq (Repeat 1 None true (Chr (CsDigit false))) (lit "]")))))))
  (Seq ws
       (Group 4 (Repeat 1 None true (Chr CsAny)))))))))))))).

(** The body of the loop over [matches] in [parse_tasks]. *)
Definition task_of_match (m : list text) : task :=
  let task_id := nth 0 m [] in
  let parallel_marker := nth 1 m [] in
  let story_marker := nth 2 m [] in
  let description := nth 3 m [] in
  {| id := task_id;
     description := strip description;
     is_parallel := truthy parallel_marker;
     story := if truthy story_marker then Some (slice_mid 3 1 story_marker) else None;
     completed := false |}.

(** [parse_tasks] on the content read from the tasks file. *)
Definition parse_tasks_content (content : text) : list task :=
  map task_of_match (findall task_regex 4 content).

(** The phase a task is put in by [execute_implementation]. *)
Definition phase_of (t : task) : text :=
  if negb (has_story t) && contains (txt "setup") (lower (description t)) then txt "setup"
  else if negb (has_story t) && contains (txt "foundational") (lower (description t))
  then txt "foundational"
  else if has_story t then
    match story t with
    | Some s => s
    | None => []
    end
  else txt "polish".

(** ** Checklists *)

(** The pattern of [check_checklists_status]. *)
Definition checklist_pattern : text := txt "-\s*\[([ xX])\]\s*(.+)".

Definition checklist_regex : regex :=
  Seq (lit "-") (Seq ws (Seq (lit "[")
  (Seq (Group 1 (Chr (CsIn false [SiChar " "; SiChar "x"; SiChar "X"])))
  (Seq (lit "]") (Seq ws (Group 2 (Repeat 1 None true (Chr CsAny)))))))).

Record stats := {
  total : nat;
  completed_items : nat;
  incomplete_items : nat
}.

(** [status.lower() in ['x', 'X']] *)
Definition is_done (status : text) : bool :=
  existsb (text_eqb (lower status)) [txt "x"; txt "X"].

(** The items of a checklist: the matches of the pattern, each with its
    marker and its text. *)
Definition all_items (content : text) : list (list text) :=
  findall checklist_regex 2 content.

(** The counting loop over [all_items]. *)
Fixpoint count_items (items : list (list text)) (done todo : nat) : nat * nat :=
  match items with
  | [] => (done, todo)
  | item :: items' =>
      if is_done (nth 0 item [])
      then count_items items' (done + 1) todo
      else count_items items' done (todo + 1)
  end.

(** The counters computed for one checklist file. *)
Definition checklist_stats (content : text) : stats :=
  let items := all_items content in
  let (done, todo) := count_items items 0 0 in
  {| total := length items; completed_items := done; incomplete_items := todo |}.

(** The status column: pass when nothing is incomplete. *)
Definition file_passes (st : stats) : bool := incomplete_items st =? 0.

(** ** The environment

    Files are named by their path as written.  A file holds text, or bytes
    that do not decode as UTF-8 ([Binary]), in which case reading it
    raises.  The order of the entries is the order in which a directory
    lists them. *)

Definition path := text.

Definition join (d : path) (name : text) : path := d ++ txt "/" ++ name.

Inductive node :=
| Dir
| File (content : text)
| Binary.

Definition fs := list (path * node).

Fixpoint fs_find (p : path) (f : fs) : option node :=
  match f with
  | [] => None
  | (q, n) :: f' => if text_eqb p q then Some n else fs_find p f'
  end.

Fixpoint fs_put (p : path) (n : node) (f : fs) : fs :=
  match f with
  | [] => [(p, n)]
  | (q, m) :: f' => if text_eqb p q then (q, n) :: f' else (q, m) :: fs_put p n f'
  end.

Definition ends_with (suffix s : text) : bool := starts_with (rev suffix) (rev s).

(** The entries of directory [d] whose name ends in [.md]. *)
Definition glob_md (d : path) (f : fs) : list (text * node) :=
  flat_map (fun e : path * node =>
              let prefix := d ++ txt "/" in
              if starts_with prefix (fst e) then
                let name := skipn (length prefix) (fst e) in
                if negb (contains (txt "/") name) && ends_with (txt ".md") name
                then [(name, snd e)] else []
              else [])
           f.

Inductive exn :=
| FileNotFoundError
| IsADirectoryError
| UnicodeDecodeError
| ValueError
| EOFError
| AttributeError
| re_error
| OtherError (tag : nat).

(** What the program prints, one constructor per message. *)
Inductive event :=
| EvRunStart
| EvPrereqFailed
| EvAvailableDocs (docs : list text)
| EvNoFeatureDir
| EvNoChecklistsDir
| EvTableHeader
| EvRow (name : text) (st : stats) (pass : bool)
| EvSomeIncomplete
| EvPrompt
| EvUserStopped
| EvAllPassed
| EvChecklistsFailed
| EvLoading (plan tasks : path)
| EvOptionalFile (p : path)
| EvContextError (e : exn)
| EvSetupStart
| EvGitWarning
| EvGitignoreCreated
| EvGitignoreVerified
| EvIgnoreUpdated (tech : text)
| EvSetupDone
| EvParsing (p : path)
| EvParsed (n : nat)
| EvParseError (e : exn)
| EvExecStart
| EvPhaseDone (phase : text)
| EvRunParallel (n : nat)
| EvRunSequential (n : nat)
| EvTaskStart (task_id description : text)
| EvTaskDone (task_id : text)
| EvExecDone
| EvExecError (e : exn)
| EvFileUpdated
| EvUpdateError (e : exn)
| EvRunDone
| EvSuccess
| EvFailure
| EvTraceback (e : exn).

(** The fields of the [SpeckitImplementer] instance. *)
Record implementer := {
  feature_dir : option path;
  feature_spec : option path;
  impl_plan : option path;
  tasks : option path;
  checklists_dir : option path
}.

(** Task dictionaries live in a store and are referred to by address, so
    that a change made through one reference is seen through the others. *)
Definition addr := nat.

(** What the prerequisite script prints: the [FEATURE_DIR] entry when there
    is one (its value may be null) and the list of documents. *)
Record report := {
  report_dir : option (option path);
  report_docs : list text
}.

(** The state the program runs in.  Three things come from outside and are
    taken as given: [found_dir], what the walk over the ancestors of the
    working directory finds; [prereq], the feature directory and document
    list reported by the prerequisite script ([None] when the script is
    missing, fails or prints something else); [git], whether the working
    directory is in a repository ([None] when the command cannot run). *)
Record state := {
  self : implementer;
  files : fs;
  store : list task;
  stdout : list event;
  stdin : list text;
  found_dir : option path;
  prereq : option report;
  git : option bool
}.

(** ** Computations: state, exceptions, and the limits of the model *)

Inductive outcome (A : Type) :=
| Ok (a : A)
| Raise (e : exn)
| Unknown.       (* the program leaves the modelled part of [re] *)

Arguments Ok {A} a.
Arguments Raise {A} e.
Arguments Unknown {A}.

Definition M (A : Type) := state -> outcome A * state.

Definition ret {A} (a : A) : M A := fun s => (Ok a, s).

Definition raise {A} (e : exn) : M A := fun s => (Raise e, s).

Definition unknown {A} : M A := fun s => (Unknown, s).

Definition mbind {A B} (m : M A) (f : A -> M B) : M B :=
  fun s =>
    match m s with
    | (Ok a, s') => f a s'
    | (Raise e, s') => (Raise e, s')
    | (Unknown, s') => (Unknown, s')
    end.

Declare Scope monad_scope.
Delimit Scope monad_scope with monad.
Notation "x <- m ;; k" := (mbind m (fun x => k))
  (at level 61, m at next level, right associativity) : monad_scope.
Notation "m ;; k" := (mbind m (fun _ => k))
  (at level 61, right associativity) : monad_scope.
Open Scope monad_scope.

(** [try: m except Exception as e: h e] *)
Definition try_except {A} (m : M A) (h : exn -> M A) : M A :=
  fun s =>
    match m s with
    | (Raise e, s') => h e s'
    | r => r
    end.

Definition get : M state := fun s => (Ok s, s).

Definition modify (f : state -> state) : M unit := fun s => (Ok tt, f s).

Definition set_self (i : implementer) (s : state) : state :=
  {| self := i; files := files s; store := store s; stdout := stdout s;
     stdin := stdin s; found_dir := found_dir s; prereq := prereq s; git := git s |}.

Definition set_files (f : fs) (s : state) : state :=
  {| self := self s; files := f; store := store s; stdout := stdout s;
     stdin := stdin s; found_dir := found_dir s; prereq := prereq s; git := git s |}.

Definition set_store (h : list task) (s : state) : state :=
  {| self := self s; files := files s; store := h; stdout := stdout s;
     stdin := stdin s; found_dir := found_dir s; prereq := prereq s; git := git s |}.

Definition set_stdout (o : list event) (s : state) : state :=
  {| self := self s; files := files s; store := store s; stdout := o;
     stdin := stdin s; found_dir := found_dir s; prereq := prereq s; git := git s |}.

Definition set_stdin (i : list text) (s : state) : state :=
  {| self := self s; files := files s; store := store s; stdout := stdout s;
     stdin := i; found_dir := found_dir s; prereq := prereq s; git := git s |}.

Definition print (e : event) : M unit :=
  modify (fun s => set_stdout (stdout s ++ [e]) s).

Fixpoint for_each {A} (l : list A) (f : A -> M unit) : M unit :=
  match l with
  | [] => ret tt
  | a :: l' => f a ;; for_each l' f
  end.

(** A list comprehension with a condition that reads the state. *)
Fixpoint select {A} (p : A -> M bool) (l : list A) : M (list A) :=
  match l with
  | [] => ret []
  | a :: l' =>
      b <- p a ;;
      r <- select p l' ;;
      ret (if b then a :: r else r)
  end.

(** *** Files *)

Definition exists_ (p : path) : M bool :=
  s <- get ;;
  ret (match fs_find p (files s) with Some _ => true | None => false end).

(** [open(p, 'r', encoding='utf-8').read()] *)
Definition read_text (p : path) : M text :=
  s <- get ;;
  match fs_find p (files s) with
  | Some (File c) => ret c
  | Some Binary => raise UnicodeDecodeError
  | Some Dir => raise IsADirectoryError
  | None => raise FileNotFoundError
  end.

(** [open(p, 'w', encoding='utf-8').write(c)] *)
Definition write_text (p : path) (c : text) : M unit :=
  s <- get ;;
  match fs_find p (files s) with
  | Some Dir => raise IsADirectoryError
  | _ => modify (fun s => set_files (fs_put p (File c) (files s)) s)
  end.

(** Writing [c] to [p] opened in append mode. *)
Definition append_text (p : path) (c : text) : M unit :=
  s <- get ;;
  match fs_find p (files s) with
  | Some Dir => raise IsADirectoryError
  | Some Binary => ret tt
  | Some (File old) => modify (fun s => set_files (fs_put p (File (old ++ c)) (files s)) s)
  | None => modify (fun s => set_files (fs_put p (File c) (files s)) s)
  end.

(** *** Task dictionaries *)

Definition deref (a : addr) : M task :=
  s <- get ;;
  match nth_error (store s) a with
  | Some t => ret t
  | None => unknown
  end.

Definition mark_completed (t : task) : task :=
  {| id := id t; description := description t; is_parallel := is_parallel t;
     story := story t; completed := true |}.

Fixpoint update_at {A} (f : A -> A) (i : nat) (l : list A) : list A :=
  match l, i with
  | [], _ => []
  | x :: l', 0 => f x :: l'
  | x :: l', S j => x :: update_at f j l'
  end.

(** [task['completed'] = True] *)
Definition set_completed (a : addr) : M unit :=
  modify (fun s => set_store (update_at mark_completed a (store s)) s).

(** Creating the dictionaries of a list of records. *)
Definition alloc (ts : list task) : M (list addr) :=
  s <- get ;;
  modify (set_store (store s ++ ts)) ;;
  ret (seq (length (store s)) (length ts)).

(** ** The methods of [SpeckitImplementer] *)

Definition self_feature_dir : M (option path) := s <- get ;; ret (feature_dir (self s)).

(** Truth value of [self.feature_dir]. *)
Definition dir_given (d : option path) : bool :=
  match d with
  | Some p => truthy p
  | None => false
  end.

Definition or_empty (d : option text) : text :=
  match d with
  | Some p => p
  | None => []
  end.

(** [SpeckitImplementer(feature_dir)] *)
Definition init (dir : option path) (s : state) : implementer :=
  {| feature_dir := if dir_given dir then dir else found_dir s;
     feature_spec := None; impl_plan := None; tasks := None;
     checklists_dir := None |}.

Definition run_check_prerequisites : M (list text) :=
  s <- get ;;
  match prereq s with
  | Some r =>
      modify (fun s =>
        set_self {| feature_dir := match report_dir r with
                                   | Some d => d
                                   | None => feature_dir (self s)
                                   end;
                    feature_spec := feature_spec (self s);
                    impl_plan := impl_plan (self s);
                    tasks := tasks (self s);
                    checklists_dir := checklists_dir (self s) |} s) ;;
      ret (report_docs r)
  | None => print EvPrereqFailed ;; ret []
  end.

(** The loop over the checklist files: each is read and counted. *)
Fixpoint scan_checklists (l : list (text * node)) : M (list (text * stats)) :=
  match l with
  | [] => ret []
  | (name, n) :: l' =>
      content <- match n with
                 | File c => ret c
                 | Binary => raise UnicodeDecodeError
                 | Dir => raise IsADirectoryError
                 end ;;
      rest <- scan_checklists l' ;;
      ret ((name, checklist_stats content) :: rest)
  end.

(** [input(...)]: the next line typed, or [EOFError]. *)
Definition input : M text :=
  print EvPrompt ;;
  s <- get ;;
  match stdin s with
  | line :: rest => modify (set_stdin rest) ;; ret line
  | [] => raise EOFError
  end.

Definition check_checklists_status : M bool :=
  d <- self_feature_dir ;;
  if negb (dir_given d) then print EvNoFeatureDir ;; ret true
  else
    let cdir := join (or_empty d) (txt "checklists") in
    modify (fun s =>
      set_self {| feature_dir := feature_dir (self s);
                  feature_spec := feature_spec (self s);
                  impl_plan := impl_plan (self s);
                  tasks := tasks (self s);
                  checklists_dir := Some cdir |} s) ;;
    present <- exists_ cdir ;;
    if negb present then print EvNoChecklistsDir ;; ret true
    else
      s <- get ;;
      checklist_status <- scan_checklists (glob_md cdir (files s)) ;;
      print EvTableHeader ;;
      for_each checklist_status
        (fun row => print (EvRow (fst row) (snd row) (file_passes (snd row)))) ;;
      let all_passed := forallb (fun row => negb (0 <? incomplete_items (snd row)))
                                checklist_status in
      if negb all_passed then
        print EvSomeIncomplete ;;
        line <- input ;;
        let response := lower (strip line) in
        if existsb (text_eqb response) [txt "yes"; txt "y"; txt "proceed"; txt "continue"]
        then ret true
        else print EvUserStopped ;; ret false
      else print EvAllPassed ;; ret true.

Definition load_implementation_context : M bool :=
  d <- self_feature_dir ;;
  if negb (dir_given d) then raise ValueError
  else
    let spec_p := join (or_empty d) (txt "spec.md") in
    let plan_p := join (or_empty d) (txt "plan.md") in
    let tasks_p := join (or_empty d) (txt "tasks.md") in
    modify (fun s =>
      set_self {| feature_dir := feature_dir (self s);
                  feature_spec := Some spec_p;
                  impl_plan := Some plan_p;
                  tasks := Some tasks_p;
                  checklists_dir := checklists_dir (self s) |} s) ;;
    for_each [plan_p; tasks_p]
      (fun file_path =>
         present <- exists_ file_path ;;
         if negb present then raise FileNotFoundError else ret tt) ;;
    print (EvLoading plan_p tasks_p) ;;
    for_each [txt "data-model.md"; txt "research.md"; txt "quickstart.md"]
      (fun name =>
         present <- exists_ (join (or_empty d) name) ;;
         if present then print (EvOptionalFile (join (or_empty d) name)) else ret tt) ;;
    ret true.

Definition lines (l : list string) : text :=
  flat_map (fun s => txt s ++ [nl]) l.

Definition gitignore_path : path := txt ".gitignore".

Definition _create_python_ignore : M unit :=
  append_text gitignore_path
    ([nl] ++ lines ["# Python"; "__pycache__/"; "*.pyc"; ".venv/"; "venv/"; "dist/";
                    "*.egg-info/"; ".env*"; "*.log"]%string) ;;
  print (EvIgnoreUpdated (txt "python")).

Definition _create_js_ignore : M unit :=
  append_text gitignore_path
    ([nl] ++ lines ["# Node.js"; "node_modules/"; "dist/"; "build/"; "*.log"; ".env*"]%string) ;;
  print (EvIgnoreUpdated (txt "javascript")).

Definition _create_java_ignore : M unit :=
  append_text gitignore_path
    ([nl] ++ lines ["# Java"; "target/"; "*.class"; "*.jar"; ".gradle/"; "build/"]%string) ;;
  print (EvIgnoreUpdated (txt "java")).

Definition mentions (plan_content : text) (techs : list string) : bool :=
  existsb (fun tech => contains (txt tech) plan_content) techs.

Definition project_setup_verification : M bool :=
  print EvSetupStart ;;
  s <- get ;;
  is_git_repo <- match git s with
                 | Some b => ret b
                 | None => print EvGitWarning ;; ret false
                 end ;;
  (if is_git_repo : bool then
     present <- exists_ gitignore_path ;;
     if negb present
     then modify (fun s => set_files (fs_put gitignore_path (File []) (files s)) s) ;;
          print EvGitignoreCreated
     else print EvGitignoreVerified
   else ret tt) ;;
  s <- get ;;
  plan_p <- match impl_plan (self s) with
            | Some p => ret p
            | None => raise AttributeError
            end ;;
  plan_present <- exists_ plan_p ;;
  (if plan_present : bool then
     content <- read_text plan_p ;;
     let plan_content := lower content in
     (if mentions plan_content ["python"; "pip"; "venv"]%string
      then _create_python_ignore else ret tt) ;;
     (if mentions plan_content ["node"; "npm"; "yarn"; "javascript"; "typescript"]%string
      then _create_js_ignore else ret tt) ;;
     (if mentions plan_content ["java"; "gradle"; "maven"]%string
      then _create_java_ignore else ret tt)
   else ret tt) ;;
  print EvSetupDone ;;
  ret true.

Definition tasks_file_present : M (option path) :=
  s <- get ;;
  match tasks (self s) with
  | Some p =>
      present <- exists_ p ;;
      ret (if present : bool then Some p else None)
  | None => ret None
  end.

Definition parse_tasks : M (list addr) :=
  f <- tasks_file_present ;;
  match f with
  | None => raise FileNotFoundError
  | Some p =>
      print (EvParsing p) ;;
      content <- read_text p ;;
      parsed_tasks <- alloc (parse_tasks_content content) ;;
      print (EvParsed (length parsed_tasks)) ;;
      ret parsed_tasks
  end.

Definition _execute_single_task (a : addr) : M unit :=
  t <- deref a ;;
  print (EvTaskStart (id t) (description t)) ;;
  set_completed a ;;
  t <- deref a ;;
  print (EvTaskDone (id t)).

Definition _execute_phase_tasks (phase_tasks : list addr) : M unit :=
  parallel_tasks <- select (fun a => t <- deref a ;; ret (is_parallel t)) phase_tasks ;;
  sequential_tasks <- select (fun a => t <- deref a ;; ret (negb (is_parallel t))) phase_tasks ;;
  print (EvRunParallel (length parallel_tasks)) ;;
  for_each parallel_tasks _execute_single_task ;;
  print (EvRunSequential (length sequential_tasks)) ;;
  for_each sequential_tasks _execute_single_task.

(** The end of a phase: its tasks, if any, are executed. *)
Definition flush_phase (current_phase : text) (phase_tasks : list addr) : M unit :=
  match phase_tasks with
  | [] => ret tt
  | _ => print (EvPhaseDone current_phase) ;; _execute_phase_tasks phase_tasks
  end.

(** The grouping loop of [execute_implementation], with its two local
    variables. *)
Fixpoint group_loop (l : list addr) (current_phase : text) (phase_tasks : list addr)
    : M (text * list addr) :=
  match l with
  | [] => ret (current_phase, phase_tasks)
  | a :: l' =>
      t <- deref a ;;
      let phase := phase_of t in
      if negb (text_eqb phase current_phase) then
        flush_phase current_phase phase_tasks ;;
        group_loop l' phase [a]
      else group_loop l' current_phase (phase_tasks ++ [a])
  end.

Definition execute_implementation (l : list addr) : M unit :=
  print EvExecStart ;;
  r <- group_loop l (txt "unknown") [] ;;
  flush_phase (fst r) (snd r) ;;
  print EvExecDone.

(** The pattern and the replacement built for one task. *)
Definition update_pattern (t : task) : text :=
  txt "(-\s*\[\s*\]\s*" ++ id t ++ txt "\s*.*?" ++ description t ++ txt ")".

Definition update_replacement (t : task) : text :=
  txt "- [X] " ++ id t
  ++ (if is_parallel t then txt " [P]" else [])
  ++ (if has_story t then txt " [" ++ or_empty (story t) ++ txt "]" else [])
  ++ txt " " ++ description t.

(** [re.sub(pattern, replacement, content)] *)
Definition re_sub (pattern replacement content : text) : M text :=
  match compile pattern with
  | Parsed (r, _) =>
      if contains (txt "\") replacement then unknown
      else ret (sub r replacement content)
  | Raises => raise re_error
  | NotModelled => unknown
  end.

(** The loop of [update_tasks_file] over the tasks. *)
Fixpoint update_loop (l : list addr) (content : text) : M text :=
  match l with
  | [] => ret content
  | a :: l' =>
      t <- deref a ;;
      if completed t then
        content' <- re_sub (update_pattern t) (update_replacement t) content ;;
        update_loop l' content'
      else update_loop l' content
  end.

Definition update_tasks_file (l : list addr) : M unit :=
  f <- tasks_file_present ;;
  match f with
  | None => ret tt
  | Some p =>
      content <- read_text p ;;
      content' <- update_loop l content ;;
      write_text p content' ;;
      print EvFileUpdated
  end.

(** The methods that [run] calls on the instance.  [main] may replace
    [check_checklists_status] on the instance it runs. *)
Record methods := {
  m_run_check_prerequisites : M (list text);
  m_check_checklists_status : M bool;
  m_load_implementation_context : M bool;
  m_project_setup_verification : M bool;
  m_parse_tasks : M (list addr);
  m_execute_implementation : list addr -> M unit;
  m_update_tasks_file : list addr -> M unit
}.

Definition SpeckitImplementer : methods :=
  {| m_run_check_prerequisites := run_check_prerequisites;
     m_check_checklists_status := check_checklists_status;
     m_load_implementation_context := load_implementation_context;
     m_project_setup_verification := project_setup_verification;
     m_parse_tasks := parse_tasks;
     m_execute_implementation := execute_implementation;
     m_update_tasks_file := update_tasks_file |}.

Definition run (o : methods) : M bool :=
  print EvRunStart ;;
  available_docs <- m_run_check_prerequisites o ;;
  print (EvAvailableDocs available_docs) ;;
  passed <- m_check_checklists_status o ;;
  if negb passed then print EvChecklistsFailed ;; ret false
  else
    loaded <- try_except (m_load_implementation_context o ;; ret true)
                         (fun e => print (EvContextError e) ;; ret false) ;;
    if negb loaded then ret false
    else
      m_project_setup_verification o ;;
      parsed_tasks <- try_except (l <- m_parse_tasks o ;; ret (Some l))
                                 (fun e => print (EvParseError e) ;; ret None) ;;
      match parsed_tasks with
      | None => ret false
      | Some l =>
          executed <- try_except (m_execute_implementation o l ;; ret true)
                                 (fun e => print (EvExecError e) ;; ret false) ;;
          if negb executed then ret false
          else
            try_except (m_update_tasks_file o l)
                       (fun e => print (EvUpdateError e)) ;;
            print EvRunDone ;;
            ret true
      end.

(** The command line: [--feature-dir], [--tasks-file], [--skip-checklists]. *)
Record args := {
  arg_feature_dir : option text;
  arg_tasks_file : option text;
  arg_skip_checklists : bool
}.

Definition with_tasks (p : path) (i : implementer) : implementer :=
  {| feature_dir := feature_dir i; feature_spec := feature_spec i;
     impl_plan := impl_plan i; tasks := Some p; checklists_dir := checklists_dir i |}.

Definition skip_checklists (o : methods) : methods :=
  {| m_run_check_prerequisites := m_run_check_prerequisites o;
     m_check_checklists_status := ret true;
     m_load_implementation_context := m_load_implementation_context o;
     m_project_setup_verification := m_project_setup_verification o;
     m_parse_tasks := m_parse_tasks o;
     m_execute_implementation := m_execute_implementation o;
     m_update_tasks_file := m_update_tasks_file o |}.

(** The state [main] starts [run] in: the instance is created, and its
    tasks file set when the command line names one. *)
Definition prepared (a : args) (s : state) : state :=
  let s := set_self (init (arg_feature_dir a) s) s in
  if dir_given (arg_tasks_file a)
  then set_self (with_tasks (or_empty (arg_tasks_file a)) (self s)) s
  else s.

(** The methods of the instance that [main] runs. *)
Definition instance (o : methods) (a : args) : methods :=
  if arg_skip_checklists a then skip_checklists o else o.

(** After printing [e]. *)
Definition say (e : event) (s : state) : state := set_stdout (stdout s ++ [e]) s.

(** [main] for an instance with methods [o]; the result is the exit status
    of the process, [None] when the run leaves the modelled part of [re].
    An exception that nothing catches ends the process with status 1. *)
Definition main_of (o : methods) (a : args) (s : state) : option nat * state :=
  match run (instance o a) (prepared a s) with
  | (Ok true, s') => (Some 0, say EvSuccess s')
  | (Ok false, s') => (Some 1, say EvFailure s')
  | (Raise e, s') => (Some 1, say (EvTraceback e) s')
  | (Unknown, s') => (None, s')
  end.

Definition main : args -> state -> option nat * state := main_of SpeckitImplementer.

(** ** Notions used to state the properties *)

(** The marker of a checklist item, the first group of its match. *)
Definition marker (item : list text) : text := nth 0 item [].


(** The text as a list of lines, as [str.split] gives them for the
    newline. *)
Fixpoint split_lines (s : text) : list text :=
  match s with
  | [] => [[]]
  | a :: s' =>
      if Ascii.eqb a nl then [] :: split_lines s'
      else match split_lines s' with
           | l :: ls => (a :: l) :: ls
           | [] => [[a]]
           end
  end.

(** The store with a state's other components unchanged, and the state
    after a stretch of the run that changed only the store and the output. *)
Definition with_run (s : state) (h : list task) (o : list event) : state :=
  {| self := self s; files := files s; store := h; stdout := o;
     stdin := stdin s; found_dir := found_dir s; prereq := prereq s; git := git s |}.

Definition no_task : task :=
  {| id := []; description := []; is_parallel := false; story := None; completed := false |}.

(** The task at an address. *)
Definition task_at (h : list task) (a : addr) : task := nth a h no_task.

(** The maximal runs of consecutive elements with the same phase. *)
Fixpoint runs {A} (phase : A -> text) (l : list A) : list (list A) :=
  match l with
  | [] => []
  | a :: l' =>
      match runs phase l' with
      | (b :: g) :: gs =>
          if text_eqb (phase a) (phase b) then (a :: b :: g) :: gs
          else [a] :: (b :: g) :: gs
      | _ => [[a]]
      end
  end.

(** Within a group: the parallel tasks, then the others. *)
Definition parallel_first {A} (par : A -> bool) (g : list A) : list A :=
  filter par g ++ filter (fun a => negb (par a)) g.

(** The phases in the order in which each first appears. *)
Fixpoint first_seen (l : list text) : list text :=
  match l with
  | [] => []
  | p :: l' => p :: filter (fun q => negb (text_eqb q p)) (first_seen l')
  end.

(** The order of execution as the specification words it: phase after
    phase in the order of first appearance, all the tasks of a phase
    together, the parallel ones first. *)
Definition order_by_phase {A} (phase : A -> text) (par : A -> bool) (l : list A) : list A :=
  flat_map (fun p => parallel_first par (filter (fun a => text_eqb (phase a) p) l))
           (first_seen (map phase l)).

(** The order of execution by runs. *)
Definition order_by_run {A} (phase : A -> text) (par : A -> bool) (l : list A) : list A :=
  flat_map (parallel_first par) (runs phase l).

Definition group_phase {A} (phase : A -> text) (g : list A) : text :=
  match g with
  | a :: _ => phase a
  | [] => []
  end.

(** Every phase occupies one stretch of the list: no two runs have the
    same phase. *)
Definition contiguous {A} (phase : A -> text) (l : list A) : Prop :=
  NoDup (map (group_phase phase) (runs phase l)).

(** What executing one task prints. *)
Definition task_events (t : task) : list event :=
  [EvTaskStart (id t) (description t); EvTaskDone (id t)].

(** What executing the tasks of one phase prints. *)
Definition phase_events (h : list task) (g : list addr) : list event :=
  let par := fun a => is_parallel (task_at h a) in
  [EvRunParallel (length (filter par g))]
  ++ flat_map (fun a => task_events (task_at h a)) (filter par g)
  ++ [EvRunSequential (length (filter (fun a => negb (par a)) g))]
  ++ flat_map (fun a => task_events (task_at h a)) (filter (fun a => negb (par a)) g).

(** The tasks started, in order, as the output shows them. *)
Definition started (evs : list event) : list (text * text) :=
  flat_map (fun e => match e with
                     | EvTaskStart i d => [(i, d)]
                     | _ => []
                     end) evs.

(** The store after the tasks at the addresses [l] were marked. *)
Definition marks (l : list addr) (h : list task) : list task :=
  fold_left (fun h a => update_at mark_completed a h) l h.

Definition phase_at (h : list task) (a : addr) : text := phase_of (task_at h a).

Definition par_at (h : list task) (a : addr) : bool := is_parallel (task_at h a).

(** The loop of [execute_implementation] seen from its two local variables:
    the groups it hands over while it runs, and the group it ends with. *)
Fixpoint closed_groups (phase : addr -> text) (l : list addr) (cur : text)
    (acc : list addr) : list (text * list addr) :=
  match l with
  | [] => []
  | a :: l' =>
      if negb (text_eqb (phase a) cur)
      then (cur, acc) :: closed_groups phase l' (phase a) [a]
      else closed_groups phase l' cur (acc ++ [a])
  end.

Fixpoint final_group (phase : addr -> text) (l : list addr) (cur : text)
    (acc : list addr) : text * list addr :=
  match l with
  | [] => (cur, acc)
  | a :: l' =>
      if negb (text_eqb (phase a) cur)
      then final_group phase l' (phase a) [a]
      else final_group phase l' cur (acc ++ [a])
  end.

Definition all_groups (phase : addr -> text) (l : list addr) : list (text * list addr) :=
  closed_groups phase l (txt "unknown") [] ++ [final_group phase l (txt "unknown") []].

(** What handing over one group prints: nothing for an empty group. *)
Definition flush_events (h : list task) (g : text * list addr) : list event :=
  match snd g with
  | [] => []
  | _ => EvPhaseDone (fst g) :: phase_events h (snd g)
  end.

Definition group_order (h : list task) (g : text * list addr) : list addr :=
  parallel_first (par_at h) (snd g).

(** ** Sample inputs *)

Definition blank : implementer :=
  {| feature_dir := None; feature_spec := None; impl_plan := None;
     tasks := None; checklists_dir := None |}.

(** A state before the program starts: nothing printed, nothing typed, no
    prerequisite script, no repository. *)
Definition initial (f : fs) : state :=
  {| self := blank; files := f; store := []; stdout := []; stdin := [];
     found_dir := None; prereq := None; git := Some false |}.

Definition demo_dir : path := txt "specs/demo".

Definition demo_tasks : path := join demo_dir (txt "tasks.md").

(** A feature directory with a plan and a tasks file, without checklists. *)
Definition demo_files (tasks_md : node) : fs :=
  [(demo_dir, Dir);
   (join demo_dir (txt "plan.md"), File (txt "A command line tool."));
   (demo_tasks, tasks_md)].

Definition demo_args : args :=
  {| arg_feature_dir := Some demo_dir; arg_tasks_file := None;
     arg_skip_checklists := false |}.

(** The tasks file of the end-to-end scenario. *)
Definition scenario : text :=
  txt "- [ ] T001 [P] Setup project" ++ [nl]
  ++ txt "- [ ] T002 [US1] Implement feature" ++ [nl].

(** The text of a file after a run of [main], if the run is in the model
    and the file exists and is text. *)
Definition file_after (a : args) (s : state) (p : path) : option text :=
  match fs_find p (files (snd (main a s))) with
  | Some (File c) => Some c
  | _ => None
  end.

Definition has_line (l : text) (content : option text) : Prop :=
  match content with
  | Some c => In l (split_lines c)
  | None => False
  end.

(** A tasks file whose only description holds parentheses. *)
Definition oauth_tasks : text := txt "- [ ] T001 Add login (OAuth)".

(** Tasks of the setup phase around a task of a story. *)
Definition interleaved : text :=
  txt "- [ ] T001 Setup database" ++ [nl]
  ++ txt "- [ ] T002 [US1] Add login" ++ [nl]
  ++ txt "- [ ] T003 [P] Setup cache" ++ [nl].

(** A second tasks file, outside the feature directory, and the command
    line that names it. *)
Definition other_tasks : path := txt "elsewhere/tasks.md".

Definition override_args : args :=
  {| arg_feature_dir := Some demo_dir; arg_tasks_file := Some other_tasks;
     arg_skip_checklists := false |}.

Definition override_files : fs :=
  demo_files (File (txt "- [ ] T001 Task of the feature directory"))
  ++ [(other_tasks, File (txt "- [ ] T900 Task of the other file"))].

(** The run reaches the parsing of the tasks in state [s4]: the
    prerequisites were checked, the checklists passed or were accepted, the
    context was loaded and the project set-up verified. *)
Definition reaches_parse (o : methods) (s s4 : state) : Prop :=
  exists docs s1 s2 b1 s3 b2,
    m_run_check_prerequisites o (say EvRunStart s) = (Ok docs, s1) /\
    m_check_checklists_status o (say (EvAvailableDocs docs) s1) = (Ok true, s2) /\
    m_load_implementation_context o s2 = (Ok b1, s3) /\
    m_project_setup_verification o s3 = (Ok b2, s4).

(** An implementer whose execution step fails. *)
Definition failing_execution : methods :=
  {| m_run_check_prerequisites := run_check_prerequisites;
     m_check_checklists_status := check_checklists_status;
     m_load_implementation_context := load_implementation_context;
     m_project_setup_verification := project_setup_verification;
     m_parse_tasks := parse_tasks;
     m_execute_implementation := fun _ => raise (OtherError 0);
     m_update_tasks_file := update_tasks_file |}.

(** A tasks file whose description leaves a parenthesis open. *)
Definition open_paren_tasks : text := txt "- [ ] T001 Fix (this".

(** States whose store holds the parsed tasks of a sample file. *)
Definition scenario_store : state :=
  with_run (initial []) (parse_tasks_content scenario) [].

Definition interleaved_store : state :=
  with_run (initial []) (parse_tasks_content interleaved) [].

(** The state in which [run] comes to the parsing of the tasks. *)
Definition before_parse (o : methods) (s : state) : state :=
  snd ((print EvRunStart ;;
        docs <- m_run_check_prerequisites o ;;
        print (EvAvailableDocs docs) ;;
        m_check_checklists_status o ;;
        m_load_implementation_context o ;;
        m_project_setup_verification o) s).

(** ** Notions for the task parser *)

(** The match of the task pattern that starts at the beginning of [s]. *)
Definition match_at (s : text) : option mstate := match_here task_regex false s.

(** The record made from a match. *)
Definition task_of_hit (st : mstate) : task :=
  task_of_match (map (group_text (snd st)) (seq 1 4)).

(** What a match leaves begins a new line, or is empty. *)
Definition ends_line (st : mstate) : Prop :=
  fst st = [] \/ exists r, fst st = nl :: r.

(** The records of a text, found by going through it from left to right:
    where the pattern matches, the match gives one record and the search
    goes on behind the match; elsewhere one character is passed over. *)
Inductive scanned : text -> list task -> Prop :=
| scanned_end : scanned [] []
| scanned_pass a s ts :
    match_at (a :: s) = None -> scanned s ts -> scanned (a :: s) ts
| scanned_hit s st ts :
    match_at s = Some st -> ends_line st -> scanned (fst st) ts ->
    scanned s (task_of_hit st :: ts).

(** A description mentions a word, whatever the case of its letters. *)
Definition mentions_ci (word d : text) : Prop :=
  exists u v w, d = u ++ v ++ w /\ lower v = word.

(** Two task lines on one line, and a task line after an empty checkbox. *)
Definition nested : text := txt "- [ ] T001 a - [ ] T002 b".

Definition box_then_task : text := txt "- [ ]" ++ [nl] ++ txt "T001 Write tests".

Definition blank_then_task : text :=
  txt "- [ ] T001 " ++ [nl] ++ txt "- [ ] T002 Write tests".

(** A task line after an indentation and a quotation mark. *)
Definition quoted_pre : text := txt "  > ".

Definition plain_line : text := txt "- [ ] T001 Write tests".

(** A task of a story whose description mentions the set-up. *)
Definition story_setup_line : text := txt "- [ ] T002 [US1] Setup login".

(** Every first outcome of [r] satisfies [P]. *)
Definition all_heads (P : mstate -> Prop) (r : regex) : Prop :=
  forall s c x, hd_error (matches r s c) = Some x -> P x.

(** The addresses of [l] are in the store [h]. *)
Definition valid (h : list task) (l : list addr) : Prop :=
  Forall (fun a => a < length h) l.

Definition nonempty {A} (g : list A) : bool :=
  match g with
  | [] => false
  | _ => true
  end.

(** How the output names a task. *)
Definition ident (t : task) : text * text := (id t, description t).

(** All the elements of [g] have phase [p]. *)
Definition uniform {A} (phase : A -> text) (p : text) (g : list A) : Prop :=
  Forall (fun a => phase a = p) g.

Definition keep_out (p : text) (l : list text) : list text :=
  filter (fun q => negb (text_eqb q p)) l.

(** ** Notions for what a computation leaves alone *)

(** The computation [m] never changes the component [proj] of the state,
    however it ends. *)
Definition keeps {A X : Type} (proj : state -> X) (m : M A) : Prop :=
  forall s, proj (snd (m s)) = proj s.

(** The scenario after the context was loaded: the instance knows its
    tasks file. *)
Definition loaded_scenario : state :=
  set_self (with_tasks demo_tasks blank) (initial (demo_files (File scenario))).

(** The path exists, as a file or a directory. *)
Definition present (p : path) (s : state) : bool :=
  match fs_find p (files s) with
  | Some _ => true
  | None => false
  end.

(** The feature directory of the instance and the files looked for in it. *)
Definition the_dir (s : state) : path := or_empty (feature_dir (self s)).

Definition in_dir (name : string) (s : state) : path := join (the_dir s) (txt name).

(** The state of [load_implementation_context] once the three paths are
    set on the instance. *)
Definition paths_set (s : state) : state :=
  set_self {| feature_dir := feature_dir (self s);
              feature_spec := Some (in_dir "spec.md" s);
              impl_plan := Some (in_dir "plan.md" s);
              tasks := Some (in_dir "tasks.md" s);
              checklists_dir := checklists_dir (self s) |} s.

(** ** Notions for the checklist gate *)



(** The checklist files of the feature directory, and the table made of
    them. *)
Definition checklists_of (s : state) : list (text * node) :=
  glob_md (in_dir "checklists" s) (files s).


Definition row_event (row : text * stats) : event :=
  EvRow (fst row) (snd row) (file_passes (snd row)).

(** Every file of the table passes. *)
Definition all_pass (rows : list (text * stats)) : bool :=
  forallb (fun row => file_passes (snd row)) rows.

(** The answers that let the run go on. *)
Definition affirmative (line : text) : bool :=
  existsb (text_eqb (lower (strip line)))
          [txt "yes"; txt "y"; txt "proceed"; txt "continue"].

(** The instance once it knows its checklist directory. *)
Definition checklists_set (s : state) : state :=
  set_self {| feature_dir := feature_dir (self s);
              feature_spec := feature_spec (self s);
              impl_plan := impl_plan (self s);
              tasks := tasks (self s);
              checklists_dir := Some (in_dir "checklists" s) |} s.



(** ** Notions for the set-up stage *)

(** A computation started in [s] ends normally, with a result and a state
    that satisfy [Q]. *)
Definition ensures {A} (m : M A) (s : state) (Q : A -> state -> Prop) : Prop :=
  exists a s', m s = (Ok a, s') /\ Q a s'.

(** The text of [.gitignore], empty when there is none. *)
Definition ignored (f : fs) : text :=
  match fs_find gitignore_path f with
  | Some (File g) => g
  | _ => []
  end.

(** [.gitignore] is a text file or does not exist. *)
Definition gitignore_is_text (f : fs) : bool :=
  match fs_find gitignore_path f with
  | Some (File _) | None => true
  | _ => false
  end.

Definition python_block : text :=
  [nl] ++ lines ["# Python"; "__pycache__/"; "*.pyc"; ".venv/"; "venv/"; "dist/";
                 "*.egg-info/"; ".env*"; "*.log"]%string.

Definition js_block : text :=
  [nl] ++ lines ["# Node.js"; "node_modules/"; "dist/"; "build/"; "*.log"; ".env*"]%string.

Definition java_block : text :=
  [nl] ++ lines ["# Java"; "target/"; "*.class"; "*.jar"; ".gradle/"; "build/"]%string.

Definition block_if (b : bool) (block : text) : text := if b then block else [].

(** What a plan with the lowercased text [plan_content] adds to
    [.gitignore]. *)
Definition ignore_blocks (plan_content : text) : text :=
  block_if (mentions plan_content ["python"; "pip"; "venv"]%string) python_block
  ++ block_if (mentions plan_content
                 ["node"; "npm"; "yarn"; "javascript"; "typescript"]%string) js_block
  ++ block_if (mentions plan_content ["java"; "gradle"; "maven"]%string) java_block.

(** The state in which [run] reaches the set-up stage on the sample
    feature, for a plan with text [plan]. *)
Definition planned (plan : string) : state :=
  snd (load_implementation_context
         (prepared demo_args
            (initial (fs_put (join demo_dir (txt "plan.md")) (File (txt plan))
                             (demo_files (File scenario)))))).

(** What the set-up stage keeps of the state [s0] it starts in: the
    instance, every file but [.gitignore], and that [.gitignore] is text;
    [old] is the text of [.gitignore]. *)
Definition setup_inv (s0 : state) (old : text) (s : state) : Prop :=
  self s = self s0
  /\ (forall q, q <> gitignore_path -> fs_find q (files s) = fs_find q (files s0))
  /\ gitignore_is_text (files s) = true
  /\ ignored (files s) = old.

(** ** Notions for the run as a whole *)

(** [m] changes the component [proj] of the state only along [R]. *)
Definition moves {A X : Type} (proj : state -> X) (R : X -> X -> Prop) (m : M A) : Prop :=
  forall s, R (proj s) (proj (snd (m s))).

(** Nothing, or the first line, has been taken from the input. *)
Definition at_most_one_line (before after : list text) : Prop :=
  after = before \/ after = tl before.

(** [m] never leaves the modelled part of [re]. *)
Definition known {A} (m : M A) : Prop := forall s, fst (m s) <> Unknown.

(** The state in which [main] has created the instance and [run] has
    asked the prerequisite script for the feature directory. *)
Definition resolved (a : args) (s : state) : state :=
  snd (run_check_prerequisites (say EvRunStart (prepared a s))).

(** The feature directory, [plan.md] and [tasks.md] are all there. *)
Definition loadable (s : state) : bool :=
  dir_given (feature_dir (self s))
  && present (in_dir "plan.md" s) s
  && present (in_dir "tasks.md" s) s.

Definition skipping_args : args :=
  {| arg_feature_dir := Some demo_dir; arg_tasks_file := None;
     arg_skip_checklists := true |}.

(** A feature directory without a plan. *)
Definition no_plan_files : fs := [(demo_dir, Dir); (demo_tasks, File scenario)].

(** * Properties *)

Unset Implicit Arguments.

(** ** The matcher *)

Module ReFacts.

Lemma in_flat_map_iff {A B} (f : A -> list B) (l : list A) (y : B) :
  In y (flat_map f l) <-> exists x, In x l /\ In y (f x).
Proof. apply in_flat_map. Qed.

Lemma rep_suffix body :
  suffix_closed body ->
  forall fuel lo hi g, suffix_closed (rep body fuel lo hi g).
Proof.
  intros Hb fuel. induction fuel as [|fuel IH]; intros lo hi g s c st Hin.
  - simpl in Hin. destruct (lo =? 0); [|contradiction].
    destruct Hin as [<-|[]]. exists []. reflexivity.
  - simpl in Hin.
    assert (Hstop : In st (if lo =? 0 then [(s, c)] else []) -> exists w, s = w ++ fst st).
    { destruct (lo =? 0); [|contradiction]. intros [<-|[]]. exists []. reflexivity. }
    assert (Hmore : In st (if hi_allows hi
                            then flat_map (fun st0 : mstate =>
                                   if length (fst st0) <? length s
                                   then rep body fuel (pred lo) (hi_pred hi) g (fst st0) (snd st0)
                                   else []) (body s c)
                            else []) -> exists w, s = w ++ fst st).
    { destruct (hi_allows hi); [|contradiction].
      rewrite in_flat_map. intros [st0 [H0 H1]].
      destruct (length (fst st0) <? length s); [|contradiction].
      apply Hb in H0. destruct H0 as [w0 E0].
      apply IH in H1. destruct H1 as [w1 E1].
      exists (w0 ++ w1). rewrite <- app_assoc, <- E1. exact E0. }
    destruct g; apply in_app_or in Hin; destruct Hin; auto.
Qed.

Lemma matches_suffix r : suffix_closed (matches r).
Proof.
  induction r as [|cs|r1 IH1 r2 IH2|r1 IH1 r2 IH2|lo hi g r1 IH1|i r1 IH1];
    intros s c st Hin; simpl in Hin.
  - destruct Hin as [<-|[]]. exists []. reflexivity.
  - destruct s as [|a s']; [contradiction|].
    destruct (charset_mem cs a); [|contradiction].
    destruct Hin as [<-|[]]. exists [a]. reflexivity.
  - rewrite in_flat_map in Hin. destruct Hin as [st1 [H1 H2]].
    apply IH1 in H1. destruct H1 as [w1 E1].
    apply IH2 in H2. destruct H2 as [w2 E2].
    exists (w1 ++ w2). rewrite <- app_assoc, <- E2. exact E1.
  - apply in_app_or in Hin. destruct Hin as [H|H]; [apply IH1 in H|apply IH2 in H]; exact H.
  - eapply rep_suffix; eauto.
  - rewrite in_map_iff in Hin. destruct Hin as [st1 [E H1]]. subst st. simpl.
    apply IH1 in H1. exact H1.
Qed.

Lemma matches_length r s c st :
  In st (matches r s c) -> length (fst st) <= length s.
Proof.
  intros H. apply matches_suffix in H. destruct H as [w E].
  rewrite E, length_app. lia.
Qed.

Lemma consumed_app (w rest : text) : consumed (w ++ rest) rest = w.
Proof.
  unfold consumed. rewrite length_app.
  replace (length w + length rest - length rest) with (length w) by lia.
  rewrite firstn_app, firstn_all, Nat.sub_diag. simpl. apply app_nil_r.
Qed.

Lemma match_here_in r b s st :
  match_here r b s = Some st -> In st (matches r s []).
Proof.
  unfold match_here. intros H.
  destruct (filter _ (matches r s [])) as [|x l] eqn:E; [discriminate|].
  simpl in H. injection H as <-.
  assert (Hin : In x (x :: l)) by (left; reflexivity).
  rewrite <- E in Hin. apply filter_In in Hin. tauto.
Qed.

Lemma match_here_split r b s st :
  match_here r b s = Some st -> s = consumed s (fst st) ++ fst st.
Proof.
  intros H. apply match_here_in, matches_suffix in H. destruct H as [w E].
  rewrite E at 1 2. rewrite consumed_app. reflexivity.
Qed.

Lemma consuming_seq_chr cs r : consuming (Seq (Chr cs) r).
Proof.
  intros s c st Hin. simpl in Hin. rewrite in_flat_map in Hin.
  destruct Hin as [st1 [H1 H2]].
  destruct s as [|a s']; [contradiction|].
  destruct (charset_mem cs a); [|contradiction].
  destruct H1 as [<-|[]]. simpl in H2.
  apply matches_length in H2. simpl. lia.
Qed.

(** ** The scan *)

Lemma scan_from_inside r (w rest : text) :
  scan_from r (length w) (w ++ rest) = scan_from r 0 rest.
Proof.
  induction w as [|a w IH]; simpl; [reflexivity|exact IH].
Qed.

Lemma scan_nil r : consuming r -> scan r [] = [].
Proof.
  intros Hc. unfold scan. simpl.
  destruct (match_here r false []) as [st|] eqn:E; [|reflexivity].
  apply match_here_in, Hc in E. simpl in E. lia.
Qed.

Lemma scan_pass r a s :
  match_here r false (a :: s) = None -> scan r (a :: s) = Skipped a :: scan r s.
Proof. intros H. unfold scan. simpl. rewrite H. reflexivity. Qed.

(** Behind a match the scan resumes at what the match left. *)
Lemma scan_hit r s st :
  consuming r ->
  match_here r false s = Some st ->
  scan r s = Hit (consumed s (fst st)) (snd st) :: scan r (fst st).
Proof.
  intros Hc H. pose proof (match_here_in _ _ _ _ H) as Hin.
  pose proof (Hc _ _ _ Hin) as Hlt.
  pose proof (match_here_split _ _ _ _ H) as Hs.
  unfold scan. destruct s as [|a s']; [simpl in Hlt; lia|].
  simpl scan_from. rewrite H.
  assert (Ht : taken (a :: s') st = length (consumed (a :: s') (fst st))).
  { unfold taken, consumed. rewrite length_firstn. simpl length. lia. }
  destruct (taken (a :: s') st =? 0) eqn:E0.
  - apply Nat.eqb_eq in E0. unfold taken in E0. lia.
  - unfold hit_of. f_equal.
    destruct (consumed (a :: s') (fst st)) as [|b w] eqn:Ec.
    + simpl in Ht. rewrite Ht in E0. discriminate.
    + rewrite Ht. simpl pred. simpl in Hs. injection Hs as _ Hs.
      rewrite Hs at 1. apply scan_from_inside.
Qed.

End ReFacts.

(** ** The patterns are the ones of the source *)

Lemma task_pattern_compiles : compile task_pattern = Parsed (task_regex, 4).
Proof. vm_compute. reflexivity. Qed.

Lemma checklist_pattern_compiles : compile checklist_pattern = Parsed (checklist_regex, 2).
Proof. vm_compute. reflexivity. Qed.

(** ** Checklist counters *)


Lemma text_eqb_eq a b : text_eqb a b = true <-> a = b.
Proof.
  unfold text_eqb. destruct (list_eq_dec ascii_dec a b); split; congruence.
Qed.


Lemma count_items_spec items : forall d t,
  count_items items d t =
  (d + length (filter (fun i => is_done (marker i)) items),
   t + length (filter (fun i => negb (is_done (marker i))) items)).
Proof.
  induction items as [|item items IH]; intros d t; simpl.
  - f_equal; lia.
  - fold (marker item). destruct (is_done (marker item)); simpl; rewrite IH; f_equal; lia.
Qed.

Lemma filter_split_length {A} (p : A -> bool) (l : list A) :
  length l = length (filter p l) + length (filter (fun x => negb (p x)) l).
Proof.
  induction l as [|a l IH]; simpl; [reflexivity|].
  destruct (p a); simpl; lia.
Qed.

Lemma stats_add_up (content : text) :
  total (checklist_stats content) =
  completed_items (checklist_stats content) + incomplete_items (checklist_stats content).
Proof.
  unfold checklist_stats. rewrite count_items_spec. simpl.
  apply filter_split_length.
Qed.

(** C7: for every content of a checklist file, the counters computed for it
    satisfy total = completed + incomplete. *)
Theorem checklist_counts_add_up (content : text) :
  total (checklist_stats content) =
  completed_items (checklist_stats content) + incomplete_items (checklist_stats content).
Proof. exact (stats_add_up content). Qed.

(** The same for every row that the scan of the checklist directory
    produces. *)
Lemma scan_checklists_rows l : forall s rows s',
  scan_checklists l s = (Ok rows, s') ->
  Forall (fun row : text * stats =>
            total (snd row) = completed_items (snd row) + incomplete_items (snd row)) rows.
Proof.
  induction l as [|[name n] l IH]; intros s rows s' H.
  - injection H as <- _. constructor.
  - simpl in H. unfold mbind in H.
    destruct n as [|c|]; try discriminate.
    unfold ret in H at 1.
    destruct (scan_checklists l s) as [[rest| |] s1] eqn:E; try discriminate.
    injection H as <- _. constructor.
    + apply stats_add_up.
    + eapply IH; eauto.
Qed.



(** ** Executing the tasks *)

Lemma mbind_ok {A B} (m : M A) (f : A -> M B) s a s' :
  m s = (Ok a, s') -> mbind m f s = f a s'.
Proof. intros H. unfold mbind. rewrite H. reflexivity. Qed.

Lemma with_run_same s : with_run s (store s) (stdout s) = s.
Proof. destruct s; reflexivity. Qed.

Lemma update_at_length {A} (f : A -> A) a (h : list A) :
  length (update_at f a h) = length h.
Proof.
  revert a. induction h as [|x h IH]; intros [|a]; simpl; auto.
Qed.

Lemma marks_length l : forall h, length (marks l h) = length h.
Proof.
  unfold marks. induction l as [|a l IH]; intros h; simpl; [reflexivity|].
  rewrite IH. apply update_at_length.
Qed.

Lemma marks_app l1 l2 h : marks (l1 ++ l2) h = marks l2 (marks l1 h).
Proof. unfold marks. apply fold_left_app. Qed.

Lemma task_at_update f a h b :
  task_at (update_at f a h) b =
  if (a =? b) && (b <? length h) then f (task_at h b) else task_at h b.
Proof.
  unfold task_at. revert a b. induction h as [|x h IH]; intros a b.
  - simpl. rewrite andb_false_r. destruct a; reflexivity.
  - destruct a as [|a], b as [|b]; simpl; try reflexivity.
    rewrite IH. reflexivity.
Qed.

Lemma nth_error_task_at h a : a < length h -> nth_error h a = Some (task_at h a).
Proof. intros H. unfold task_at. apply nth_error_nth'. exact H. Qed.

(** Marking changes nothing but the [completed] entry. *)
Lemma task_at_mark_static {B} (f : task -> B) :
  (forall t, f (mark_completed t) = f t) ->
  forall a h b, f (task_at (update_at mark_completed a h) b) = f (task_at h b).
Proof.
  intros Hf a h b. rewrite task_at_update.
  destruct ((a =? b) && (b <? length h)); [apply Hf|reflexivity].
Qed.

Lemma task_at_marks_static {B} (f : task -> B) :
  (forall t, f (mark_completed t) = f t) ->
  forall l h b, f (task_at (marks l h) b) = f (task_at h b).
Proof.
  intros Hf l. unfold marks. induction l as [|a l IH]; intros h b; simpl; [reflexivity|].
  rewrite IH. apply task_at_mark_static. exact Hf.
Qed.

Lemma phase_of_mark t : phase_of (mark_completed t) = phase_of t.
Proof. reflexivity. Qed.

Lemma task_events_mark t : task_events (mark_completed t) = task_events t.
Proof. reflexivity. Qed.

Lemma deref_ok a s :
  a < length (store s) -> deref a s = (Ok (task_at (store s) a), s).
Proof.
  intros H. unfold deref, mbind, get. rewrite (nth_error_task_at _ _ H). reflexivity.
Qed.

Lemma exec_single a s :
  a < length (store s) ->
  _execute_single_task a s =
  (Ok tt, with_run s (update_at mark_completed a (store s))
                     (stdout s ++ task_events (task_at (store s) a))).
Proof.
  intros H. unfold _execute_single_task.
  rewrite (mbind_ok _ _ _ _ _ (deref_ok _ _ H)).
  unfold print, set_completed, modify, mbind at 1 2. simpl.
  erewrite mbind_ok.
  2:{ apply deref_ok. simpl. rewrite update_at_length. exact H. }
  simpl. unfold with_run. simpl.
  rewrite task_at_update, Nat.eqb_refl.
  apply Nat.ltb_lt in H. rewrite H. simpl.
  rewrite <- app_assoc. reflexivity.
Qed.

Lemma exec_each l : forall s,
  valid (store s) l ->
  for_each l _execute_single_task s =
  (Ok tt, with_run s (marks l (store s))
                     (stdout s ++ flat_map (fun a => task_events (task_at (store s) a)) l)).
Proof.
  induction l as [|a l IH]; intros s Hv.
  - simpl. unfold ret. rewrite app_nil_r, with_run_same. reflexivity.
  - inversion Hv as [|? ? Ha Hl]; subst. simpl for_each.
    rewrite (mbind_ok _ _ _ _ _ (exec_single _ _ Ha)).
    rewrite IH.
    2:{ simpl. unfold valid. rewrite update_at_length. exact Hl. }
    simpl. unfold with_run. simpl. f_equal. f_equal.
    rewrite <- app_assoc. f_equal. simpl. do 2 f_equal.
    apply flat_map_ext. intros b.
    apply (task_at_mark_static task_events task_events_mark).
Qed.

Lemma select_deref (f : task -> bool) l : forall s,
  valid (store s) l ->
  select (fun a => t <- deref a ;; ret (f t)) l s =
  (Ok (filter (fun a => f (task_at (store s) a)) l), s).
Proof.
  induction l as [|a l IH]; intros s Hv; [reflexivity|].
  inversion Hv as [|? ? Ha Hl]; subst. simpl select.
  assert (Hd : (t <- deref a ;; ret (f t)) s = (Ok (f (task_at (store s) a)), s)).
  { rewrite (mbind_ok _ _ _ _ _ (deref_ok _ _ Ha)). reflexivity. }
  rewrite (mbind_ok _ _ _ _ _ Hd).
  rewrite (mbind_ok _ _ _ _ _ (IH _ Hl)). unfold ret. simpl.
  destruct (f (task_at (store s) a)); reflexivity.
Qed.

Lemma valid_filter h (p : addr -> bool) l : valid h l -> valid h (filter p l).
Proof.
  unfold valid. rewrite !Forall_forall. intros H a Ha.
  apply filter_In in Ha. apply H. tauto.
Qed.

Lemma exec_phase g s :
  valid (store s) g ->
  _execute_phase_tasks g s =
  (Ok tt, with_run s (marks (parallel_first (fun a => is_parallel (task_at (store s) a)) g)
                            (store s))
                     (stdout s ++ phase_events (store s) g)).
Proof.
  intros Hv. unfold _execute_phase_tasks.
  rewrite (mbind_ok _ _ _ _ _ (select_deref is_parallel _ _ Hv)).
  rewrite (mbind_ok _ _ _ _ _ (select_deref (fun t => negb (is_parallel t)) _ _ Hv)).
  set (par := fun a => is_parallel (task_at (store s) a)).
  unfold print at 1. unfold modify, mbind at 1.
  rewrite (mbind_ok _ _ _ _ _ (exec_each _ (set_stdout _ s) (valid_filter _ _ _ Hv))).
  unfold print at 1. unfold modify, mbind at 1.
  rewrite exec_each.
  2:{ simpl. unfold valid. rewrite marks_length. apply (valid_filter _ _ _ Hv). }
  simpl. unfold with_run, parallel_first, phase_events. simpl.
  rewrite marks_app. f_equal. f_equal.
  fold par. rewrite <- !app_assoc. simpl. f_equal. f_equal. f_equal. f_equal.
  apply flat_map_ext. intros b.
  apply (task_at_marks_static task_events task_events_mark).
Qed.

Lemma flush_ok cur g s :
  valid (store s) g ->
  flush_phase cur g s =
  (Ok tt, with_run s (marks (group_order (store s) (cur, g)) (store s))
                     (stdout s ++ flush_events (store s) (cur, g))).
Proof.
  intros Hv. destruct g as [|a g].
  - simpl. unfold ret, flush_events. simpl. rewrite app_nil_r, with_run_same. reflexivity.
  - unfold flush_phase. unfold print at 1. unfold modify, mbind at 1.
    rewrite exec_phase; [|exact Hv].
    unfold flush_events, group_order, with_run. simpl snd. simpl fst. cbn [store stdout set_stdout self files stdin found_dir prereq git].
    rewrite <- app_assoc. reflexivity.
Qed.

Lemma closed_groups_ext p q l : (forall a, p a = q a) ->
  forall cur acc, closed_groups p l cur acc = closed_groups q l cur acc.
Proof.
  intros E. induction l as [|a l IH]; intros cur acc; simpl; [reflexivity|].
  rewrite E, !IH. reflexivity.
Qed.

Lemma final_group_ext p q l : (forall a, p a = q a) ->
  forall cur acc, final_group p l cur acc = final_group q l cur acc.
Proof.
  intros E. induction l as [|a l IH]; intros cur acc; simpl; [reflexivity|].
  rewrite E, !IH. reflexivity.
Qed.

Lemma phase_at_marks l h a : phase_at (marks l h) a = phase_at h a.
Proof. apply (task_at_marks_static phase_of phase_of_mark). Qed.

Lemma par_at_marks l h a : par_at (marks l h) a = par_at h a.
Proof. apply (task_at_marks_static is_parallel). reflexivity. Qed.

Lemma phase_events_marks l h g : phase_events (marks l h) g = phase_events h g.
Proof.
  unfold phase_events.
  assert (Ep : forall a, is_parallel (task_at (marks l h) a) = is_parallel (task_at h a)).
  { intros a. apply (par_at_marks l h a). }
  assert (En : forall a, negb (is_parallel (task_at (marks l h) a))
                         = negb (is_parallel (task_at h a))).
  { intros a. rewrite Ep. reflexivity. }
  assert (Ee : forall a, task_events (task_at (marks l h) a) = task_events (task_at h a)).
  { intros a. apply (task_at_marks_static task_events task_events_mark). }
  rewrite (filter_ext _ _ Ep), (filter_ext _ _ En).
  rewrite !(flat_map_ext _ _ Ee). reflexivity.
Qed.

Lemma flush_events_marks l h g : flush_events (marks l h) g = flush_events h g.
Proof. unfold flush_events. rewrite phase_events_marks. reflexivity. Qed.

Lemma group_order_marks l h g : group_order (marks l h) g = group_order h g.
Proof.
  unfold group_order, parallel_first.
  rewrite (filter_ext _ _ (par_at_marks l h)).
  rewrite (filter_ext (fun a => negb (par_at (marks l h) a)) (fun a => negb (par_at h a))).
  - reflexivity.
  - intros a. rewrite par_at_marks. reflexivity.
Qed.

Lemma valid_app h l1 l2 : valid h l1 -> valid h l2 -> valid h (l1 ++ l2).
Proof. unfold valid. intros H1 H2. apply Forall_app. split; assumption. Qed.

Lemma valid_marks l h g : valid h g -> valid (marks l h) g.
Proof. unfold valid. rewrite marks_length. exact (fun H => H). Qed.

Lemma group_loop_ok l : forall s cur acc,
  valid (store s) l -> valid (store s) acc ->
  group_loop l cur acc s =
  (Ok (final_group (phase_at (store s)) l cur acc),
   with_run s (marks (flat_map (group_order (store s))
                               (closed_groups (phase_at (store s)) l cur acc))
                     (store s))
              (stdout s ++ flat_map (flush_events (store s))
                                    (closed_groups (phase_at (store s)) l cur acc))).
Proof.
  induction l as [|a l IH]; intros s cur acc Hl Hacc.
  - simpl. unfold ret. rewrite app_nil_r. unfold marks. simpl. rewrite with_run_same.
    reflexivity.
  - inversion Hl as [|? ? Ha Hl']; subst. simpl group_loop.
    rewrite (mbind_ok _ _ _ _ _ (deref_ok _ _ Ha)).
    simpl closed_groups. simpl final_group. fold (phase_at (store s) a).
    destruct (negb (text_eqb (phase_at (store s) a) cur)).
    + rewrite (mbind_ok _ _ _ _ _ (flush_ok cur acc s Hacc)).
      set (h := store s). set (X := group_order h (cur, acc)).
      rewrite IH; cbn [store with_run].
      2:{ apply valid_marks. exact Hl'. }
      2:{ apply valid_marks. constructor; [exact Ha|constructor]. }
      rewrite (closed_groups_ext _ _ l (phase_at_marks X h)).
      rewrite (final_group_ext _ _ l (phase_at_marks X h)).
      unfold with_run. cbn [self files stdin found_dir prereq git stdout].
      f_equal. f_equal.
      * simpl flat_map. rewrite marks_app. fold X. f_equal.
        apply flat_map_ext. intros g. apply group_order_marks.
      * simpl flat_map. rewrite <- app_assoc. f_equal. f_equal.
        apply flat_map_ext. intros g. apply flush_events_marks.
    + apply IH; [exact Hl'|]. apply valid_app; [exact Hacc|].
      constructor; [exact Ha|constructor].
Qed.

Lemma final_group_valid h l : forall cur acc,
  valid h l -> valid h acc -> valid h (snd (final_group (phase_at h) l cur acc)).
Proof.
  induction l as [|a l IH]; intros cur acc Hl Hacc; simpl; [exact Hacc|].
  inversion Hl; subst.
  destruct (negb (text_eqb (phase_at h a) cur)); apply IH; auto.
  - constructor; [assumption|constructor].
  - apply valid_app; [assumption|]. constructor; [assumption|constructor].
Qed.

(** What [execute_implementation] does to the store and prints. *)
Lemma execute_ok l s :
  valid (store s) l ->
  execute_implementation l s =
  (Ok tt,
   with_run s (marks (flat_map (group_order (store s)) (all_groups (phase_at (store s)) l))
                     (store s))
              (stdout s ++ [EvExecStart]
               ++ flat_map (flush_events (store s)) (all_groups (phase_at (store s)) l)
               ++ [EvExecDone])).
Proof.
  intros Hl. unfold execute_implementation, all_groups.
  generalize (txt "unknown"). intros u.
  unfold print at 1. unfold modify, mbind at 1.
  rewrite (mbind_ok _ _ _ _ _ (group_loop_ok l (set_stdout _ s) u [] Hl (Forall_nil _))).
  cbn [store set_stdout stdout].
  set (h := store s). set (cl := closed_groups (phase_at h) l u []).
  set (fin := final_group (phase_at h) l u []).
  assert (Hfin : valid h (snd fin)).
  { apply final_group_valid; [exact Hl|constructor]. }
  match goal with
  | |- mbind _ _ ?st = _ =>
      assert (Hv' : valid (store st) (snd fin))
        by (cbn [store with_run]; apply valid_marks; exact Hfin);
      rewrite (mbind_ok _ _ _ _ _ (flush_ok (fst fin) (snd fin) st Hv'))
  end.
  unfold print, modify.
  cbn [store with_run stdout set_stdout self files stdin found_dir prereq git].
  rewrite <- surjective_pairing.
  rewrite !flat_map_app. simpl flat_map. rewrite !app_nil_r.
  rewrite marks_app, group_order_marks, flush_events_marks.
  unfold with_run. cbn [self files stdin found_dir prereq git].
  f_equal. f_equal. rewrite <- !app_assoc. reflexivity.
Qed.

(** ** Runs and phases *)

Lemma flat_map_ext_on {A B} (f g : A -> list B) (l : list A) :
  (forall x, In x l -> f x = g x) -> flat_map f l = flat_map g l.
Proof.
  induction l as [|a l IH]; intros H; [reflexivity|]. simpl.
  rewrite (H a) by (left; reflexivity). rewrite IH; [reflexivity|].
  intros x Hx. apply H. right. exact Hx.
Qed.

Section Runs.

Context {A : Type} (phase : A -> text).

Lemma text_eqb_refl (a : text) : text_eqb a a = true.
Proof. apply text_eqb_eq. reflexivity. Qed.

Lemma text_eqb_neq (a b : text) : text_eqb a b = false <-> a <> b.
Proof.
  unfold text_eqb. destruct (list_eq_dec ascii_dec a b); split; congruence.
Qed.

Lemma runs_cons_head a l : exists g gs, runs phase (a :: l) = (a :: g) :: gs.
Proof.
  simpl. destruct (runs phase l) as [|[|b g] gs]; eauto.
  destruct (text_eqb (phase a) (phase b)); eauto.
Qed.

Lemma runs_uniform p g : uniform phase p g -> g <> [] -> runs phase g = [g].
Proof.
  induction g as [|a g IH]; intros Hu Hne; [congruence|].
  inversion Hu as [|? ? Ha Hg]; subst. simpl.
  destruct g as [|b g]; [reflexivity|].
  rewrite (IH Hg) by discriminate.
  inversion Hg; subst. replace (phase b) with (phase a) by congruence.
  rewrite text_eqb_refl. reflexivity.
Qed.

Lemma runs_app_break p acc a l :
  uniform phase p acc -> phase a <> p ->
  runs phase (acc ++ a :: l) =
  match acc with [] => [] | _ => [acc] end ++ runs phase (a :: l).
Proof.
  intros Hu Hne. destruct (runs_cons_head a l) as [g [gs E]].
  remember (runs phase (a :: l)) as R eqn:ER.
  induction acc as [|b acc IH]; [cbn [app]; rewrite ER; reflexivity|].
  inversion Hu as [|? ? Hb Hacc]; subst p.
  change ((b :: acc) ++ a :: l) with (b :: (acc ++ a :: l)).
  cbn [runs]. rewrite (IH Hacc). rewrite E.
  destruct acc as [|c acc].
  - cbn [app]. destruct (text_eqb (phase b) (phase a)) eqn:Eb; [|reflexivity].
    apply text_eqb_eq in Eb. congruence.
  - cbn [app]. inversion Hacc as [|? ? Hc ?]; subst. rewrite Hc.
    rewrite text_eqb_refl. reflexivity.
Qed.

Lemma runs_groups l :
  Forall (fun g => g <> [] /\ uniform phase (group_phase phase g) g) (runs phase l).
Proof.
  induction l as [|a l IH]; [constructor|]. simpl.
  destruct (runs phase l) as [|[|b g] gs].
  - constructor; [|constructor]. split; [discriminate|]. constructor; [reflexivity|constructor].
  - inversion IH as [|? ? [Hne _] _]; subst. congruence.
  - inversion IH as [|? ? [_ Hg] Hgs]; subst.
    destruct (text_eqb (phase a) (phase b)) eqn:E.
    + apply text_eqb_eq in E. constructor; [|exact Hgs].
      split; [discriminate|]. simpl in *. constructor; [reflexivity|].
      rewrite E. exact Hg.
    + constructor; [|exact IH]. split; [discriminate|].
      constructor; [reflexivity|constructor].
Qed.

Lemma concat_runs l : concat (runs phase l) = l.
Proof.
  induction l as [|a l IH]; [reflexivity|]. simpl.
  pose proof (runs_groups l) as Hg.
  destruct (runs phase l) as [|[|b g] gs].
  - simpl in *. subst. reflexivity.
  - inversion Hg as [|? ? [Hne _] _]; subst. congruence.
  - destruct (text_eqb (phase a) (phase b)); simpl in *; rewrite <- IH; reflexivity.
Qed.

Lemma keep_out_comm p q l : keep_out p (keep_out q l) = keep_out q (keep_out p l).
Proof.
  unfold keep_out. induction l as [|x l IH]; [reflexivity|]. simpl.
  destruct (text_eqb x q) eqn:Eq, (text_eqb x p) eqn:Ep; simpl;
    rewrite ?Eq, ?Ep; simpl; rewrite ?IH; reflexivity.
Qed.

Lemma keep_out_idem p l : keep_out p (keep_out p l) = keep_out p l.
Proof.
  unfold keep_out. induction l as [|x l IH]; [reflexivity|]. simpl.
  destruct (text_eqb x p) eqn:Ep; simpl; rewrite ?Ep; simpl; rewrite ?IH; reflexivity.
Qed.

Lemma first_seen_keep_out p l : keep_out p (first_seen l) = first_seen (keep_out p l).
Proof.
  induction l as [|x l IH]; [reflexivity|].
  cbn [first_seen]. fold (keep_out x (first_seen l)).
  unfold keep_out at 1 3. cbn [filter]. fold (keep_out p (keep_out x (first_seen l))).
  fold (keep_out p l).
  destruct (text_eqb x p) eqn:Ep; simpl negb; cbv iota.
  - apply text_eqb_eq in Ep. subst x. rewrite keep_out_idem. exact IH.
  - cbn [first_seen]. fold (keep_out x (first_seen (keep_out p l))).
    rewrite keep_out_comm, IH. reflexivity.
Qed.

Lemma keep_out_none p l : ~ In p l -> keep_out p l = l.
Proof.
  unfold keep_out. induction l as [|x l IH]; intros Hn; [reflexivity|]. simpl.
  destruct (text_eqb x p) eqn:E.
  - apply text_eqb_eq in E. subst. exfalso. apply Hn. left. reflexivity.
  - simpl. rewrite IH; [reflexivity|]. intros H. apply Hn. right. exact H.
Qed.

Lemma keep_out_uniform p g l :
  uniform phase p g -> keep_out p (map phase (g ++ l)) = keep_out p (map phase l).
Proof.
  intros Hu. induction Hu as [|a g Ha Hg IH]; [reflexivity|]. simpl.
  unfold keep_out in *. simpl. rewrite Ha, text_eqb_refl. simpl. exact IH.
Qed.

Lemma filter_phase_uniform p g l :
  uniform phase p g -> ~ In p (map phase l) ->
  filter (fun a => text_eqb (phase a) p) (g ++ l) = g.
Proof.
  intros Hu Hn. rewrite filter_app.
  assert (E1 : filter (fun a => text_eqb (phase a) p) g = g).
  { induction Hu as [|a g Ha Hg IH]; [reflexivity|]. simpl.
    rewrite Ha, text_eqb_refl, IH. reflexivity. }
  assert (E2 : filter (fun a => text_eqb (phase a) p) l = []).
  { clear Hu E1. induction l as [|a l IH]; [reflexivity|]. simpl.
    destruct (text_eqb (phase a) p) eqn:E.
    - apply text_eqb_eq in E. exfalso. apply Hn. left. exact E.
    - apply IH. intros H. apply Hn. right. exact H. }
  rewrite E1, E2. apply app_nil_r.
Qed.

Lemma filter_phase_other p q g l :
  uniform phase p g -> q <> p ->
  filter (fun a => text_eqb (phase a) q) (g ++ l) =
  filter (fun a => text_eqb (phase a) q) l.
Proof.
  intros Hu Hne. rewrite filter_app.
  assert (E1 : filter (fun a => text_eqb (phase a) q) g = []).
  { induction Hu as [|a g Ha Hg IH]; [reflexivity|]. simpl.
    destruct (text_eqb (phase a) q) eqn:E; [|exact IH].
    apply text_eqb_eq in E. congruence. }
  rewrite E1. reflexivity.
Qed.

Lemma phases_of_concat gs :
  Forall (fun g => g <> [] /\ uniform phase (group_phase phase g) g) gs ->
  forall p, In p (map phase (concat gs)) -> In p (map (group_phase phase) gs).
Proof.
  intros Hgs p. induction Hgs as [|g gs [_ Hu] _ IH]; [intros []|].
  simpl. rewrite map_app, in_app_iff. intros [H|H]; [left|right; auto].
  apply in_map_iff in H. destruct H as [a [<- Ha]].
  unfold uniform in Hu. rewrite Forall_forall in Hu. symmetry. apply Hu. exact Ha.
Qed.

(** When no two groups share a phase, taking the phases in order of first
    appearance and collecting the tasks of each gives the groups back. *)
Lemma by_phase_of_groups {B} (F : list A -> list B) gs :
  Forall (fun g => g <> [] /\ uniform phase (group_phase phase g) g) gs ->
  NoDup (map (group_phase phase) gs) ->
  first_seen (map phase (concat gs)) = map (group_phase phase) gs /\
  flat_map (fun p => F (filter (fun a => text_eqb (phase a) p) (concat gs)))
           (map (group_phase phase) gs)
  = flat_map F gs.
Proof.
  intros Hgs. induction Hgs as [|g gs [Hne Hu] Hgs IH]; intros Hnd; [split; reflexivity|].
  inversion Hnd as [|? ? Hnotin Hnd']; subst.
  destruct (IH Hnd') as [IH1 IH2]. clear IH.
  set (p := group_phase phase g) in *.
  assert (Hp : ~ In p (map phase (concat gs))).
  { intros H. apply Hnotin. apply phases_of_concat; assumption. }
  split.
  - cbn [concat map]. destruct g as [|a g]; [congruence|].
    cbn [app map first_seen]. inversion Hu as [|? ? Ha Hg]; subst.
    fold (keep_out (phase a) (first_seen (map phase (g ++ concat gs)))).
    rewrite first_seen_keep_out. simpl in p. subst p.
    rewrite (keep_out_uniform _ _ _ Hg), keep_out_none by exact Hp.
    rewrite IH1. reflexivity.
  - cbn [concat map flat_map]. f_equal.
    + rewrite filter_phase_uniform by assumption. reflexivity.
    + rewrite <- IH2. apply flat_map_ext_on. intros q Hq.
      rewrite filter_phase_other with (p := p); [reflexivity|exact Hu|].
      intros ->. apply Hnotin. exact Hq.
Qed.

(** C5, second half of the amended statement: when every phase occupies one
    stretch of the list, the order by runs is the order by phase. *)
Lemma order_by_run_contiguous (par : A -> bool) l :
  contiguous phase l ->
  order_by_run phase par l = order_by_phase phase par l.
Proof.
  intros Hc. unfold order_by_run, order_by_phase.
  destruct (by_phase_of_groups (parallel_first par) (runs phase l) (runs_groups l) Hc)
    as [E1 E2].
  rewrite concat_runs in E1, E2. rewrite E1, E2. reflexivity.
Qed.

End Runs.

(** ** The groups of the loop are the runs *)

Lemma flat_map_nonempty {A B} (F : list A -> list B) gs :
  F [] = [] -> flat_map F (filter nonempty gs) = flat_map F gs.
Proof.
  intros HF. induction gs as [|g gs IH]; [reflexivity|].
  destruct g; simpl; rewrite IH; [rewrite HF|]; reflexivity.
Qed.

Lemma groups_are_runs (phase : addr -> text) l : forall cur acc,
  uniform phase cur acc ->
  filter nonempty (map snd (closed_groups phase l cur acc ++ [final_group phase l cur acc]))
  = runs phase (acc ++ l).
Proof.
  induction l as [|a l IH]; intros cur acc Hu.
  - simpl. rewrite app_nil_r. destruct acc as [|b acc]; [reflexivity|].
    simpl nonempty. cbv iota. symmetry. apply (runs_uniform phase cur); [exact Hu|discriminate].
  - cbn [closed_groups final_group].
    destruct (text_eqb (phase a) cur) eqn:E; cbn [negb]; cbv iota.
    + apply text_eqb_eq in E.
      rewrite (IH cur (acc ++ [a])).
      * rewrite <- app_assoc. reflexivity.
      * apply Forall_app. split; [exact Hu|]. constructor; [exact E|constructor].
    + apply text_eqb_neq in E.
      cbn [app map snd filter].
      rewrite (IH (phase a) [a]) by (constructor; [reflexivity|constructor]).
      rewrite (runs_app_break phase cur acc a l Hu E).
      destruct acc; reflexivity.
Qed.

Lemma flat_map_of_map {A B C} (g : A -> B) (F : B -> list C) (l : list A) :
  flat_map F (map g l) = flat_map (fun x => F (g x)) l.
Proof.
  induction l as [|a l IH]; [reflexivity|]. simpl. rewrite IH. reflexivity.
Qed.

Lemma parallel_first_nil {A} (par : A -> bool) : parallel_first par [] = [].
Proof. reflexivity. Qed.

Lemma group_order_runs h l :
  flat_map (group_order h) (all_groups (phase_at h) l)
  = order_by_run (phase_at h) (par_at h) l.
Proof.
  unfold order_by_run, all_groups.
  pose proof (groups_are_runs (phase_at h) l (txt "unknown") [] (Forall_nil _)) as E.
  cbn [app] in E. rewrite <- E.
  rewrite (flat_map_nonempty _ _ (parallel_first_nil (par_at h))).
  rewrite flat_map_of_map. reflexivity.
Qed.

Section Naturality.

Context {A B : Type} (f : A -> B) (phase : B -> text) (par : B -> bool).

Lemma runs_map l :
  map (map f) (runs (fun a => phase (f a)) l) = runs phase (map f l).
Proof.
  induction l as [|a l IH]; [reflexivity|]. cbn [runs map]. rewrite <- IH.
  destruct (runs (fun a0 => phase (f a0)) l) as [|[|b g] gs]; try reflexivity.
  cbn [map]. destruct (text_eqb (phase (f a)) (phase (f b))); reflexivity.
Qed.

Lemma filter_map_comm (p : B -> bool) l :
  map f (filter (fun a => p (f a)) l) = filter p (map f l).
Proof.
  induction l as [|a l IH]; [reflexivity|]. simpl.
  destruct (p (f a)); simpl; rewrite IH; reflexivity.
Qed.

Lemma parallel_first_map g :
  map f (parallel_first (fun a => par (f a)) g) = parallel_first par (map f g).
Proof.
  unfold parallel_first. rewrite map_app.
  rewrite (filter_map_comm par), (filter_map_comm (fun b => negb (par b))). reflexivity.
Qed.

Lemma order_by_run_map l :
  map f (order_by_run (fun a => phase (f a)) (fun a => par (f a)) l)
  = order_by_run phase par (map f l).
Proof.
  unfold order_by_run. rewrite <- runs_map.
  rewrite !flat_map_concat_map, concat_map, !map_map.
  f_equal. apply map_ext. intros g. apply parallel_first_map.
Qed.

End Naturality.

Lemma started_app e1 e2 : started (e1 ++ e2) = started e1 ++ started e2.
Proof. unfold started. apply flat_map_app. Qed.

Lemma started_tasks h l :
  started (flat_map (fun a => task_events (task_at h a)) l) = map (fun a => ident (task_at h a)) l.
Proof.
  induction l as [|a l IH]; [reflexivity|]. simpl. f_equal. exact IH.
Qed.

Lemma started_flush h g :
  started (flush_events h g) = map (fun a => ident (task_at h a)) (group_order h g).
Proof.
  unfold flush_events, group_order. destruct g as [c [|a g]]; [reflexivity|].
  cbn [snd fst]. unfold phase_events, parallel_first.
  change (EvPhaseDone c :: ?x) with ([EvPhaseDone c] ++ x).
  rewrite !started_app, !started_tasks, map_app. reflexivity.
Qed.

Lemma started_groups h gs :
  started (flat_map (flush_events h) gs)
  = map (fun a => ident (task_at h a)) (flat_map (group_order h) gs).
Proof.
  induction gs as [|g gs IH]; [reflexivity|]. simpl.
  rewrite started_app, started_flush, IH, map_app. reflexivity.
Qed.

Lemma in_parallel_first {A} (par : A -> bool) g a : In a (parallel_first par g) <-> In a g.
Proof.
  unfold parallel_first. rewrite in_app_iff, !filter_In.
  destruct (par a); simpl; intuition congruence.
Qed.

Lemma in_order_by_run {A} (phase : A -> text) par l a :
  In a (order_by_run phase par l) <-> In a l.
Proof.
  unfold order_by_run. rewrite in_flat_map.
  transitivity (In a (concat (runs phase l))); [|rewrite concat_runs; reflexivity].
  rewrite in_concat. split.
  - intros [g [Hg Ha]]. exists g. split; [exact Hg|]. apply in_parallel_first in Ha. exact Ha.
  - intros [g [Hg Ha]]. exists g. split; [exact Hg|]. apply in_parallel_first. exact Ha.
Qed.

Lemma marks_keep_completed l : forall h a,
  completed (task_at h a) = true -> completed (task_at (marks l h) a) = true.
Proof.
  unfold marks. induction l as [|x l IH]; intros h a H; simpl; [exact H|].
  apply IH. rewrite task_at_update.
  destruct ((x =? a) && (a <? length h)); [reflexivity|exact H].
Qed.

Lemma marks_completed l : forall h a,
  In a l -> a < length h -> completed (task_at (marks l h) a) = true.
Proof.
  induction l as [|x l IH]; intros h a Hin Ha; [contradiction|].
  change (marks (x :: l) h) with (marks l (update_at mark_completed x h)).
  destruct (Nat.eq_dec x a) as [->|Hne].
  - apply marks_keep_completed. rewrite task_at_update, Nat.eqb_refl.
    apply Nat.ltb_lt in Ha. rewrite Ha. reflexivity.
  - destruct Hin as [E|Hin]; [congruence|].
    apply IH; [exact Hin|]. rewrite update_at_length. exact Ha.
Qed.

(** After [execute_implementation] every task of the list is completed:
    the first half of C4, which the code satisfies. *)
Theorem execute_completes_all (l : list addr) (s : state) :
  valid (store s) l ->
  exists s', execute_implementation l s = (Ok tt, s') /\
             forall a, In a l -> completed (task_at (store s') a) = true.
Proof.
  intros Hv. rewrite (execute_ok l s Hv). eexists. split; [reflexivity|].
  intros a Ha. cbn [store with_run]. rewrite group_order_runs.
  apply marks_completed.
  - apply in_order_by_run. exact Ha.
  - unfold valid in Hv. rewrite Forall_forall in Hv. apply Hv. exact Ha.
Qed.

Lemma execute_completes_all_witness :
  valid (store scenario_store) [0; 1] /\
  exists s', execute_implementation [0; 1] scenario_store = (Ok tt, s') /\
             forall a, In a [0; 1] -> completed (task_at (store s') a) = true.
Proof.
  assert (H : valid (store scenario_store) [0; 1]) by (vm_compute; repeat constructor).
  split; [exact H|]. exact (execute_completes_all [0; 1] scenario_store H).
Defined.

(** C5 (amended): the tasks are executed run by run, a run being a maximal
    stretch of consecutive tasks of the same phase, in file order, and
    within a run the parallel tasks come before the others.  When every
    phase occupies one stretch of the list, this is the order of the
    specification: phase by phase in the order of first appearance, the
    parallel tasks of each phase first. *)
Theorem execution_order (l : list addr) (s : state) :
  valid (store s) l ->
  exists evs h',
    execute_implementation l s = (Ok tt, with_run s h' (stdout s ++ evs)) /\
    started evs
    = map ident (order_by_run phase_of is_parallel (map (task_at (store s)) l)) /\
    (contiguous phase_of (map (task_at (store s)) l) ->
     started evs
     = map ident (order_by_phase phase_of is_parallel (map (task_at (store s)) l))).
Proof.
  intros Hv. rewrite (execute_ok l s Hv). eexists. eexists. split; [reflexivity|].
  assert (E : started ([EvExecStart]
                       ++ flat_map (flush_events (store s)) (all_groups (phase_at (store s)) l)
                       ++ [EvExecDone])
              = map ident (order_by_run phase_of is_parallel (map (task_at (store s)) l))).
  { rewrite !started_app, started_groups, group_order_runs. simpl.
    rewrite app_nil_r.
    rewrite <- (order_by_run_map (task_at (store s)) phase_of is_parallel l).
    rewrite map_map. reflexivity. }
  split; [exact E|].
  intros Hc. rewrite E. rewrite order_by_run_contiguous by exact Hc. reflexivity.
Qed.

Lemma execution_order_witness :
  valid (store interleaved_store) [0; 1; 2] /\
  exists evs h',
    execute_implementation [0; 1; 2] interleaved_store
    = (Ok tt, with_run interleaved_store h' (stdout interleaved_store ++ evs)) /\
    started evs
    = map ident (order_by_run phase_of is_parallel
                   (map (task_at (store interleaved_store)) [0; 1; 2])) /\
    (contiguous phase_of (map (task_at (store interleaved_store)) [0; 1; 2]) ->
     started evs
     = map ident (order_by_phase phase_of is_parallel
                    (map (task_at (store interleaved_store)) [0; 1; 2]))).
Proof.
  assert (H : valid (store interleaved_store) [0; 1; 2]) by (vm_compute; repeat constructor).
  split; [exact H|]. exact (execution_order [0; 1; 2] interleaved_store H).
Defined.

(** C5 as stated fails: with a story task between two setup tasks, the
    parallel setup task T003 is started last, after the sequential setup
    task T001, while the order by phase would start it first. *)
Lemma execution_order_counterexample :
  started (stdout (snd (execute_implementation [0; 1; 2] interleaved_store)))
  = [(txt "T001", txt "Setup database"); (txt "T002", txt "Add login");
     (txt "T003", txt "Setup cache")]
  /\ map ident (order_by_phase phase_of is_parallel (parse_tasks_content interleaved))
     = [(txt "T003", txt "Setup cache"); (txt "T001", txt "Setup database");
        (txt "T002", txt "Add login")].
Proof. split; vm_compute; reflexivity. Qed.

(** ** The end-to-end scenario *)

(** C1 as stated fails: the story of T002 is not "US1", and the rewritten
    file does not hold the line of T002 with its [US1] tag. *)
Lemma scenario_counterexample :
  ~ (parse_tasks_content scenario
     = [ {| id := txt "T001"; description := txt "Setup project"; is_parallel := true;
            story := None; completed := false |};
         {| id := txt "T002"; description := txt "Implement feature"; is_parallel := false;
            story := Some (txt "US1"); completed := false |} ]
     /\ has_line (txt "- [X] T001 [P] Setup project")
                 (file_after demo_args (initial (demo_files (File scenario))) demo_tasks)
     /\ has_line (txt "- [X] T002 [US1] Implement feature")
                 (file_after demo_args (initial (demo_files (File scenario))) demo_tasks)).
Proof.
  intros [H _]. vm_compute in H. discriminate H.
Qed.

(** C1 (amended): parsing the scenario gives exactly two records, T001
    parallel without story and T002 sequential with story "1", the marker
    without its brackets and its "US"; the full run succeeds, and the
    rewritten file holds the line [- [X] T001 [P] Setup project], a checked
    line for T002 that ends with its description, and no unchecked box. *)
Theorem scenario_run :
  parse_tasks_content scenario
  = [ {| id := txt "T001"; description := txt "Setup project"; is_parallel := true;
         story := None; completed := false |};
      {| id := txt "T002"; description := txt "Implement feature"; is_parallel := false;
         story := Some (txt "1"); completed := false |} ]
  /\ fst (main demo_args (initial (demo_files (File scenario)))) = Some 0
  /\ has_line (txt "- [X] T001 [P] Setup project")
              (file_after demo_args (initial (demo_files (File scenario))) demo_tasks)
  /\ (exists tag, has_line (txt "- [X] T002" ++ tag ++ txt " Implement feature")
                    (file_after demo_args (initial (demo_files (File scenario))) demo_tasks))
  /\ (exists new, file_after demo_args (initial (demo_files (File scenario))) demo_tasks
                  = Some new /\ contains (txt "- [ ]") new = false).
Proof.
  split; [vm_compute; reflexivity|].
  split; [vm_compute; reflexivity|].
  split; [vm_compute; tauto|].
  split.
  - exists (txt " [1]"). vm_compute. tauto.
  - eexists. split; vm_compute; reflexivity.
Qed.

(** ** Descriptions that are not plain text to the pattern language *)

(** C4 at the failing input: the run succeeds and the task is completed,
    but its line is still unchecked, the file is written back as it was. *)
Theorem unescaped_description_stays_unchecked :
  fst (main demo_args (initial (demo_files (File oauth_tasks)))) = Some 0
  /\ map completed (store (snd (main demo_args (initial (demo_files (File oauth_tasks))))))
     = [true]
  /\ file_after demo_args (initial (demo_files (File oauth_tasks))) demo_tasks
     = Some oauth_tasks.
Proof. repeat split; vm_compute; reflexivity. Qed.

(** ** The tasks file named on the command line *)

(** Loading the context sets the tasks file to the one of the feature
    directory, whatever it was before. *)
Lemma load_resets_tasks (s s' : state) (r : bool) :
  load_implementation_context s = (Ok r, s') ->
  tasks (self s') = Some (join (or_empty (feature_dir (self s))) (txt "tasks.md")).
Proof.
  unfold load_implementation_context, self_feature_dir.
  unfold mbind at 1. unfold mbind at 1. unfold get at 1. unfold ret at 1.
  destruct (negb (dir_given (feature_dir (self s)))); [discriminate|].
  unfold mbind at 1. unfold modify at 1.
  set (s1 := set_self _ s).
  assert (Hself : forall A (m : M A) a s2,
             (forall t t', m t = (Ok a, t') -> self t' = self t) ->
             m s1 = (Ok a, s2) -> tasks (self s2)
             = Some (join (or_empty (feature_dir (self s))) (txt "tasks.md"))).
  { intros A m a s2 Hm H. rewrite (Hm _ _ H). reflexivity. }
  intros H. eapply (Hself _ _ r s'); [|exact H].
  clear. intros t t'.
  assert (Hex : forall p u, exists b, exists_ p u = (Ok b, u)).
  { intros p u. unfold exists_, mbind, get, ret. eexists. reflexivity. }
  assert (Hfor1 : forall l u r u',
            for_each l (fun file_path => present <- exists_ file_path ;;
                          if negb present then raise FileNotFoundError else ret tt) u
            = (Ok r, u') -> u' = u).
  { induction l as [|p l IH]; intros u r0 u' H; [injection H as _ <-; reflexivity|].
    simpl in H. unfold mbind at 1 in H. unfold mbind at 1 in H.
    destruct (Hex p u) as [b Eb]. rewrite Eb in H.
    destruct (negb b); [discriminate|]. unfold ret at 1 in H. eapply IH; eauto. }
  assert (Hfor2 : forall d l u r u',
            for_each l (fun name => present <- exists_ (join d name) ;;
                          if present then print (EvOptionalFile (join d name)) else ret tt) u
            = (Ok r, u') -> self u' = self u).
  { intros d. induction l as [|p l IH]; intros u r0 u' H; [injection H as _ <-; reflexivity|].
    simpl in H. unfold mbind at 1 in H. unfold mbind at 1 in H.
    destruct (Hex (join d p) u) as [b Eb]. rewrite Eb in H.
    destruct b.
    - unfold print, modify in H. apply IH in H. exact H.
    - unfold ret at 1 in H. apply IH in H. exact H. }
  unfold mbind at 1.
  destruct (for_each _ _ t) as [[[]| |] u1] eqn:E1; try discriminate.
  apply Hfor1 in E1. subst u1.
  unfold mbind at 1. unfold print at 1, modify at 1.
  unfold mbind at 1.
  destruct (for_each _ _ _) as [[[]| |] u2] eqn:E2; try discriminate.
  apply Hfor2 in E2. unfold ret. intros H. injection H as _ <-. exact E2.
Qed.

(** C6 at the failing input: with [--tasks-file elsewhere/tasks.md] the run
    parses and rewrites the tasks file of the feature directory; the file
    named on the command line is neither read nor changed. *)
Theorem override_is_ignored :
  fst (main override_args (initial override_files)) = Some 0
  /\ In (EvParsing demo_tasks) (stdout (snd (main override_args (initial override_files))))
  /\ ~ In (EvParsing other_tasks) (stdout (snd (main override_args (initial override_files))))
  /\ file_after override_args (initial override_files) demo_tasks
     = Some (txt "- [X] T001 Task of the feature directory")
  /\ file_after override_args (initial override_files) other_tasks
     = Some (txt "- [ ] T900 Task of the other file").
Proof.
  split; [vm_compute; reflexivity|].
  split; [vm_compute; tauto|].
  split.
  - vm_compute. intros H.
    repeat (destruct H as [H|H]; [discriminate H|]). exact H.
  - split; vm_compute; reflexivity.
Qed.

(** ** Errors in the stages of [run] *)

Lemma run_after_parse (o : methods) (s s4 : state) (k : M bool) :
  reaches_parse o s s4 ->
  run o s =
  (parsed_tasks <- try_except (l <- m_parse_tasks o ;; ret (Some l))
                              (fun e => print (EvParseError e) ;; ret None) ;;
   match parsed_tasks with
   | None => ret false
   | Some l =>
       executed <- try_except (m_execute_implementation o l ;; ret true)
                              (fun e => print (EvExecError e) ;; ret false) ;;
       if negb executed then ret false
       else
         try_except (m_update_tasks_file o l) (fun e => print (EvUpdateError e)) ;;
         print EvRunDone ;;
         ret true
   end) s4.
Proof.
  intros (docs & s1 & s2 & b1 & s3 & b2 & H1 & H2 & H3 & H4).
  unfold say in *. unfold run.
  unfold print at 1. unfold modify at 1. unfold mbind at 1.
  rewrite (mbind_ok _ _ _ _ _ H1).
  unfold print at 1. unfold modify at 1. unfold mbind at 1.
  rewrite (mbind_ok _ _ _ _ _ H2). cbn [negb].
  assert (Hl : try_except (m_load_implementation_context o ;; ret true)
                          (fun e => print (EvContextError e) ;; ret false) s2 = (Ok true, s3)).
  { unfold try_except. rewrite (mbind_ok _ _ _ _ _ H3). reflexivity. }
  rewrite (mbind_ok _ _ _ _ _ Hl). cbn [negb].
  rewrite (mbind_ok _ _ _ _ _ H4). reflexivity.
Qed.

(** C9: once the run has reached the parsing of the tasks, an error raised
    by the parse stage or by the execution stage is printed and makes the
    run report failure, exit status 1; an error raised by the update stage
    is printed and swallowed, the run reports success, exit status 0. *)
Theorem stage_errors (o : methods) (a : args) (s s4 : state) :
  reaches_parse (instance o a) (prepared a s) s4 ->
  (forall e s5,
     m_parse_tasks (instance o a) s4 = (Raise e, s5) ->
     run (instance o a) (prepared a s) = (Ok false, say (EvParseError e) s5) /\
     fst (main_of o a s) = Some 1) /\
  (forall l s5 e s6,
     m_parse_tasks (instance o a) s4 = (Ok l, s5) ->
     m_execute_implementation (instance o a) l s5 = (Raise e, s6) ->
     run (instance o a) (prepared a s) = (Ok false, say (EvExecError e) s6) /\
     fst (main_of o a s) = Some 1) /\
  (forall l s5 u s6 e s7,
     m_parse_tasks (instance o a) s4 = (Ok l, s5) ->
     m_execute_implementation (instance o a) l s5 = (Ok u, s6) ->
     m_update_tasks_file (instance o a) l s6 = (Raise e, s7) ->
     run (instance o a) (prepared a s) = (Ok true, say EvRunDone (say (EvUpdateError e) s7)) /\
     fst (main_of o a s) = Some 0).
Proof.
  intros Hr.
  assert (Hmain : forall b s', run (instance o a) (prepared a s) = (Ok b, s') ->
                               fst (main_of o a s) = Some (if b then 0 else 1)).
  { intros b s' H. unfold main_of. rewrite H. destruct b; reflexivity. }
  split; [|split].
  - intros e s5 Hp.
    assert (E : run (instance o a) (prepared a s) = (Ok false, say (EvParseError e) s5)).
    { rewrite (run_after_parse _ _ _ (ret true) Hr).
      unfold mbind at 1. unfold try_except at 1. unfold mbind at 1. rewrite Hp.
      reflexivity. }
    split; [exact E|]. exact (Hmain _ _ E).
  - intros l s5 e s6 Hp He.
    assert (E : run (instance o a) (prepared a s) = (Ok false, say (EvExecError e) s6)).
    { rewrite (run_after_parse _ _ _ (ret true) Hr).
      unfold mbind at 1. unfold try_except at 1. unfold mbind at 1. rewrite Hp.
      unfold ret at 1. cbv iota beta.
      unfold mbind at 1. unfold try_except at 1. unfold mbind at 1. rewrite He.
      reflexivity. }
    split; [exact E|]. exact (Hmain _ _ E).
  - intros l s5 u s6 e s7 Hp He Hu.
    assert (E : run (instance o a) (prepared a s)
                = (Ok true, say EvRunDone (say (EvUpdateError e) s7))).
    { rewrite (run_after_parse _ _ _ (ret true) Hr).
      unfold mbind at 1. unfold try_except at 1. unfold mbind at 1. rewrite Hp.
      unfold ret at 1. cbv iota beta.
      unfold mbind at 1. unfold try_except at 1. unfold mbind at 1. rewrite He.
      unfold ret at 1. cbv iota beta. cbn [negb].
      unfold mbind at 1. unfold try_except at 1. rewrite Hu.
      reflexivity. }
    split; [exact E|]. exact (Hmain _ _ E).
Qed.

Lemma demo_reaches_parse (o : methods) (tasks_md : node) :
  m_run_check_prerequisites o = run_check_prerequisites ->
  m_check_checklists_status o = check_checklists_status ->
  m_load_implementation_context o = load_implementation_context ->
  m_project_setup_verification o = project_setup_verification ->
  reaches_parse o (prepared demo_args (initial (demo_files tasks_md)))
                  (before_parse o (prepared demo_args (initial (demo_files tasks_md)))).
Proof.
  intros E1 E2 E3 E4. unfold reaches_parse, before_parse. rewrite E1, E2, E3, E4.
  do 6 eexists. split; [|split; [|split]].
  - vm_compute. reflexivity.
  - vm_compute. reflexivity.
  - vm_compute. reflexivity.
  - destruct tasks_md; vm_compute; reflexivity.
Defined.

Lemma by_pairing {A} (x : outcome A * state) (o : outcome A) :
  fst x = o -> x = (o, snd x).
Proof. intros <-. apply surjective_pairing. Defined.

Lemma stage_errors_witness :
  fst (main_of SpeckitImplementer demo_args (initial (demo_files Binary))) = Some 1 /\
  fst (main_of failing_execution demo_args (initial (demo_files (File scenario)))) = Some 1 /\
  fst (main_of SpeckitImplementer demo_args (initial (demo_files (File open_paren_tasks))))
  = Some 0.
Proof.
  split; [|split].
  - destruct (stage_errors SpeckitImplementer demo_args _ _
                (demo_reaches_parse SpeckitImplementer Binary
                   eq_refl eq_refl eq_refl eq_refl)) as (Hp & _ & _).
    refine (proj2 (Hp UnicodeDecodeError _ _)).
    apply by_pairing. vm_compute. reflexivity.
  - destruct (stage_errors failing_execution demo_args _ _
                (demo_reaches_parse failing_execution (File scenario)
                   eq_refl eq_refl eq_refl eq_refl)) as (_ & He & _).
    refine (proj2 (He [0; 1] _ (OtherError 0) _ _ _));
      apply by_pairing; vm_compute; reflexivity.
  - destruct (stage_errors SpeckitImplementer demo_args _ _
                (demo_reaches_parse SpeckitImplementer (File open_paren_tasks)
                   eq_refl eq_refl eq_refl eq_refl)) as (_ & _ & Hu).
    refine (proj2 (Hu [0] _ tt _ re_error _ _ _ _));
      apply by_pairing; vm_compute; reflexivity.
Defined.

(** ** The task parser *)

Import ReFacts.

Lemma match_here_false r s : match_here r false s = hd_error (matches r s []).
Proof.
  unfold match_here. f_equal. simpl.
  induction (matches r s []) as [|x l IH]; [reflexivity|]. simpl. rewrite IH. reflexivity.
Qed.

Lemma task_regex_consuming : consuming task_regex.
Proof. apply consuming_seq_chr. Qed.

Lemma match_at_nil : match_at [] = None.
Proof. reflexivity. Qed.

Lemma matches_seq_lit d r a s c :
  matches (Seq (Chr (CsLit d)) r) (a :: s) c = if Ascii.eqb d a then matches r s c else [].
Proof.
  cbn [matches charset_mem]. destruct (Ascii.eqb d a); cbn [flat_map fst snd].
  - apply app_nil_r.
  - reflexivity.
Qed.

Lemma match_at_other a s : a <> "-"%char -> match_at (a :: s) = None.
Proof.
  intros H. unfold match_at. rewrite match_here_false.
  unfold task_regex, lit. rewrite matches_seq_lit.
  destruct (Ascii.eqb "-" a) eqn:E; [|reflexivity].
  apply Ascii.eqb_eq in E. congruence.
Qed.

Lemma findall_pieces r n s :
  findall r n s =
  flat_map (fun p => match p with
                     | Skipped _ => []
                     | Hit whole c => [hit_groups n whole c]
                     end) (scan r s).
Proof. reflexivity. Qed.

Lemma parse_nil : parse_tasks_content [] = [].
Proof. reflexivity. Qed.

Lemma parse_pass a s :
  match_at (a :: s) = None -> parse_tasks_content (a :: s) = parse_tasks_content s.
Proof.
  intros H. unfold parse_tasks_content. rewrite !findall_pieces.
  rewrite (scan_pass _ _ _ H). reflexivity.
Qed.

Lemma parse_hit s st :
  match_at s = Some st ->
  parse_tasks_content s = task_of_hit st :: parse_tasks_content (fst st).
Proof.
  intros H. unfold parse_tasks_content. rewrite !findall_pieces.
  rewrite (scan_hit _ _ _ task_regex_consuming H). reflexivity.
Qed.

(** *** Where a match ends *)

Lemma head_flat_map {A B} (f : A -> list B) (l : list A) (x : B) :
  hd_error (flat_map f l) = Some x -> exists y, In y l /\ hd_error (f y) = Some x.
Proof.
  induction l as [|y l IH]; [discriminate|]. simpl. intros H.
  destruct (f y) as [|z t] eqn:E.
  - destruct (IH H) as [y' [Hin Hh]]. exists y'. split; [right; exact Hin|exact Hh].
  - exists y. split; [left; reflexivity|]. rewrite E. exact H.
Qed.

Lemma heads_seq P r1 r2 : all_heads P r2 -> all_heads P (Seq r1 r2).
Proof.
  intros H s c x Hx. simpl in Hx. apply head_flat_map in Hx.
  destruct Hx as [y [_ Hy]]. eapply H. exact Hy.
Qed.

Lemma heads_group i r : all_heads ends_line r -> all_heads ends_line (Group i r).
Proof.
  intros H s c x Hx. simpl in Hx.
  destruct (matches r s c) as [|y l] eqn:E; [discriminate|].
  simpl in Hx. injection Hx as <-. unfold ends_line. simpl.
  apply (H s c y). rewrite E. reflexivity.
Qed.

Lemma rep_zero_nonempty body fuel hi s c : rep body fuel 0 hi true s c <> [].
Proof.
  destruct fuel; simpl; [discriminate|].
  intros H. apply app_eq_nil in H. destruct H as [_ H]. discriminate.
Qed.

Lemma rep_chr_nil cs fuel lo hi g c :
  rep (matches (Chr cs)) fuel lo hi g [] c = if lo =? 0 then [([], c)] else [].
Proof.
  destruct fuel; [reflexivity|]. cbn [rep]. cbn [matches flat_map].
  destruct (hi_allows hi), g; rewrite ?app_nil_r; reflexivity.
Qed.

Lemma rep_chr_cons cs fuel lo hi g a s c :
  rep (matches (Chr cs)) (S fuel) lo hi g (a :: s) c =
  let more := if hi_allows hi && charset_mem cs a
              then rep (matches (Chr cs)) fuel (pred lo) (hi_pred hi) g s c
              else [] in
  let stop := if lo =? 0 then [(a :: s, c)] else [] in
  if g then more ++ stop else stop ++ more.
Proof.
  cbn [rep].
  change (matches (Chr cs) (a :: s) c) with (if charset_mem cs a then [(s, c)] else []).
  assert (Hlt : (length s <? length (a :: s)) = true) by (apply Nat.ltb_lt; simpl; lia).
  destruct (hi_allows hi), (charset_mem cs a); cbn [andb flat_map fst snd];
    rewrite ?Hlt, ?app_nil_r; reflexivity.
Qed.

(** The first outcome of a greedy repeat of one character class stops
    where the class stops. *)
Lemma greedy_head cs fuel : forall lo s c x,
  length s <= fuel ->
  hd_error (rep (matches (Chr cs)) fuel lo None true s c) = Some x ->
  fst x = [] \/ exists a r, fst x = a :: r /\ charset_mem cs a = false.
Proof.
  induction fuel as [|fuel IH]; intros lo s c x Hlen H.
  - destruct s; [|simpl in Hlen; lia].
    rewrite rep_chr_nil in H. destruct (lo =? 0); [|discriminate].
    simpl in H. injection H as <-. left. reflexivity.
  - destruct s as [|a s].
    + rewrite rep_chr_nil in H. destruct (lo =? 0); [|discriminate].
      simpl in H. injection H as <-. left. reflexivity.
    + rewrite rep_chr_cons in H. cbn [hi_allows hi_pred andb] in H. cbv zeta in H.
      destruct (charset_mem cs a) eqn:Em.
      * destruct (rep (matches (Chr cs)) fuel (pred lo) None true s c) as [|y l] eqn:E.
        -- destruct lo as [|lo]; [exfalso; exact (rep_zero_nonempty _ _ _ _ _ E)|].
           simpl in H. discriminate.
        -- simpl in H. injection H as <-.
           apply (IH (pred lo) s c y); [simpl in Hlen; lia|].
           rewrite E. reflexivity.
      * cbn [app] in H. destruct (lo =? 0); [|discriminate].
        simpl in H. injection H as <-. right. exists a, s. auto.
Qed.

Lemma heads_dot_plus : all_heads ends_line (Repeat 1 None true (Chr CsAny)).
Proof.
  intros s c x H. cbn [matches] in H.
  apply greedy_head in H; [|apply Nat.le_refl].
  destruct H as [H|[a [r [H Hm]]]]; [left; exact H|].
  right. exists r. rewrite H. f_equal.
  simpl in Hm. apply negb_false_iff, Ascii.eqb_eq in Hm. exact Hm.
Qed.

Lemma match_at_ends_line s st : match_at s = Some st -> ends_line st.
Proof.
  unfold match_at. rewrite match_here_false. revert s. generalize (@nil (nat * text)).
  intros c s. revert s c st. unfold task_regex.
  repeat apply heads_seq. apply heads_group. apply heads_dot_plus.
Qed.

Lemma match_at_shorter s st : match_at s = Some st -> length (fst st) < length s.
Proof.
  intros H. apply match_here_in in H. apply task_regex_consuming in H. exact H.
Qed.

(** *** One record for each match found from left to right *)

Lemma parse_scanned_upto n : forall s, length s <= n -> scanned s (parse_tasks_content s).
Proof.
  induction n as [|n IH]; intros s Hn.
  - destruct s; [|simpl in Hn; lia]. rewrite parse_nil. constructor.
  - destruct (match_at s) as [st|] eqn:E.
    + rewrite (parse_hit _ _ E). apply scanned_hit; [exact E| |].
      * exact (match_at_ends_line _ _ E).
      * apply IH. apply match_at_shorter in E. lia.
    + destruct s as [|a s]; [rewrite parse_nil; constructor|].
      rewrite (parse_pass _ _ E). apply scanned_pass; [exact E|].
      apply IH. simpl in Hn. lia.
Qed.

Lemma parse_scanned s : scanned s (parse_tasks_content s).
Proof. apply (parse_scanned_upto (length s)). apply Nat.le_refl. Qed.

Lemma parse_empty_iff s :
  parse_tasks_content s = [] <-> forall i, match_at (skipn i s) = None.
Proof.
  split.
  - induction s as [|a s IH]; intros H i.
    + rewrite skipn_nil. apply match_at_nil.
    + destruct (match_at (a :: s)) as [st|] eqn:E.
      * rewrite (parse_hit _ _ E) in H. discriminate.
      * rewrite (parse_pass _ _ E) in H.
        destruct i as [|i]; [exact E|]. simpl. apply IH. exact H.
  - induction s as [|a s IH]; intros H; [apply parse_nil|].
    rewrite (parse_pass _ _ (H 0)). apply IH. intros i. exact (H (S i)).
Qed.

Lemma split_lines_cons a s :
  length (split_lines (a :: s)) =
  if Ascii.eqb a nl then S (length (split_lines s)) else length (split_lines s).
Proof.
  simpl. destruct (Ascii.eqb a nl); [reflexivity|].
  destruct (split_lines s) eqn:E; [|reflexivity].
  destruct s; simpl in E; [discriminate|].
  destruct (Ascii.eqb a0 nl); [discriminate|].
  destruct (split_lines s); discriminate.
Qed.

Lemma split_lines_app_le w s : length (split_lines s) <= length (split_lines (w ++ s)).
Proof.
  induction w as [|a w IH]; [apply Nat.le_refl|].
  change ((a :: w) ++ s) with (a :: (w ++ s)). rewrite split_lines_cons.
  destruct (Ascii.eqb a nl); lia.
Qed.

Lemma scanned_lines s ts :
  scanned s ts ->
  length ts <= length (split_lines s) /\
  (s = [] \/ (exists r, s = nl :: r) -> S (length ts) <= length (split_lines s)).
Proof.
  induction 1 as [|a s ts Hm Hs [IH1 IH2]|s st ts Hm He Hs [IH1 IH2]].
  - simpl. split; intros; lia.
  - rewrite split_lines_cons. destruct (Ascii.eqb a nl) eqn:E.
    + split; intros; lia.
    + split; [exact IH1|]. intros [H|[r H]]; [discriminate|].
      injection H as -> _. rewrite Ascii.eqb_refl in E. discriminate.
  - assert (Hle : length (split_lines (fst st)) <= length (split_lines s)).
    { pose proof (match_here_split _ _ _ _ Hm) as E. rewrite E at 1.
      apply split_lines_app_le. }
    specialize (IH2 He). simpl length. split; [lia|].
    intros [H|[r H]]; subst s.
    + rewrite match_at_nil in Hm. discriminate.
    + rewrite match_at_other in Hm; [discriminate|]. intros H. discriminate H.
Qed.

(** C3 (amended): parsing gives exactly one record for each match of the
    pattern found by going through the content from left to right and
    resuming behind each match, in that order; a match may run over a line
    break but ends at the end of a line, so there are at most as many
    records as lines; content in which the pattern matches nowhere gives no
    record, and what lies outside the matches is passed over. *)
Theorem parse_one_record_per_match (content : text) :
  scanned content (parse_tasks_content content) /\
  (parse_tasks_content content = [] <-> forall i, match_at (skipn i content) = None) /\
  length (parse_tasks_content content) <= length (split_lines content).
Proof.
  split; [apply parse_scanned|]. split; [apply parse_empty_iff|].
  apply (scanned_lines _ _ (parse_scanned content)).
Qed.

(** C3 as stated fails: a file none of whose lines matches the pattern
    gives a record, and a file with two matching lines gives one record. *)
Lemma parse_per_line_counterexample :
  (Forall (fun l => parse_tasks_content l = []) (split_lines box_then_task) /\
   length (parse_tasks_content box_then_task) = 1) /\
  (Forall (fun l => length (parse_tasks_content l) = 1) (split_lines blank_then_task) /\
   length (split_lines blank_then_task) = 2 /\
   map ident (parse_tasks_content blank_then_task)
   = [(txt "T001", txt "- [ ] T002 Write tests")]).
Proof.
  split; split.
  - vm_compute. repeat constructor.
  - vm_compute. reflexivity.
  - vm_compute. repeat constructor.
  - split; vm_compute; reflexivity.
Qed.

(** C10 (amended): an occurrence of the pattern that does not begin inside
    an earlier match gives a record wherever it stands in its line: after
    any text in which no match begins, the match at the start of what
    follows is recorded, and parsing goes on behind it. *)
Theorem parse_unanchored (pre s : text) (st : mstate) :
  (forall i, i < length pre -> match_at (skipn i (pre ++ s)) = None) ->
  match_at s = Some st ->
  parse_tasks_content (pre ++ s) = task_of_hit st :: parse_tasks_content (fst st).
Proof.
  intros Hpre Hm. induction pre as [|a pre IH].
  - apply parse_hit. exact Hm.
  - change ((a :: pre) ++ s) with (a :: (pre ++ s)).
    rewrite parse_pass by (apply (Hpre 0); simpl; lia).
    apply IH. intros i Hi. apply (Hpre (S i)). simpl. lia.
Qed.

(** Text without a hyphen before a task line does not hide it. *)
Lemma parse_after_plain_text (pre s : text) :
  Forall (fun a => a <> "-"%char) pre ->
  parse_tasks_content (pre ++ s) = parse_tasks_content s.
Proof.
  induction 1 as [|a pre Ha _ IH]; [reflexivity|].
  change ((a :: pre) ++ s) with (a :: (pre ++ s)).
  rewrite parse_pass by (apply match_at_other; exact Ha). exact IH.
Qed.

Lemma parse_unanchored_witness :
  (forall i, i < length quoted_pre -> match_at (skipn i (quoted_pre ++ plain_line)) = None) /\
  exists st, match_at plain_line = Some st /\
             parse_tasks_content (quoted_pre ++ plain_line)
             = task_of_hit st :: parse_tasks_content (fst st).
Proof.
  assert (Hpre : forall i, i < length quoted_pre ->
                           match_at (skipn i (quoted_pre ++ plain_line)) = None).
  { intros i Hi. do 4 (destruct i as [|i]; [vm_compute; reflexivity|]).
    simpl in Hi. lia. }
  split; [exact Hpre|].
  destruct (match_at plain_line) as [st|] eqn:E; [|vm_compute in E; discriminate E].
  exists st. split; [reflexivity|]. exact (parse_unanchored quoted_pre plain_line st Hpre E).
Defined.

(** C10 as stated fails: the pattern occurs a second time in the line, at
    offset 13 with identifier T002, and no record is made for it; it is
    part of the description of T001. *)
Lemma nested_occurrence_counterexample :
  option_map (fun st => id (task_of_hit st)) (match_at (skipn 13 nested)) = Some (txt "T002") /\
  map ident (parse_tasks_content nested) = [(txt "T001", txt "a - [ ] T002 b")].
Proof. split; vm_compute; reflexivity. Qed.

(** *** What the groups of a match hold *)

Lemma in_matches_seq r1 r2 s c st :
  In st (matches (Seq r1 r2) s c) ->
  exists st1, In st1 (matches r1 s c) /\ In st (matches r2 (fst st1) (snd st1)).
Proof. simpl. rewrite in_flat_map. exact (fun H => H). Qed.

Lemma in_matches_chr cs s c st :
  In st (matches (Chr cs) s c) ->
  exists a, s = a :: fst st /\ charset_mem cs a = true /\ snd st = c.
Proof.
  simpl. destruct s as [|a s]; [intros []|].
  destruct (charset_mem cs a) eqn:E; [|intros []].
  intros [<-|[]]. exists a. auto.
Qed.

Lemma in_matches_lit a s c st :
  In st (matches (lit a) s c) -> s = a :: fst st /\ snd st = c.
Proof.
  intros H. apply in_matches_chr in H. destruct H as [b [Hs [Hm Hc]]].
  simpl in Hm. apply Ascii.eqb_eq in Hm. subst b. auto.
Qed.

Lemma in_rep_chr cs fuel : forall lo hi g s c st,
  In st (rep (matches (Chr cs)) fuel lo hi g s c) ->
  snd st = c /\
  exists w, s = w ++ fst st /\ forallb (charset_mem cs) w = true /\ lo <= length w.
Proof.
  induction fuel as [|fuel IH]; intros lo hi g s c st H.
  - simpl in H. destruct (lo =? 0) eqn:E; [|contradiction].
    destruct H as [<-|[]]. apply Nat.eqb_eq in E. split; [reflexivity|].
    exists []. simpl. repeat split. lia.
  - assert (Hstop : In st (if lo =? 0 then [(s, c)] else []) ->
                    snd st = c /\
                    exists w, s = w ++ fst st /\ forallb (charset_mem cs) w = true
                              /\ lo <= length w).
    { destruct (lo =? 0) eqn:E; [|contradiction]. intros [<-|[]].
      apply Nat.eqb_eq in E. split; [reflexivity|]. exists []. simpl. repeat split. lia. }
    destruct s as [|a s].
    + rewrite rep_chr_nil in H. apply Hstop. exact H.
    + rewrite rep_chr_cons in H. cbv zeta in H.
      assert (Hmore : In st (if hi_allows hi && charset_mem cs a
                             then rep (matches (Chr cs)) fuel (pred lo) (hi_pred hi) g s c
                             else []) ->
                      snd st = c /\
                      exists w, a :: s = w ++ fst st /\ forallb (charset_mem cs) w = true
                                /\ lo <= length w).
      { destruct (hi_allows hi); [|contradiction]. simpl.
        destruct (charset_mem cs a) eqn:Em; [|contradiction].
        intros Hin. apply IH in Hin. destruct Hin as [Hc [w [Hs [Hw Hl]]]].
        split; [exact Hc|]. exists (a :: w). simpl. rewrite Em, Hw, <- Hs.
        repeat split. lia. }
      destruct g; apply in_app_or in H; destruct H; auto.
Qed.

Lemma in_matches_rep_chr lo hi g cs s c st :
  In st (matches (Repeat lo hi g (Chr cs)) s c) ->
  snd st = c /\
  exists w, s = w ++ fst st /\ forallb (charset_mem cs) w = true /\ lo <= length w.
Proof. apply in_rep_chr. Qed.

Lemma in_matches_ws s c st : In st (matches ws s c) -> snd st = c.
Proof. intros H. apply in_matches_rep_chr in H. tauto. Qed.

Lemma rep_done body fuel g s c : rep body fuel 0 (Some 0) g s c = [(s, c)].
Proof. destruct fuel, g; reflexivity. Qed.

Lemma in_matches_opt g r s c st :
  In st (matches (Repeat 0 (Some 1) g r) s c) ->
  st = (s, c) \/ In st (matches r s c).
Proof.
  cbn [matches]. destruct (length s) as [|fuel].
  - simpl. intros [<-|[]]. left. reflexivity.
  - cbn [rep hi_allows hi_pred pred Nat.eqb].
    assert (Hmore : In st (flat_map (fun st0 : mstate =>
                             if length (fst st0) <? length s
                             then rep (matches r) fuel 0 (Some 0) g (fst st0) (snd st0)
                             else []) (matches r s c)) -> In st (matches r s c)).
    { rewrite in_flat_map. intros [st0 [H0 H1]].
      destruct (length (fst st0) <? length s); [|contradiction].
      rewrite rep_done in H1. destruct H1 as [<-|[]]. destruct st0. exact H0. }
    destruct g; intros H; apply in_app_or in H; destruct H as [H|H]; auto;
      destruct H as [<-|[]]; left; reflexivity.
Qed.

Lemma in_matches_group i r s c st :
  In st (matches (Group i r) s c) ->
  exists st1, In st1 (matches r s c) /\ fst st = fst st1 /\
              snd st = (i, consumed s (fst st1)) :: snd st1.
Proof.
  simpl. rewrite in_map_iff. intros [st1 [<- H]]. exists st1. auto.
Qed.

(** The third group of a match of the task pattern is empty or a story
    marker: [[US], digits, []]. *)
Lemma story_marker_shape s st :
  In st (matches task_regex s []) ->
  group_text (snd st) 3 = [] \/
  exists ds, ds <> [] /\ forallb is_digit ds = true /\
             group_text (snd st) 3 = txt "[US" ++ ds ++ txt "]".
Proof.
  unfold task_regex. intros H.
  apply in_matches_seq in H. destruct H as [st1 [H1 H]]. apply in_matches_lit in H1.
  apply in_matches_seq in H. destruct H as [st2 [H2 H]]. apply in_matches_ws in H2.
  apply in_matches_seq in H. destruct H as [st3 [H3 H]]. apply in_matches_lit in H3.
  apply in_matches_seq in H. destruct H as [st4 [H4 H]]. apply in_matches_ws in H4.
  apply in_matches_seq in H. destruct H as [st5 [H5 H]]. apply in_matches_lit in H5.
  apply in_matches_seq in H. destruct H as [st6 [H6 H]]. apply in_matches_ws in H6.
  apply in_matches_seq in H. destruct H as [st7 [H7 H]].
  apply in_matches_seq in H. destruct H as [st8 [H8 H]]. apply in_matches_ws in H8.
  apply in_matches_seq in H. destruct H as [st9 [H9 H]].
  apply in_matches_seq in H. destruct H as [st10 [H10 H]]. apply in_matches_ws in H10.
  apply in_matches_seq in H. destruct H as [st11 [H11 H]].
  apply in_matches_seq in H. destruct H as [st12 [H12 H]]. apply in_matches_ws in H12.
  apply in_matches_group in H. destruct H as [st13 [H13 [_ Hc]]].
  apply in_matches_rep_chr in H13. destruct H13 as [Hc13 _].
  rewrite Hc, Hc13, H12. clear Hc Hc13 H12.
  (* the first group *)
  apply in_matches_group in H7. destruct H7 as [st7' [H7 [_ Hc7]]].
  apply in_matches_seq in H7. destruct H7 as [st7a [H7a H7]].
  apply in_matches_lit in H7a. apply in_matches_rep_chr in H7. destruct H7 as [H7 _].
  destruct H1 as [_ H1], H3 as [_ H3], H5 as [_ H5], H7a as [_ H7a].
  assert (E8 : snd st8 = [(1, consumed (fst st6) (fst st7'))]).
  { rewrite H8, Hc7, H7, H7a, H6, H5, H4, H3, H2, H1. reflexivity. }
  clear H1 H2 H3 H4 H5 H6 H7 H7a H8 Hc7.
  (* the optional second group *)
  assert (E10 : cap_lookup 3 (snd st10) = None).
  { rewrite H10. apply in_matches_opt in H9. destruct H9 as [->|H9].
    - simpl. rewrite E8. reflexivity.
    - apply in_matches_group in H9. destruct H9 as [st9' [H9 [_ Hc9]]].
      apply in_matches_seq in H9. destruct H9 as [sa [Ha H9]]. apply in_matches_lit in Ha.
      apply in_matches_seq in H9. destruct H9 as [sb [Hb H9]]. apply in_matches_lit in Hb.
      apply in_matches_lit in H9.
      destruct Ha as [_ Ha], Hb as [_ Hb], H9 as [_ H9].
      rewrite Hc9, H9, Hb, Ha, E8. reflexivity. }
  (* the optional third group *)
  apply in_matches_opt in H11. destruct H11 as [->|H11].
  - left. unfold group_text. simpl. rewrite E10. reflexivity.
  - right. apply in_matches_group in H11. destruct H11 as [st' [H11 [_ Hc11]]].
    apply in_matches_seq in H11. destruct H11 as [sa [Ha H11]]. apply in_matches_lit in Ha.
    apply in_matches_seq in H11. destruct H11 as [sb [Hb H11]]. apply in_matches_lit in Hb.
    apply in_matches_seq in H11. destruct H11 as [sc [Hc H11]]. apply in_matches_lit in Hc.
    apply in_matches_seq in H11. destruct H11 as [sd [Hd H11]].
    apply in_matches_rep_chr in Hd. apply in_matches_lit in H11.
    destruct Ha as [Ea _], Hb as [Eb _], Hc as [Ec _], H11 as [Ee _].
    destruct Hd as [_ [ds [Ed [Hds Hlen]]]].
    exists ds. split; [intros ->; simpl in Hlen; lia|]. split; [exact Hds|].
    unfold group_text. rewrite Hc11. simpl cap_lookup.
    rewrite Ea, Eb, Ec, Ed, Ee.
    replace ("["%char :: "U"%char :: "S"%char :: ds ++ "]"%char :: fst st')
      with ((txt "[US" ++ ds ++ txt "]") ++ fst st')
      by (simpl; rewrite <- app_assoc; reflexivity).
    rewrite consumed_app. reflexivity.
Qed.

(** ** Phases *)

Lemma starts_with_spec p : forall s, starts_with p s = true <-> exists w, s = p ++ w.
Proof.
  induction p as [|a p IH]; intros s.
  - simpl. split; [intros _; exists s; reflexivity|reflexivity].
  - destruct s as [|b s]; simpl.
    + split; [discriminate|intros [w H]; discriminate].
    + rewrite andb_true_iff, Ascii.eqb_eq, IH. split.
      * intros [-> [w ->]]. exists w. reflexivity.
      * intros [w H]. injection H as -> ->. split; [reflexivity|]. exists w. reflexivity.
Qed.

Lemma contains_spec p : forall s, contains p s = true <-> exists u w, s = u ++ p ++ w.
Proof.
  induction s as [|a s IH].
  - simpl. rewrite orb_false_r, starts_with_spec. split.
    + intros [w H]. exists [], w. exact H.
    + intros [u [w H]]. destruct u; [exists w; exact H|discriminate].
  - cbn [contains]. rewrite orb_true_iff, starts_with_spec, IH. split.
    + intros [[w H]|[u [w H]]].
      * exists [], w. exact H.
      * exists (a :: u), w. rewrite H. reflexivity.
    + intros [u [w H]]. destruct u as [|b u].
      * left. exists w. exact H.
      * right. injection H as _ H. exists u, w. exact H.
Qed.

Lemma map_eq_app_inv {A B} (f : A -> B) (l : list A) (x y : list B) :
  map f l = x ++ y -> exists u v, l = u ++ v /\ map f u = x /\ map f v = y.
Proof.
  revert l. induction x as [|b x IH]; intros l H.
  - exists [], l. auto.
  - destruct l as [|a l]; [discriminate|]. simpl in H. injection H as Hb H.
    destruct (IH l H) as [u [v [-> [Hu Hv]]]].
    exists (a :: u), v. simpl. rewrite Hb, Hu. auto.
Qed.

(** The test of the source, [word in description.lower()], says that the
    description mentions the word whatever the case. *)
Lemma contains_lower_iff word d :
  contains word (lower d) = true <-> mentions_ci word d.
Proof.
  rewrite contains_spec. unfold mentions_ci, lower. split.
  - intros [u' [w' H]]. apply map_eq_app_inv in H. destruct H as [u [r [-> [_ H]]]].
    apply map_eq_app_inv in H. destruct H as [v [w [-> [Hv _]]]].
    exists u, v, w. auto.
  - intros [u [v [w [-> <-]]]]. exists (map lower_char u), (map lower_char w).
    rewrite !map_app. reflexivity.
Qed.

(** A record with a story tag is put in the phase of that tag, whatever
    its description. *)
Lemma phase_of_story t tag : story t = Some tag -> tag <> [] -> phase_of t = tag.
Proof.
  intros Hs Hne. unfold phase_of, has_story. rewrite Hs.
  destruct tag; [congruence|]. reflexivity.
Qed.

(** A record without story tag whose description mentions "setup" is put
    in the setup phase. *)
Lemma phase_of_setup t :
  has_story t = false -> mentions_ci (txt "setup") (description t) ->
  phase_of t = txt "setup".
Proof.
  intros Hs Hm. apply contains_lower_iff in Hm. unfold phase_of.
  rewrite Hs, Hm. reflexivity.
Qed.

Lemma scanned_from_matches s ts :
  scanned s ts -> forall t, In t ts -> exists s' st, match_at s' = Some st /\ t = task_of_hit st.
Proof.
  induction 1 as [|a s ts Hm Hs IH|s st ts Hm He Hs IH]; intros t Ht.
  - contradiction.
  - apply IH. exact Ht.
  - destruct Ht as [<-|Ht]; [exists s, st; auto|apply IH; exact Ht].
Qed.

Lemma slice_story_marker ds : slice_mid 3 1 (txt "[US" ++ ds ++ txt "]") = ds.
Proof.
  unfold slice_mid.
  change (txt "[US" ++ ds ++ txt "]")
    with ("["%char :: "U"%char :: "S"%char :: (ds ++ ["]"%char])).
  cbn [skipn length]. rewrite length_app. cbn [length].
  replace (S (S (S (length ds + 1))) - 1 - 3) with (length ds + 0) by lia.
  rewrite firstn_app_2. simpl. apply app_nil_r.
Qed.

(** The story of a parsed record is the number of its marker. *)
Lemma parsed_story content t tag :
  In t (parse_tasks_content content) -> story t = Some tag ->
  tag <> [] /\ forallb is_digit tag = true.
Proof.
  intros Ht Hs.
  destruct (scanned_from_matches _ _ (parse_scanned content) t Ht) as [s [st [Hm ->]]].
  apply match_here_in in Hm. apply story_marker_shape in Hm.
  assert (Hstory : story (task_of_hit st)
                   = if truthy (group_text (snd st) 3)
                     then Some (slice_mid 3 1 (group_text (snd st) 3)) else None)
    by reflexivity.
  rewrite Hstory in Hs. clear Hstory.
  destruct Hm as [E|[ds [Hne [Hd E]]]]; rewrite E in Hs.
  - discriminate.
  - rewrite slice_story_marker in Hs.
    change (truthy (txt "[US" ++ ds ++ txt "]")) with true in Hs.
    injection Hs as <-. auto.
Qed.

(** C2 (amended): a parsed task that carries a story tag, which is the
    number of its marker ("1" for [US1]), is grouped into the phase named
    by that tag whatever its description says; a parsed task without story
    tag whose description mentions "setup", in any case of the letters, is
    grouped into the setup phase. *)
Theorem phase_grouping (content : text) (t : task) :
  In t (parse_tasks_content content) ->
  (forall tag, story t = Some tag ->
               tag <> [] /\ forallb is_digit tag = true /\ phase_of t = tag) /\
  (story t = None -> mentions_ci (txt "setup") (description t) ->
   phase_of t = txt "setup").
Proof.
  intros Ht. split.
  - intros tag Hs. destruct (parsed_story content t tag Ht Hs) as [Hne Hd].
    repeat split; [exact Hne|exact Hd|]. apply phase_of_story; assumption.
  - intros Hs Hm. apply phase_of_setup; [|exact Hm].
    unfold has_story. rewrite Hs. reflexivity.
Qed.

Lemma phase_grouping_witness :
  In {| id := txt "T002"; description := txt "Setup login"; is_parallel := false;
        story := Some (txt "1"); completed := false |}
     (parse_tasks_content story_setup_line) /\
  phase_of {| id := txt "T002"; description := txt "Setup login"; is_parallel := false;
              story := Some (txt "1"); completed := false |} = txt "1".
Proof.
  assert (H : In {| id := txt "T002"; description := txt "Setup login";
                    is_parallel := false; story := Some (txt "1"); completed := false |}
                 (parse_tasks_content story_setup_line)).
  { vm_compute. left. reflexivity. }
  split; [exact H|].
  exact (proj2 (proj2 (proj1 (phase_grouping story_setup_line _ H) (txt "1") eq_refl))).
Defined.

(** C2 as stated fails: the task of the line tagged [US1] is grouped into
    the phase named "1", not "US1". *)
Lemma phase_grouping_counterexample :
  map (fun t => (story t, phase_of t)) (parse_tasks_content story_setup_line)
  = [(Some (txt "1"), txt "1")]
  /\ ~ In (txt "US1") (map phase_of (parse_tasks_content story_setup_line)).
Proof.
  split; [vm_compute; reflexivity|].
  vm_compute. intros [H|[]]. discriminate H.
Qed.

(** ** What the stages leave alone *)

Section Keeps.

Context {X : Type} (proj : state -> X).

Lemma keeps_ret {A} (a : A) : keeps proj (ret a).
Proof. intros s. reflexivity. Qed.

Lemma keeps_raise {A} e : keeps proj (@raise A e).
Proof. intros s. reflexivity. Qed.

Lemma keeps_unknown {A} : keeps proj (@unknown A).
Proof. intros s. reflexivity. Qed.

Lemma keeps_get : keeps proj get.
Proof. intros s. reflexivity. Qed.

Lemma keeps_bind {A B} (m : M A) (f : A -> M B) :
  keeps proj m -> (forall a, keeps proj (f a)) -> keeps proj (mbind m f).
Proof.
  intros Hm Hf s. unfold mbind. specialize (Hm s).
  destruct (m s) as [[a|e|] s1]; simpl in *; [|exact Hm|exact Hm].
  rewrite (Hf a s1). exact Hm.
Qed.

Lemma keeps_try {A} (m : M A) (h : exn -> M A) :
  keeps proj m -> (forall e, keeps proj (h e)) -> keeps proj (try_except m h).
Proof.
  intros Hm Hh s. unfold try_except. specialize (Hm s).
  destruct (m s) as [[a|e|] s1]; simpl in *; [exact Hm| |exact Hm].
  rewrite (Hh e s1). exact Hm.
Qed.

Lemma keeps_modify (f : state -> state) :
  (forall s, proj (f s) = proj s) -> keeps proj (modify f).
Proof. intros H s. apply H. Qed.

Lemma keeps_for_each {A} (f : A -> M unit) (l : list A) :
  (forall a, keeps proj (f a)) -> keeps proj (for_each l f).
Proof.
  intros H. induction l as [|a l IH]; [apply keeps_ret|].
  simpl. apply keeps_bind; [apply H|intros _; exact IH].
Qed.

Lemma keeps_select {A} (p : A -> M bool) (l : list A) :
  (forall a, keeps proj (p a)) -> keeps proj (select p l).
Proof.
  intros H. induction l as [|a l IH]; [apply keeps_ret|].
  simpl. apply keeps_bind; [apply H|intros b].
  apply keeps_bind; [exact IH|intros r; apply keeps_ret].
Qed.

Lemma keeps_exists p : keeps proj (exists_ p).
Proof. intros s. reflexivity. Qed.

Lemma keeps_read p : keeps proj (read_text p).
Proof.
  intros s. unfold read_text, mbind, get.
  destruct (fs_find p (files s)) as [[| |]|]; reflexivity.
Qed.

Lemma keeps_deref a : keeps proj (deref a).
Proof.
  intros s. unfold deref, mbind, get. destruct (nth_error (store s) a); reflexivity.
Qed.

End Keeps.

Lemma keeps_print_files e : keeps files (print e).
Proof. intros s. reflexivity. Qed.

Lemma keeps_print_stdin e : keeps stdin (print e).
Proof. intros s. reflexivity. Qed.

Lemma keeps_print_store e : keeps store (print e).
Proof. intros s. reflexivity. Qed.

Lemma keeps_scan_checklists {X} (proj : state -> X) l : keeps proj (scan_checklists l).
Proof.
  induction l as [|[name n] l IH]; [apply keeps_ret|].
  simpl. apply keeps_bind.
  - destruct n; [apply keeps_raise|apply keeps_ret|apply keeps_raise].
  - intros c. apply keeps_bind; [exact IH|intros r; apply keeps_ret].
Qed.

Lemma keeps_input_files : keeps files input.
Proof.
  unfold input. apply keeps_bind; [apply keeps_print_files|intros _].
  intros s. unfold mbind, get. destruct (stdin s); reflexivity.
Qed.

Lemma check_keeps_files : keeps files check_checklists_status.
Proof.
  unfold check_checklists_status, self_feature_dir.
  apply keeps_bind; [apply keeps_bind; [apply keeps_get|intros; apply keeps_ret]|intros d].
  destruct (negb (dir_given d)).
  { apply keeps_bind; [apply keeps_print_files|intros; apply keeps_ret]. }
  apply keeps_bind; [apply keeps_modify; reflexivity|intros _].
  apply keeps_bind; [apply keeps_exists|intros present].
  destruct (negb present).
  { apply keeps_bind; [apply keeps_print_files|intros; apply keeps_ret]. }
  apply keeps_bind; [apply keeps_get|intros s0].
  apply keeps_bind; [apply keeps_scan_checklists|intros rows].
  apply keeps_bind; [apply keeps_print_files|intros _].
  apply keeps_bind; [apply keeps_for_each; intros; apply keeps_print_files|intros _].
  destruct (negb _).
  - apply keeps_bind; [apply keeps_print_files|intros _].
    apply keeps_bind; [apply keeps_input_files|intros line].
    destruct (existsb _ _); [apply keeps_ret|].
    apply keeps_bind; [apply keeps_print_files|intros; apply keeps_ret].
  - apply keeps_bind; [apply keeps_print_files|intros; apply keeps_ret].
Qed.

Lemma prereq_keeps_files : keeps files run_check_prerequisites.
Proof.
  unfold run_check_prerequisites. apply keeps_bind; [apply keeps_get|intros s0].
  destruct (prereq s0).
  - apply keeps_bind; [apply keeps_modify; reflexivity|intros; apply keeps_ret].
  - apply keeps_bind; [apply keeps_print_files|intros; apply keeps_ret].
Qed.

Lemma load_keeps_files : keeps files load_implementation_context.
Proof.
  unfold load_implementation_context, self_feature_dir.
  apply keeps_bind; [apply keeps_bind; [apply keeps_get|intros; apply keeps_ret]|intros d].
  destruct (negb (dir_given d)); [apply keeps_raise|].
  apply keeps_bind; [apply keeps_modify; reflexivity|intros _].
  apply keeps_bind.
  { apply keeps_for_each. intros p. apply keeps_bind; [apply keeps_exists|intros b].
    destruct (negb b); [apply keeps_raise|apply keeps_ret]. }
  intros _. apply keeps_bind; [apply keeps_print_files|intros _].
  apply keeps_bind; [|intros; apply keeps_ret].
  apply keeps_for_each. intros p. apply keeps_bind; [apply keeps_exists|intros b].
  destruct b; [apply keeps_print_files|apply keeps_ret].
Qed.

(** ** The fields of a parsed record *)

Lemma in_rep_chr_upto cs fuel : forall lo h g s c st,
  In st (rep (matches (Chr cs)) fuel lo (Some h) g s c) ->
  exists w, s = w ++ fst st /\ length w <= h.
Proof.
  induction fuel as [|fuel IH]; intros lo h g s c st H.
  - simpl in H. destruct (lo =? 0); [|contradiction].
    destruct H as [<-|[]]. exists []. simpl. split; [reflexivity|lia].
  - assert (Hstop : In st (if lo =? 0 then [(s, c)] else []) ->
                    exists w, s = w ++ fst st /\ length w <= h).
    { destruct (lo =? 0); [|contradiction]. intros [<-|[]].
      exists []. simpl. split; [reflexivity|lia]. }
    destruct s as [|a s].
    + rewrite rep_chr_nil in H. apply Hstop. exact H.
    + rewrite rep_chr_cons in H. cbv zeta in H.
      assert (Hmore : In st (if hi_allows (Some h) && charset_mem cs a
                             then rep (matches (Chr cs)) fuel (pred lo) (hi_pred (Some h)) g s c
                             else []) ->
                      exists w, a :: s = w ++ fst st /\ length w <= h).
      { destruct h as [|h]; [intros []|]. cbn [hi_allows hi_pred andb pred].
        destruct (charset_mem cs a); [|intros []].
        intros Hin. apply IH in Hin. destruct Hin as [w [Hs Hl]].
        exists (a :: w). simpl. rewrite <- Hs. split; [reflexivity|lia]. }
      destruct g; apply in_app_or in H; destruct H; auto.
Qed.

Lemma app_inv_length {A} (w1 w2 r : list A) : w1 ++ r = w2 ++ r -> w1 = w2.
Proof. apply app_inv_tail. Qed.

(** The four groups of a match of the task pattern: the identifier is [T]
    and three digits, the parallel marker is empty or [[P]], the story
    marker is empty or [[US], digits, []], and the description is not
    empty and holds no newline. *)
Lemma task_match_groups s st :
  In st (matches task_regex s []) ->
  (exists d1 d2 d3, group_text (snd st) 1 = ["T"%char; d1; d2; d3] /\
                    is_digit d1 = true /\ is_digit d2 = true /\ is_digit d3 = true) /\
  (group_text (snd st) 2 = [] \/ group_text (snd st) 2 = txt "[P]") /\
  (group_text (snd st) 4 <> [] /\
   forallb (fun a => negb (Ascii.eqb a nl)) (group_text (snd st) 4) = true).
Proof.
  unfold task_regex. intros H.
  apply in_matches_seq in H. destruct H as [st1 [H1 H]]. apply in_matches_lit in H1.
  apply in_matches_seq in H. destruct H as [st2 [H2 H]]. apply in_matches_ws in H2.
  apply in_matches_seq in H. destruct H as [st3 [H3 H]]. apply in_matches_lit in H3.
  apply in_matches_seq in H. destruct H as [st4 [H4 H]]. apply in_matches_ws in H4.
  apply in_matches_seq in H. destruct H as [st5 [H5 H]]. apply in_matches_lit in H5.
  apply in_matches_seq in H. destruct H as [st6 [H6 H]]. apply in_matches_ws in H6.
  apply in_matches_seq in H. destruct H as [st7 [H7 H]].
  apply in_matches_seq in H. destruct H as [st8 [H8 H]]. apply in_matches_ws in H8.
  apply in_matches_seq in H. destruct H as [st9 [H9 H]].
  apply in_matches_seq in H. destruct H as [st10 [H10 H]]. apply in_matches_ws in H10.
  apply in_matches_seq in H. destruct H as [st11 [H11 H]].
  apply in_matches_seq in H. destruct H as [st12 [H12 H]]. apply in_matches_ws in H12.
  apply in_matches_group in H. destruct H as [st13 [H13 [_ Hc]]].
  apply in_matches_rep_chr in H13. destruct H13 as [Hc13 [d [Ed [Hd Hlen]]]].
  destruct H1 as [_ H1], H3 as [_ H3], H5 as [_ H5].
  (* the first group *)
  apply in_matches_group in H7. destruct H7 as [st7' [H7 [_ Hc7]]].
  apply in_matches_seq in H7. destruct H7 as [st7a [H7a H7]].
  apply in_matches_lit in H7a. destruct H7a as [E7a C7a].
  pose proof (in_rep_chr_upto _ _ _ _ _ _ _ _ H7) as [w' [Ew' Hup]].
  apply in_matches_rep_chr in H7. destruct H7 as [C7 [w [Ew [Hw Hlo]]]].
  assert (w' = w) by (apply (app_inv_tail (fst st7')); congruence). subst w'.
  assert (E8 : snd st8 = [(1, "T"%char :: w)]).
  { rewrite H8, Hc7, C7, C7a, H6, H5, H4, H3, H2, H1. rewrite E7a, Ew.
    change ("T"%char :: w ++ fst st7') with (("T"%char :: w) ++ fst st7').
    rewrite consumed_app. reflexivity. }
  clear H1 H2 H3 H4 H5 H6 H8 Hc7 C7 C7a E7a Ew.
  (* the optional second group *)
  assert (E10 : snd st10 = snd st8 \/ snd st10 = (2, txt "[P]") :: snd st8).
  { rewrite H10. apply in_matches_opt in H9. destruct H9 as [->|H9]; [left; reflexivity|].
    right. apply in_matches_group in H9. destruct H9 as [st9' [H9 [_ Hc9]]].
    apply in_matches_seq in H9. destruct H9 as [sa [Ha H9]]. apply in_matches_lit in Ha.
    apply in_matches_seq in H9. destruct H9 as [sb [Hb H9]]. apply in_matches_lit in Hb.
    apply in_matches_lit in H9.
    destruct Ha as [Ea Ca], Hb as [Eb Cb], H9 as [Ec Cc].
    rewrite Hc9, Cc, Cb, Ca, Ea, Eb, Ec.
    change ("["%char :: "P"%char :: "]"%char :: fst st9') with (txt "[P]" ++ fst st9').
    rewrite consumed_app. reflexivity. }
  (* the optional third group *)
  assert (E12 : snd st12 = snd st10 \/ exists m, snd st12 = (3, m) :: snd st10).
  { rewrite H12. apply in_matches_opt in H11. destruct H11 as [->|H11]; [left; reflexivity|].
    right. apply in_matches_group in H11. destruct H11 as [st' [H11 [_ Hc11]]].
    apply in_matches_seq in H11. destruct H11 as [sa [Ha H11]]. apply in_matches_lit in Ha.
    apply in_matches_seq in H11. destruct H11 as [sb [Hb H11]]. apply in_matches_lit in Hb.
    apply in_matches_seq in H11. destruct H11 as [sc [Hcc H11]]. apply in_matches_lit in Hcc.
    apply in_matches_seq in H11. destruct H11 as [sd [Hdd H11]].
    apply in_matches_rep_chr in Hdd. apply in_matches_lit in H11.
    destruct Ha as [_ Ca], Hb as [_ Cb], Hcc as [_ Cc], H11 as [_ Ce], Hdd as [Cd _].
    eexists. rewrite Hc11, Ce, Cd, Cc, Cb, Ca. reflexivity. }
  assert (Hfin : snd st = (4, d) :: snd st12).
  { rewrite Hc, Hc13, Ed, consumed_app. reflexivity. }
  assert (Hw3 : length w = 3) by lia.
  destruct w as [|d1 [|d2 [|d3 [|? ?]]]]; try discriminate Hw3.
  simpl in Hw. rewrite !andb_true_iff in Hw. destruct Hw as (D1 & D2 & D3 & _).
  unfold group_text. rewrite Hfin. split; [|split].
  - exists d1, d2, d3. repeat split; try assumption.
    destruct E12 as [->|[m ->]], E10 as [->| ->]; rewrite E8; reflexivity.
  - destruct E12 as [->|[m ->]], E10 as [->| ->]; rewrite E8; simpl; auto.
  - simpl. split; [intros ->; simpl in Hlen; lia|exact Hd].
Qed.

Lemma lstrip_head s a r : lstrip s = a :: r -> is_space a = false.
Proof.
  induction s as [|b s IH]; [discriminate|]. simpl.
  destruct (is_space b) eqn:E; [exact IH|].
  intros H. injection H as <- _. exact E.
Qed.

Lemma lstrip_suffix s : exists w, s = w ++ lstrip s.
Proof.
  induction s as [|b s [w IH]]; [exists []; reflexivity|]. simpl.
  destruct (is_space b); [|exists []; reflexivity].
  exists (b :: w). simpl. rewrite <- IH. reflexivity.
Qed.

(** [strip] keeps a middle part of the text. *)
Lemma strip_middle s : exists u w, s = u ++ strip s ++ w /\ lstrip s = strip s ++ w.
Proof.
  unfold strip. destruct (lstrip_suffix s) as [u Hu].
  destruct (lstrip_suffix (rev (lstrip s))) as [w Hw].
  assert (E : lstrip s = rev (lstrip (rev (lstrip s))) ++ rev w).
  { rewrite <- rev_app_distr, <- Hw, rev_involutive. reflexivity. }
  exists u, (rev w). split; [|exact E].
  rewrite <- E. exact Hu.
Qed.

Lemma strip_first s a r : strip s = a :: r -> is_space a = false.
Proof.
  intros H. destruct (strip_middle s) as [u [w [_ E]]].
  rewrite H in E. simpl in E. exact (lstrip_head _ _ _ E).
Qed.

Lemma strip_last s a r : strip s = r ++ [a] -> is_space a = false.
Proof.
  unfold strip. intros H. apply (f_equal (@rev ascii)) in H.
  rewrite rev_involutive, rev_app_distr in H. simpl in H.
  exact (lstrip_head _ _ _ H).
Qed.

Lemma strip_forallb (p : ascii -> bool) s :
  forallb p s = true -> forallb p (strip s) = true.
Proof.
  destruct (strip_middle s) as [u [w [E _]]]. intros H. rewrite E in H.
  rewrite !forallb_app, !andb_true_iff in H. tauto.
Qed.

Lemma parsed_from_match content t :
  In t (parse_tasks_content content) ->
  exists s st, In st (matches task_regex s []) /\ t = task_of_hit st.
Proof.
  intros Ht.
  destruct (scanned_from_matches _ _ (parse_scanned content) t Ht) as [s [st [Hm ->]]].
  exists s, st. split; [apply (match_here_in _ _ _ _ Hm)|reflexivity].
Qed.

(** The identifier of every parsed record is [T] followed by exactly three
    decimal digits. *)
Theorem parsed_id_shape (content : text) (t : task) :
  In t (parse_tasks_content content) ->
  exists d1 d2 d3, id t = ["T"%char; d1; d2; d3] /\
                   is_digit d1 = true /\ is_digit d2 = true /\ is_digit d3 = true.
Proof.
  intros Ht. destruct (parsed_from_match _ _ Ht) as [s [st [Hm ->]]].
  exact (proj1 (task_match_groups _ _ Hm)).
Qed.

Lemma parsed_id_shape_witness :
  In {| id := txt "T001"; description := txt "Write tests"; is_parallel := false;
        story := None; completed := false |} (parse_tasks_content plain_line) /\
  exists d1 d2 d3, txt "T001" = ["T"%char; d1; d2; d3] /\
                   is_digit d1 = true /\ is_digit d2 = true /\ is_digit d3 = true.
Proof.
  assert (H : In {| id := txt "T001"; description := txt "Write tests";
                    is_parallel := false; story := None; completed := false |}
                 (parse_tasks_content plain_line)) by (vm_compute; left; reflexivity).
  split; [exact H|]. exact (parsed_id_shape plain_line _ H).
Defined.

(** The description of every parsed record holds no newline and neither
    begins nor ends with a whitespace character; a new record is not
    completed. *)
Theorem parsed_description_shape (content : text) (t : task) :
  In t (parse_tasks_content content) ->
  forallb (fun a => negb (Ascii.eqb a nl)) (description t) = true /\
  (forall a r, description t = a :: r -> is_space a = false) /\
  (forall a r, description t = r ++ [a] -> is_space a = false) /\
  completed t = false.
Proof.
  intros Ht. destruct (parsed_from_match _ _ Ht) as [s [st [Hm ->]]].
  destruct (task_match_groups _ _ Hm) as (_ & _ & _ & Hd).
  change (description (task_of_hit st)) with (strip (group_text (snd st) 4)).
  split; [apply strip_forallb; exact Hd|].
  split; [apply strip_first|]. split; [apply strip_last|reflexivity].
Qed.

Lemma parsed_description_shape_witness :
  In {| id := txt "T001"; description := txt "Write tests"; is_parallel := false;
        story := None; completed := false |} (parse_tasks_content plain_line) /\
  forallb (fun a => negb (Ascii.eqb a nl)) (txt "Write tests") = true.
Proof.
  assert (H : In {| id := txt "T001"; description := txt "Write tests";
                    is_parallel := false; story := None; completed := false |}
                 (parse_tasks_content plain_line)) by (vm_compute; left; reflexivity).
  split; [exact H|]. exact (proj1 (parsed_description_shape plain_line _ H)).
Defined.

(** The phase of a parsed record is "setup", "foundational", "polish" or
    the number of its story; it is never "unknown", the value the grouping
    loop starts with. *)
Theorem parsed_phase (content : text) (t : task) :
  In t (parse_tasks_content content) ->
  (phase_of t = txt "setup" \/ phase_of t = txt "foundational" \/
   phase_of t = txt "polish" \/
   (story t = Some (phase_of t) /\ phase_of t <> [] /\
    forallb is_digit (phase_of t) = true)) /\
  phase_of t <> txt "unknown".
Proof.
  intros Ht.
  assert (H : phase_of t = txt "setup" \/ phase_of t = txt "foundational" \/
              phase_of t = txt "polish" \/
              (story t = Some (phase_of t) /\ phase_of t <> [] /\
               forallb is_digit (phase_of t) = true)).
  { destruct (story t) as [tag|] eqn:Es.
    - destruct (parsed_story content t tag Ht Es) as [Hne Hd].
      right. right. right. rewrite (phase_of_story t tag Es Hne).
      repeat split; assumption.
    - unfold phase_of, has_story. rewrite Es. cbn [negb andb].
      destruct (contains (txt "setup") (lower (description t))); [left; reflexivity|].
      destruct (contains (txt "foundational") (lower (description t)));
        [right; left; reflexivity|right; right; left; reflexivity]. }
  split; [exact H|].
  destruct H as [H|[H|[H|[_ [_ H]]]]]; try (rewrite H; discriminate).
  intros E. rewrite E in H. discriminate H.
Qed.

Lemma parsed_phase_witness :
  In {| id := txt "T001"; description := txt "Write tests"; is_parallel := false;
        story := None; completed := false |} (parse_tasks_content plain_line) /\
  phase_of {| id := txt "T001"; description := txt "Write tests"; is_parallel := false;
              story := None; completed := false |} <> txt "unknown".
Proof.
  assert (H : In {| id := txt "T001"; description := txt "Write tests";
                    is_parallel := false; story := None; completed := false |}
                 (parse_tasks_content plain_line)) by (vm_compute; left; reflexivity).
  split; [exact H|]. exact (proj2 (parsed_phase plain_line _ H)).
Defined.

(** ** More on the execution *)

Lemma mark_completed_idem t : mark_completed (mark_completed t) = mark_completed t.
Proof. reflexivity. Qed.

Lemma marks_other l : forall h a, ~ In a l -> task_at (marks l h) a = task_at h a.
Proof.
  unfold marks. induction l as [|x l IH]; intros h a Hn; [reflexivity|]. simpl.
  rewrite IH by (intros H; apply Hn; right; exact H).
  rewrite task_at_update.
  destruct (x =? a) eqn:E; [|reflexivity].
  apply Nat.eqb_eq in E. exfalso. apply Hn. left. exact E.
Qed.

Lemma marks_marked l : forall h a,
  task_at h a = mark_completed (task_at h a) ->
  task_at (marks l h) a = task_at h a.
Proof.
  unfold marks. induction l as [|x l IH]; intros h a H; [reflexivity|]. simpl.
  assert (E : task_at (update_at mark_completed x h) a = task_at h a).
  { rewrite task_at_update. destruct ((x =? a) && (a <? length h)); congruence. }
  rewrite IH; [exact E|]. rewrite E. exact H.
Qed.

Lemma marks_at l : forall h a,
  In a l -> a < length h -> task_at (marks l h) a = mark_completed (task_at h a).
Proof.
  induction l as [|x l IH]; intros h a Hin Ha; [contradiction|].
  change (marks (x :: l) h) with (marks l (update_at mark_completed x h)).
  destruct (Nat.eq_dec x a) as [->|Hne].
  - assert (E : task_at (update_at mark_completed a h) a = mark_completed (task_at h a)).
    { rewrite task_at_update, Nat.eqb_refl. apply Nat.ltb_lt in Ha. rewrite Ha. reflexivity. }
    rewrite marks_marked; [exact E|]. rewrite E. reflexivity.
  - destruct Hin as [E|Hin]; [congruence|].
    rewrite IH; [|exact Hin|rewrite update_at_length; exact Ha].
    rewrite task_at_update.
    destruct (x =? a) eqn:E; [apply Nat.eqb_eq in E; congruence|reflexivity].
Qed.

Lemma execute_flags (l : list addr) (s : state) :
  valid (store s) l ->
  exists s',
    execute_implementation l s = (Ok tt, s') /\
    files s' = files s /\ stdin s' = stdin s /\ self s' = self s /\
    length (store s') = length (store s) /\
    (forall a, In a l -> task_at (store s') a = mark_completed (task_at (store s) a)) /\
    (forall a, ~ In a l -> task_at (store s') a = task_at (store s) a).
Proof.
  intros Hv. rewrite (execute_ok l s Hv). eexists. split; [reflexivity|].
  cbn [files stdin self store with_run]. rewrite group_order_runs.
  repeat split.
  - apply marks_length.
  - intros a Ha. apply marks_at.
    + apply in_order_by_run. exact Ha.
    + unfold valid in Hv. rewrite Forall_forall in Hv. apply Hv. exact Ha.
  - intros a Ha. apply marks_other. rewrite in_order_by_run. exact Ha.
Qed.

(** The execution is simulated: it touches no file, reads no input and
    leaves the instance alone; in the store it sets the [completed] entry of
    the tasks of the list and changes nothing else, neither another entry
    of those tasks nor another task. *)
Theorem execute_changes_only_flags (l : list addr) (s : state) :
  valid (store s) l ->
  exists s',
    execute_implementation l s = (Ok tt, s') /\
    files s' = files s /\ stdin s' = stdin s /\ self s' = self s /\
    length (store s') = length (store s) /\
    (forall a, In a l -> task_at (store s') a = mark_completed (task_at (store s) a)) /\
    (forall a, ~ In a l -> task_at (store s') a = task_at (store s) a).
Proof. exact (execute_flags l s). Qed.

Lemma execute_changes_only_flags_witness :
  valid (store interleaved_store) [0; 1; 2] /\
  exists s',
    execute_implementation [0; 1; 2] interleaved_store = (Ok tt, s') /\
    files s' = files interleaved_store /\ stdin s' = stdin interleaved_store /\
    self s' = self interleaved_store /\
    length (store s') = length (store interleaved_store) /\
    (forall a, In a [0; 1; 2] ->
               task_at (store s') a = mark_completed (task_at (store interleaved_store) a)) /\
    (forall a, ~ In a [0; 1; 2] ->
               task_at (store s') a = task_at (store interleaved_store) a).
Proof.
  assert (H : valid (store interleaved_store) [0; 1; 2]) by (vm_compute; repeat constructor).
  split; [exact H|]. exact (execute_changes_only_flags [0; 1; 2] interleaved_store H).
Defined.

Lemma parallel_first_perm {A} (par : A -> bool) (g : list A) :
  Permutation (parallel_first par g) g.
Proof.
  unfold parallel_first. induction g as [|a g IH]; [constructor|]. simpl.
  destruct (par a); simpl.
  - constructor. exact IH.
  - apply Permutation_sym. apply Permutation_cons_app. apply Permutation_sym. exact IH.
Qed.

Lemma order_by_run_perm {A} (phase : A -> text) (par : A -> bool) (l : list A) :
  Permutation (order_by_run phase par l) l.
Proof.
  unfold order_by_run. rewrite <- (concat_runs phase l) at 2.
  induction (runs phase l) as [|g gs IH]; [constructor|]. simpl.
  apply Permutation_app; [apply parallel_first_perm|exact IH].
Qed.

(** Every task of the list is started exactly once: the tasks started are
    the tasks of the list, in another order at most. *)
Theorem every_task_started_once (l : list addr) (s : state) :
  valid (store s) l ->
  exists evs h',
    execute_implementation l s = (Ok tt, with_run s h' (stdout s ++ evs)) /\
    Permutation (started evs) (map ident (map (task_at (store s)) l)).
Proof.
  intros Hv. rewrite (execute_ok l s Hv). eexists. eexists. split; [reflexivity|].
  rewrite !started_app, started_groups, group_order_runs. simpl. rewrite app_nil_r.
  rewrite map_map. apply Permutation_map. apply order_by_run_perm.
Qed.

Lemma every_task_started_once_witness :
  valid (store interleaved_store) [0; 1; 2] /\
  exists evs h',
    execute_implementation [0; 1; 2] interleaved_store
    = (Ok tt, with_run interleaved_store h' (stdout interleaved_store ++ evs)) /\
    Permutation (started evs) (map ident (map (task_at (store interleaved_store)) [0; 1; 2])).
Proof.
  assert (H : valid (store interleaved_store) [0; 1; 2]) by (vm_compute; repeat constructor).
  split; [exact H|]. exact (every_task_started_once [0; 1; 2] interleaved_store H).
Defined.

(** ** Reading the tasks file *)

Lemma tasks_file_present_spec s :
  tasks_file_present s =
  (Ok (match tasks (self s) with
       | Some p => match fs_find p (files s) with Some _ => Some p | None => None end
       | None => None
       end), s).
Proof.
  unfold tasks_file_present, mbind, get, exists_, ret.
  destruct (tasks (self s)) as [p|]; [|reflexivity]. simpl.
  destruct (fs_find p (files s)); reflexivity.
Qed.

Lemma task_at_app_new h ts i : i < length ts -> task_at (h ++ ts) (length h + i) = nth i ts no_task.
Proof.
  intros Hi. unfold task_at. rewrite app_nth2 by lia. f_equal. lia.
Qed.

Lemma tasks_at_new h ts : map (task_at (h ++ ts)) (seq (length h) (length ts)) = ts.
Proof.
  apply nth_ext with (d := task_at (h ++ ts) 0) (d' := no_task).
  - rewrite length_map, length_seq. reflexivity.
  - intros i Hi. rewrite length_map, length_seq in Hi.
    rewrite map_nth, seq_nth by exact Hi. apply task_at_app_new. exact Hi.
Qed.

Lemma parse_tasks_ok s p content :
  tasks (self s) = Some p -> fs_find p (files s) = Some (File content) ->
  parse_tasks s =
  (Ok (seq (length (store s)) (length (parse_tasks_content content))),
   with_run s (store s ++ parse_tasks_content content)
              (stdout s ++ [EvParsing p; EvParsed (length (parse_tasks_content content))])).
Proof.
  intros Ht Hf. unfold parse_tasks.
  rewrite (mbind_ok _ _ _ _ _ (tasks_file_present_spec s)). rewrite Ht, Hf.
  unfold print at 1. unfold modify at 1. unfold mbind at 1.
  unfold read_text. unfold mbind at 1. unfold mbind at 1. unfold get at 1.
  cbn [files set_stdout]. rewrite Hf. unfold ret at 1.
  unfold alloc. unfold mbind at 1. unfold mbind at 1. unfold get at 1.
  unfold mbind at 1. unfold modify at 1. unfold ret at 1.
  unfold mbind at 1. unfold print, modify. unfold ret.
  cbn [store set_stdout set_store stdout self files stdin found_dir prereq git].
  rewrite length_seq. unfold with_run. rewrite <- app_assoc. reflexivity.
Qed.

Lemma parse_tasks_new (s : state) (p : path) (content : text) :
  tasks (self s) = Some p -> fs_find p (files s) = Some (File content) ->
  exists l s',
    parse_tasks s = (Ok l, s') /\
    store s' = store s ++ parse_tasks_content content /\
    files s' = files s /\ NoDup l /\ valid (store s') l /\
    (forall a, In a l -> length (store s) <= a) /\
    map (task_at (store s')) l = parse_tasks_content content.
Proof.
  intros Ht Hf. rewrite (parse_tasks_ok s p content Ht Hf).
  eexists. eexists. split; [reflexivity|]. cbn [store files with_run].
  repeat split.
  - apply seq_NoDup.
  - unfold valid. apply Forall_forall. intros a Ha. apply in_seq in Ha.
    rewrite length_app. lia.
  - intros a Ha. apply in_seq in Ha. lia.
  - apply tasks_at_new.
Qed.

(** Parsing succeeds exactly when the tasks file is set and is a text file;
    it then adds the parsed records to the store, as new dictionaries, and
    returns their addresses, changing no file. *)
Theorem parse_tasks_allocates (s : state) :
  ((exists l s', parse_tasks s = (Ok l, s')) <->
   (exists p content, tasks (self s) = Some p /\ fs_find p (files s) = Some (File content))) /\
  (forall p content,
     tasks (self s) = Some p -> fs_find p (files s) = Some (File content) ->
     exists l s',
       parse_tasks s = (Ok l, s') /\
       store s' = store s ++ parse_tasks_content content /\
       files s' = files s /\ NoDup l /\ valid (store s') l /\
       (forall a, In a l -> length (store s) <= a) /\
       map (task_at (store s')) l = parse_tasks_content content).
Proof.
  pose proof (parse_tasks_new s) as Hok.
  split; [|exact Hok]. split.
  - intros [l [s' H]]. unfold parse_tasks in H.
    rewrite (mbind_ok _ _ _ _ _ (tasks_file_present_spec s)) in H.
    destruct (tasks (self s)) as [p|]; [|discriminate H].
    destruct (fs_find p (files s)) as [n|] eqn:Ef; [|discriminate H].
    exists p. destruct n as [|content|].
    + exfalso. unfold print at 1 in H. unfold modify at 1 in H. unfold mbind at 1 in H.
      unfold read_text in H. unfold mbind at 1 in H. unfold mbind at 1 in H.
      unfold get at 1 in H. cbn [files set_stdout] in H. rewrite Ef in H. discriminate H.
    + exists content. auto.
    + exfalso. unfold print at 1 in H. unfold modify at 1 in H. unfold mbind at 1 in H.
      unfold read_text in H. unfold mbind at 1 in H. unfold mbind at 1 in H.
      unfold get at 1 in H. cbn [files set_stdout] in H. rewrite Ef in H. discriminate H.
  - intros [p [content [Ht Hf]]]. destruct (Hok p content Ht Hf) as [l [s' [H _]]].
    exists l, s'. exact H.
Qed.

Lemma parse_tasks_allocates_witness :
  exists l s',
    parse_tasks loaded_scenario = (Ok l, s') /\
    store s' = store loaded_scenario ++ parse_tasks_content scenario /\
    files s' = files loaded_scenario /\ NoDup l /\ valid (store s') l /\
    (forall a, In a l -> length (store loaded_scenario) <= a) /\
    map (task_at (store s')) l = parse_tasks_content scenario.
Proof.
  exact (proj2 (parse_tasks_allocates loaded_scenario) demo_tasks scenario eq_refl eq_refl).
Defined.

(** Parsing and then executing: every parsed record ends up completed and
    otherwise as it was parsed, and no file is touched. *)
Theorem parse_then_execute (s : state) (p : path) (content : text) :
  tasks (self s) = Some p -> fs_find p (files s) = Some (File content) ->
  exists l s',
    (l <- parse_tasks ;; execute_implementation l ;; ret l) s = (Ok l, s') /\
    files s' = files s /\
    map (task_at (store s')) l = map mark_completed (parse_tasks_content content).
Proof.
  intros Ht Hf.
  destruct (parse_tasks_new s p content Ht Hf)
    as (l & s1 & Hp & _ & Hfiles & _ & Hv & _ & Hmap).
  destruct (execute_flags l s1 Hv) as (s2 & He & Hf2 & _ & _ & _ & Hin & _).
  exists l, s2. rewrite (mbind_ok _ _ _ _ _ Hp). rewrite (mbind_ok _ _ _ _ _ He).
  split; [reflexivity|]. split; [congruence|].
  rewrite <- Hmap, map_map. apply map_ext_in. exact Hin.
Qed.

Lemma parse_then_execute_witness :
  exists l s',
    (l <- parse_tasks ;; execute_implementation l ;; ret l) loaded_scenario = (Ok l, s') /\
    files s' = files loaded_scenario /\
    map (task_at (store s')) l = map mark_completed (parse_tasks_content scenario).
Proof.
  exact (parse_then_execute loaded_scenario demo_tasks scenario eq_refl eq_refl).
Defined.

(** ** Writing the tasks file back *)

Lemma fs_find_put_other p q n f : p <> q -> fs_find q (fs_put p n f) = fs_find q f.
Proof.
  intros Hne. induction f as [|[k m] f IH]; simpl.
  - destruct (text_eqb q p) eqn:E; [|reflexivity].
    apply text_eqb_eq in E. congruence.
  - destruct (text_eqb p k) eqn:Ep; simpl.
    + apply text_eqb_eq in Ep. subst k.
      destruct (text_eqb q p) eqn:E; [|reflexivity].
      apply text_eqb_eq in E. congruence.
    + destruct (text_eqb q k); [reflexivity|exact IH].
Qed.

Lemma fs_find_put_same p n f : fs_find p (fs_put p n f) = Some n.
Proof.
  induction f as [|[k m] f IH]; simpl.
  - rewrite text_eqb_refl. reflexivity.
  - destruct (text_eqb p k) eqn:Ep; simpl; rewrite Ep; [reflexivity|exact IH].
Qed.


Lemma re_sub_state pattern replacement content s :
  snd (re_sub pattern replacement content s) = s.
Proof.
  unfold re_sub. destruct (compile pattern) as [[r n]| |]; try reflexivity.
  destruct (contains _ replacement); reflexivity.
Qed.

Lemma update_loop_state l : forall content s, snd (update_loop l content s) = s.
Proof.
  induction l as [|a l IH]; intros content s; [reflexivity|].
  simpl. unfold mbind at 1. pose proof (keeps_deref (fun x => x) a s) as Hd.
  destruct (deref a s) as [[t|e|] s1]; simpl in Hd; subst s1; try reflexivity.
  destruct (completed t); [|apply IH].
  unfold mbind. pose proof (re_sub_state (update_pattern t) (update_replacement t) content s) as Hr.
  destruct (re_sub _ _ content s) as [[c'|e|] s1]; simpl in Hr; subst s1; try reflexivity.
  apply IH.
Qed.

Lemma update_cases l s :
  exists r s', update_tasks_file l s = (r, s') /\
    (s' = s \/
     exists p c', tasks (self s) = Some p /\ r = Ok tt /\
                  s' = say EvFileUpdated (set_files (fs_put p (File c') (files s)) s)).
Proof.
  unfold update_tasks_file.
  rewrite (mbind_ok _ _ _ _ _ (tasks_file_present_spec s)).
  destruct (tasks (self s)) as [p|] eqn:Et;
    [|eexists; eexists; split; [reflexivity|left; reflexivity]].
  destruct (fs_find p (files s)) as [n|] eqn:Ef;
    [|eexists; eexists; split; [reflexivity|left; reflexivity]].
  unfold read_text. unfold mbind at 1. unfold mbind at 1. unfold get at 1. rewrite Ef.
  destruct n as [|content|];
    [eexists; eexists; split; [reflexivity|left; reflexivity]|
    |eexists; eexists; split; [reflexivity|left; reflexivity]].
  unfold ret at 1. unfold mbind at 1.
  pose proof (update_loop_state l content s) as Hs.
  destruct (update_loop l content s) as [[c'|e|] s1]; simpl in Hs; subst s1;
    [|eexists; eexists; split; [reflexivity|left; reflexivity]
     |eexists; eexists; split; [reflexivity|left; reflexivity]].
  unfold write_text. unfold mbind at 1. unfold mbind at 1. unfold get at 1. rewrite Ef.
  eexists. eexists. split; [reflexivity|]. right. exists p, c'. auto.
Qed.

(** The update is all or nothing and touches one file: unless it ends
    normally no file is changed, and in any case every path other than the
    tasks file holds what it held; the store and the input are left
    alone. *)
Theorem update_writes_only_tasks_file (l : list addr) (s : state) :
  (fst (update_tasks_file l s) <> Ok tt -> files (snd (update_tasks_file l s)) = files s) /\
  (forall q, tasks (self s) <> Some q ->
             fs_find q (files (snd (update_tasks_file l s))) = fs_find q (files s)) /\
  store (snd (update_tasks_file l s)) = store s /\
  stdin (snd (update_tasks_file l s)) = stdin s.
Proof.
  destruct (update_cases l s) as [r [s' [E [->|[p [c' [Et [-> ->]]]]]]]]; rewrite E; simpl.
  - repeat split; reflexivity.
  - repeat split.
    + intros H. congruence.
    + intros q Hq. apply fs_find_put_other. congruence.
Qed.



Lemma parse_after_plain_text_witness :
  Forall (fun a => a <> "-"%char) quoted_pre /\
  parse_tasks_content (quoted_pre ++ plain_line) = parse_tasks_content plain_line.
Proof.
  assert (H : Forall (fun a => a <> "-"%char) quoted_pre).
  { repeat constructor; intros E; discriminate E. }
  split; [exact H|]. exact (parse_after_plain_text quoted_pre plain_line H).
Defined.

Lemma load_resets_tasks_witness :
  exists s', load_implementation_context (prepared override_args (initial override_files))
             = (Ok true, s') /\
             tasks (self (prepared override_args (initial override_files))) = Some other_tasks /\
             tasks (self s') = Some demo_tasks.
Proof.
  assert (H : load_implementation_context (prepared override_args (initial override_files))
              = (Ok true, snd (load_implementation_context
                                 (prepared override_args (initial override_files)))))
    by (apply by_pairing; vm_compute; reflexivity).
  eexists. split; [exact H|]. split; [reflexivity|].
  exact (load_resets_tasks _ _ _ H).
Defined.

(** ** Loading the context *)

Lemma exists_spec p s : exists_ p s = (Ok (present p s), s).
Proof. reflexivity. Qed.

Lemma optional_files_ok d l : forall s,
  exists s',
    for_each l (fun name => present <- exists_ (join d name) ;;
                            if present then print (EvOptionalFile (join d name)) else ret tt) s
    = (Ok tt, s').
Proof.
  induction l as [|n l IH]; intros s; [eexists; reflexivity|].
  cbn [for_each]. unfold mbind at 1. unfold mbind at 1. rewrite exists_spec.
  destruct (present (join d n) s).
  - unfold print, modify. apply IH.
  - unfold ret at 1. apply IH.
Qed.

Lemma load_result s :
  load_implementation_context s =
  if dir_given (feature_dir (self s)) then
    if present (in_dir "plan.md" s) s then
      if present (in_dir "tasks.md" s) s then
        (for_each [txt "data-model.md"; txt "research.md"; txt "quickstart.md"]
           (fun name =>
              present <- exists_ (join (the_dir s) name) ;;
              if present then print (EvOptionalFile (join (the_dir s) name)) else ret tt) ;;
         ret true)
          (say (EvLoading (in_dir "plan.md" s) (in_dir "tasks.md" s)) (paths_set s))
      else (Raise FileNotFoundError, paths_set s)
    else (Raise FileNotFoundError, paths_set s)
  else (Raise ValueError, s).
Proof.
  unfold load_implementation_context, self_feature_dir.
  unfold mbind at 1. unfold mbind at 1. unfold get at 1. unfold ret at 1.
  destruct (dir_given (feature_dir (self s))); [|reflexivity]. cbn [negb].
  unfold mbind at 1. unfold modify at 1. fold (the_dir s).
  change (set_self _ s) with (paths_set s).
  cbn [for_each]. unfold mbind at 1. unfold mbind at 1. unfold mbind at 1.
  rewrite exists_spec.
  change (present (join (the_dir s) (txt "plan.md")) (paths_set s))
    with (present (in_dir "plan.md" s) s).
  destruct (present (in_dir "plan.md" s) s); [|reflexivity].
  cbn [negb]. unfold ret at 1.
  unfold mbind at 1. unfold mbind at 1. rewrite exists_spec.
  change (present (join (the_dir s) (txt "tasks.md")) (paths_set s))
    with (present (in_dir "tasks.md" s) s).
  destruct (present (in_dir "tasks.md" s) s); [|reflexivity].
  reflexivity.
Qed.

(** Loading the context needs the feature directory, plan.md and tasks.md
    and nothing else: without a feature directory it raises [ValueError],
    without one of the two files [FileNotFoundError], and otherwise it ends
    normally, whether or not spec.md and the other documents exist. *)
Theorem load_needs_plan_and_tasks (s : state) :
  match dir_given (feature_dir (self s)),
        present (in_dir "plan.md" s) s && present (in_dir "tasks.md" s) s with
  | false, _ => load_implementation_context s = (Raise ValueError, s)
  | true, false => fst (load_implementation_context s) = Raise FileNotFoundError
  | true, true => fst (load_implementation_context s) = Ok true
  end.
Proof.
  rewrite load_result.
  destruct (dir_given (feature_dir (self s))); [|reflexivity].
  destruct (present (in_dir "plan.md" s) s); [|reflexivity].
  destruct (present (in_dir "tasks.md" s) s); [|reflexivity].
  cbn [andb].
  match goal with
  | |- fst (mbind (for_each ?l ?f) _ ?st) = _ =>
      destruct (optional_files_ok (the_dir s) l st) as [s' E]
  end.
  rewrite (mbind_ok _ _ _ _ _ E). reflexivity.
Qed.

(** ** The checklist gate *)



Lemma all_pass_spec rows :
  forallb (fun row : text * stats => negb (0 <? incomplete_items (snd row))) rows
  = all_pass rows.
Proof.
  unfold all_pass. induction rows as [|row rows IH]; [reflexivity|].
  simpl. rewrite IH. unfold file_passes.
  destruct (incomplete_items (snd row)); reflexivity.
Qed.

Lemma mbind_ext {A B} (m : M A) (k1 k2 : A -> M B) s :
  (forall a s', k1 a s' = k2 a s') -> mbind m k1 s = mbind m k2 s.
Proof.
  intros H. unfold mbind. destruct (m s) as [[a|e|] s']; [apply H|reflexivity|reflexivity].
Qed.

Lemma check_result s :
  check_checklists_status s =
  if dir_given (feature_dir (self s)) then
    if present (in_dir "checklists" s) s then
      (checklist_status <- scan_checklists (checklists_of s) ;;
       print EvTableHeader ;;
       for_each checklist_status (fun row => print (row_event row)) ;;
       if all_pass checklist_status then print EvAllPassed ;; ret true
       else
         print EvSomeIncomplete ;;
         line <- input ;;
         if affirmative line then ret true else print EvUserStopped ;; ret false)
        (checklists_set s)
    else (Ok true, say EvNoChecklistsDir (checklists_set s))
  else (Ok true, say EvNoFeatureDir s).
Proof.
  unfold check_checklists_status, self_feature_dir.
  unfold mbind at 1. unfold mbind at 1. unfold get at 1. unfold ret at 1.
  destruct (dir_given (feature_dir (self s))); [|reflexivity]. cbn [negb].
  unfold mbind at 1. unfold modify at 1. fold (the_dir s).
  change (set_self _ s) with (checklists_set s).
  unfold mbind at 1. rewrite exists_spec.
  change (present (join (the_dir s) (txt "checklists")) (checklists_set s))
    with (present (in_dir "checklists" s) s).
  destruct (present (in_dir "checklists" s) s); [|reflexivity]. cbn [negb].
  unfold mbind at 1. unfold get at 1.
  change (glob_md (join (the_dir s) (txt "checklists")) (files (checklists_set s)))
    with (checklists_of s).
  apply mbind_ext. intros rows s1.
  apply mbind_ext. intros u s2.
  apply mbind_ext. intros u' s3.
  rewrite all_pass_spec.
  destruct (all_pass rows); reflexivity.
Qed.

(** Without a feature directory, or without a [checklists] directory in it, the checklist gate lets the run go on:
    it returns [True], and it neither asks the user nor touches a file. *)
Theorem checklists_skipped (s : state)
  (H : dir_given (feature_dir (self s)) = false
       \/ present (in_dir "checklists" s) s = false) :
  fst (check_checklists_status s) = Ok true
  /\ stdin (snd (check_checklists_status s)) = stdin s
  /\ files (snd (check_checklists_status s)) = files s.
Proof.
  rewrite check_result.
  destruct (dir_given (feature_dir (self s))).
  - destruct H as [H|H]; [discriminate H|]. rewrite H. repeat split.
  - repeat split.
Qed.

Lemma checklists_skipped_witness :
  fst (check_checklists_status scenario_store) = Ok true
  /\ stdin (snd (check_checklists_status scenario_store)) = stdin scenario_store
  /\ files (snd (check_checklists_status scenario_store)) = files scenario_store.
Proof.
  apply (checklists_skipped scenario_store). right. vm_compute. reflexivity.
Defined.



(** ** The set-up stage *)

Lemma ensures_bind {A B} (m : M A) (k : A -> M B) s (Q : A -> state -> Prop) R :
  ensures m s Q -> (forall a s', Q a s' -> ensures (k a) s' R) ->
  ensures (mbind m k) s R.
Proof.
  intros [a [s' [E HQ]]] Hk. destruct (Hk a s' HQ) as [b [s'' [E' HR]]].
  exists b, s''. split; [|exact HR]. unfold mbind. rewrite E. exact E'.
Qed.

Lemma ensures_ret {A} (a : A) s (Q : A -> state -> Prop) : Q a s -> ensures (ret a) s Q.
Proof. intros H. exists a, s. split; [reflexivity|exact H]. Qed.

Lemma ensures_print e s (Q : unit -> state -> Prop) :
  Q tt (say e s) -> ensures (print e) s Q.
Proof. intros H. exists tt, (say e s). split; [reflexivity|exact H]. Qed.

Lemma ensures_weaken {A} (m : M A) s (Q R : A -> state -> Prop) :
  ensures m s Q -> (forall a s', Q a s' -> R a s') -> ensures m s R.
Proof. intros [a [s' [E HQ]]] H. exists a, s'. split; [exact E|apply H, HQ]. Qed.

Lemma ignored_put c f : ignored (fs_put gitignore_path (File c) f) = c.
Proof. unfold ignored. rewrite fs_find_put_same. reflexivity. Qed.

Lemma gitignore_is_text_put c f :
  gitignore_is_text (fs_put gitignore_path (File c) f) = true.
Proof. unfold gitignore_is_text. rewrite fs_find_put_same. reflexivity. Qed.

Lemma setup_inv_say s0 old s e : setup_inv s0 old s -> setup_inv s0 old (say e s).
Proof. intros H. exact H. Qed.

Lemma setup_inv_put s0 old s c :
  setup_inv s0 old s ->
  setup_inv s0 c (set_files (fs_put gitignore_path (File c) (files s)) s).
Proof.
  intros [Hs [Ho [Ht Hi]]]. unfold setup_inv. cbn [self files set_files].
  repeat split.
  - exact Hs.
  - intros q Hq. rewrite fs_find_put_other; [apply Ho, Hq|congruence].
  - apply gitignore_is_text_put.
  - apply ignored_put.
Qed.

(** Appending to [.gitignore] when it is text or missing. *)
Lemma append_gitignore s0 old s block :
  setup_inv s0 old s ->
  ensures (append_text gitignore_path block) s (fun _ => setup_inv s0 (old ++ block)).
Proof.
  intros H. pose proof H as [Hs [Ho [Ht Hi]]].
  unfold ensures, append_text, mbind, get. cbv beta iota.
  unfold gitignore_is_text in Ht. unfold ignored in Hi.
  destruct (fs_find gitignore_path (files s)) as [[|g|]|]; try discriminate Ht.
  - subst old. exists tt. eexists. split; [reflexivity|]. apply (setup_inv_put _ _ _ _ H).
  - subst old. exists tt. eexists. split; [reflexivity|]. apply (setup_inv_put _ _ _ _ H).
Qed.

Lemma block_stage s0 old s (b : bool) (create : M unit) block e :
  create = (append_text gitignore_path block ;; print e) ->
  setup_inv s0 old s ->
  ensures (if b then create else ret tt) s
          (fun _ => setup_inv s0 (old ++ block_if b block)).
Proof.
  intros -> H. destruct b; cbn [block_if].
  - apply (ensures_bind _ _ _ _ _ (append_gitignore _ _ _ block H)).
    intros [] s' H'. apply ensures_print. exact H'.
  - apply ensures_ret. rewrite app_nil_r. exact H.
Qed.

Lemma ensures_get {B} (k : state -> M B) s R :
  ensures (k s) s R -> ensures (mbind get k) s R.
Proof. intros H. exact H. Qed.

Lemma ensures_exists {B} p (k : bool -> M B) s R :
  ensures (k (present p s)) s R -> ensures (mbind (exists_ p) k) s R.
Proof. intros H. exact H. Qed.

Lemma ensures_print_bind {B} e (k : unit -> M B) s R :
  ensures (k tt) (say e s) R -> ensures (mbind (print e) k) s R.
Proof. intros H. exact H. Qed.

Lemma ensures_read {B} p c (k : text -> M B) s R :
  fs_find p (files s) = Some (File c) ->
  ensures (k c) s R -> ensures (mbind (read_text p) k) s R.
Proof.
  intros Hc H.
  assert (read_text p s = (Ok c, s)) as E.
  { unfold read_text, mbind, get. rewrite Hc. reflexivity. }
  unfold ensures. rewrite (mbind_ok _ _ _ _ _ E). exact H.
Qed.

Lemma setup_inv_start s : gitignore_is_text (files s) = true ->
  setup_inv s (ignored (files s)) s.
Proof. intros H. repeat split. exact H. Qed.

(** In a git repository a missing [.gitignore] is created empty. *)
Lemma gitignore_stage s0 old s (is_git_repo : bool) :
  setup_inv s0 old s ->
  ensures (if is_git_repo then
             present <- exists_ gitignore_path ;;
             if negb present
             then modify (fun s => set_files (fs_put gitignore_path (File []) (files s)) s) ;;
                  print EvGitignoreCreated
             else print EvGitignoreVerified
           else ret tt) s
          (fun _ => setup_inv s0 old).
Proof.
  intros H. destruct is_git_repo; [|apply ensures_ret, H].
  apply ensures_exists. unfold present.
  destruct (fs_find gitignore_path (files s)) as [n|] eqn:E; cbn [negb].
  - apply ensures_print, H.
  - assert (old = []) as ->.
    { destruct H as [_ [_ [_ Hi]]]. unfold ignored in Hi. rewrite E in Hi. congruence. }
    exists tt. eexists. split; [reflexivity|].
    apply (setup_inv_say _ _ _ _ (setup_inv_put _ _ _ [] H)).
Qed.

Lemma setup_ensures s p c :
  impl_plan (self s) = Some p -> p <> gitignore_path ->
  fs_find p (files s) = Some (File c) ->
  gitignore_is_text (files s) = true ->
  ensures project_setup_verification s
          (fun a s' => a = true
                       /\ setup_inv s (ignored (files s) ++ ignore_blocks (lower c)) s').
Proof.
  intros Hp Hne Hc Ht. unfold project_setup_verification.
  apply ensures_print_bind. apply ensures_get.
  pose proof (setup_inv_say _ _ _ EvSetupStart (setup_inv_start s Ht)) as H0.
  apply (ensures_bind _ _ _ (fun _ => setup_inv s (ignored (files s)))).
  { cbn [git say set_stdout]. destruct (git s) as [b|].
    - apply ensures_ret, H0.
    - apply (ensures_bind _ _ _ (fun _ => setup_inv s (ignored (files s)))).
      + apply ensures_print, H0.
      + intros _ s' H'. apply ensures_ret, H'. }
  intros is_git_repo s1 H1.
  apply (ensures_bind _ _ _ _ _ (gitignore_stage _ _ _ is_git_repo H1)).
  intros _ s2 H2. apply ensures_get.
  pose proof H2 as [Hs [Ho _]].
  rewrite Hs, Hp.
  apply (ensures_bind _ _ _ (fun a s' => a = p /\ s' = s2)).
  { apply ensures_ret. split; reflexivity. }
  intros a s' [-> ->].
  apply ensures_exists. unfold present. rewrite (Ho p Hne), Hc.
  apply (ensures_bind _ _ _ (fun _ => setup_inv s (ignored (files s) ++ ignore_blocks (lower c)))).
  - apply (ensures_read p c); [rewrite (Ho p Hne); exact Hc|]. cbv zeta.
    unfold ignore_blocks. rewrite !app_assoc.
    apply (ensures_bind _ _ _ _ _
             (block_stage _ _ _ _ _ python_block _ eq_refl H2)).
    intros _ s3 H3.
    apply (ensures_bind _ _ _ _ _
             (block_stage _ _ _ _ _ js_block _ eq_refl H3)).
    intros _ s4 H4.
    apply (block_stage _ _ _ _ _ java_block _ eq_refl H4).
  - intros _ s3 H3.
    apply (ensures_bind _ _ _ (fun _ => setup_inv s (ignored (files s) ++ ignore_blocks (lower c)))).
    + apply ensures_print, H3.
    + intros _ s4 H4. apply ensures_ret. split; [reflexivity|exact H4].
Qed.

Section SetupKeeps.

Context {X : Type} (proj : state -> X).
Hypothesis proj_say : forall e s, proj (say e s) = proj s.
Hypothesis proj_put : forall c s,
  proj (set_files (fs_put gitignore_path (File c) (files s)) s) = proj s.

Lemma keeps_print e : keeps proj (print e).
Proof. intros s. apply proj_say. Qed.

Lemma keeps_append block : keeps proj (append_text gitignore_path block).
Proof.
  unfold append_text. apply keeps_bind; [apply keeps_get|]. intros s.
  destruct (fs_find gitignore_path (files s)) as [[|g|]|].
  - apply keeps_raise.
  - apply keeps_modify. intros s'. apply proj_put.
  - apply keeps_ret.
  - apply keeps_modify. intros s'. apply proj_put.
Qed.

Lemma keeps_block (b : bool) block e :
  keeps proj (if b then append_text gitignore_path block ;; print e else ret tt).
Proof.
  destruct b; [|apply keeps_ret].
  apply keeps_bind; [apply keeps_append|]. intros _. apply keeps_print.
Qed.

Lemma setup_keeps : keeps proj project_setup_verification.
Proof.
  unfold project_setup_verification.
  apply keeps_bind; [apply keeps_print|]. intros _.
  apply keeps_bind; [apply keeps_get|]. intros s.
  apply keeps_bind.
  { destruct (git s); [apply keeps_ret|].
    apply keeps_bind; [apply keeps_print|]. intros _. apply keeps_ret. }
  intros is_git_repo. apply keeps_bind.
  { destruct is_git_repo; [|apply keeps_ret].
    apply keeps_bind; [apply keeps_exists|]. intros present.
    destruct present; cbn [negb]; [apply keeps_print|].
    apply keeps_bind; [|intros _; apply keeps_print].
    apply keeps_modify. intros s'. apply proj_put. }
  intros _. apply keeps_bind; [apply keeps_get|]. intros s'.
  apply keeps_bind.
  { destruct (impl_plan (self s')); [apply keeps_ret|apply keeps_raise]. }
  intros plan_p. apply keeps_bind; [apply keeps_exists|]. intros plan_present.
  apply keeps_bind.
  { destruct plan_present; [|apply keeps_ret].
    apply keeps_bind; [apply keeps_read|]. intros content. cbv zeta.
    apply keeps_bind; [apply keeps_block|]. intros _.
    apply keeps_bind; [apply keeps_block|]. intros _.
    apply keeps_block. }
  intros _. apply keeps_bind; [apply keeps_print|]. intros _. apply keeps_ret.
Qed.

End SetupKeeps.

(** The set-up stage touches nothing but [.gitignore]: however it ends,
    every other path holds what it held, and the task records and the
    pending input are as before. *)
Theorem setup_touches_only_gitignore (s : state) :
  (forall q, q <> gitignore_path ->
     fs_find q (files (snd (project_setup_verification s))) = fs_find q (files s))
  /\ store (snd (project_setup_verification s)) = store s
  /\ stdin (snd (project_setup_verification s)) = stdin s.
Proof.
  repeat split.
  - intros q Hq.
    apply (setup_keeps (fun s => fs_find q (files s))); [reflexivity|].
    intros c s'. cbn [files set_files]. apply fs_find_put_other. congruence.
  - apply (setup_keeps store); reflexivity.
  - apply (setup_keeps stdin); reflexivity.
Qed.

(** With a readable plan and a [.gitignore] that is text or missing, the
    set-up stage ends normally and appends to [.gitignore] one block for
    each technology the lowercased plan mentions, in the order Python,
    Node.js, Java; what [.gitignore] held stays in front. *)
Theorem setup_appends_blocks (s : state) (p : path) (c : text)
  (Hp : impl_plan (self s) = Some p) (Hne : p <> gitignore_path)
  (Hc : fs_find p (files s) = Some (File c))
  (Ht : gitignore_is_text (files s) = true) :
  fst (project_setup_verification s) = Ok true
  /\ ignored (files (snd (project_setup_verification s)))
     = ignored (files s) ++ ignore_blocks (lower c).
Proof.
  destruct (setup_ensures s p c Hp Hne Hc Ht) as [a [s' [E [-> [_ [_ [_ Hi]]]]]]].
  rewrite E. split; [reflexivity|exact Hi].
Qed.

Lemma setup_appends_blocks_witness :
  fst (project_setup_verification (planned "Python 3.11 with pip")) = Ok true
  /\ ignored (files (snd (project_setup_verification (planned "Python 3.11 with pip"))))
     = ignored (files (planned "Python 3.11 with pip"))
       ++ ignore_blocks (lower (txt "Python 3.11 with pip")).
Proof.
  apply (setup_appends_blocks (planned "Python 3.11 with pip")
           (join demo_dir (txt "plan.md")) (txt "Python 3.11 with pip")).
  - vm_compute. reflexivity.
  - intros H. vm_compute in H. discriminate H.
  - vm_compute. reflexivity.
  - vm_compute. reflexivity.
Defined.

(** The set-up stage is not idempotent: run twice, it appends the same
    blocks twice. *)
Theorem setup_twice_appends_twice (s : state) (p : path) (c : text)
  (Hp : impl_plan (self s) = Some p) (Hne : p <> gitignore_path)
  (Hc : fs_find p (files s) = Some (File c))
  (Ht : gitignore_is_text (files s) = true) :
  ensures (project_setup_verification ;; project_setup_verification) s
    (fun _ s' => ignored (files s')
                 = ignored (files s) ++ ignore_blocks (lower c) ++ ignore_blocks (lower c)).
Proof.
  apply (ensures_bind _ _ _ _ _ (setup_ensures s p c Hp Hne Hc Ht)).
  intros a s1 [_ [Hs [Ho [Ht1 Hi]]]].
  assert (Hp1 : impl_plan (self s1) = Some p) by (rewrite Hs; exact Hp).
  assert (Hc1 : fs_find p (files s1) = Some (File c)) by (rewrite (Ho p Hne); exact Hc).
  apply (ensures_weaken _ _ _ _ (setup_ensures s1 p c Hp1 Hne Hc1 Ht1)).
  intros a' s2 [_ [_ [_ [_ Hi2]]]].
  rewrite Hi2, Hi, app_assoc. reflexivity.
Qed.

Lemma setup_twice_appends_twice_witness :
  ensures (project_setup_verification ;; project_setup_verification)
    (planned "Python 3.11 with pip")
    (fun _ s' => ignored (files s')
                 = ignored (files (planned "Python 3.11 with pip"))
                   ++ ignore_blocks (lower (txt "Python 3.11 with pip"))
                   ++ ignore_blocks (lower (txt "Python 3.11 with pip"))).
Proof.
  apply (setup_twice_appends_twice (planned "Python 3.11 with pip")
           (join demo_dir (txt "plan.md")) (txt "Python 3.11 with pip")).
  - vm_compute. reflexivity.
  - intros H. vm_compute in H. discriminate H.
  - vm_compute. reflexivity.
  - vm_compute. reflexivity.
Defined.

Lemma contains_prefix (p r s : text) :
  contains (p ++ r) s = true -> contains p s = true.
Proof.
  rewrite !contains_spec. intros [u [w ->]]. exists u, (r ++ w).
  rewrite <- app_assoc. reflexivity.
Qed.

(** A plan that mentions JavaScript is taken for a Java project as well:
    it gets the Node.js block and the Java block. *)
Theorem javascript_plan_gets_java_block (plan_content : text)
  (H : contains (txt "javascript") plan_content = true) :
  ignore_blocks plan_content
  = block_if (mentions plan_content ["python"; "pip"; "venv"]%string) python_block
    ++ js_block ++ java_block.
Proof.
  unfold ignore_blocks.
  assert (Hjs : mentions plan_content
                  ["node"; "npm"; "yarn"; "javascript"; "typescript"]%string = true).
  { unfold mentions. cbn [existsb]. rewrite H, !orb_true_r. reflexivity. }
  assert (Hjava : mentions plan_content ["java"; "gradle"; "maven"]%string = true).
  { unfold mentions. cbn [existsb].
    rewrite (contains_prefix (txt "java") (txt "script") plan_content H). reflexivity. }
  rewrite Hjs, Hjava. reflexivity.
Qed.

Lemma javascript_plan_gets_java_block_witness :
  ignore_blocks (lower (txt "A JavaScript front end"))
  = block_if (mentions (lower (txt "A JavaScript front end"))
                ["python"; "pip"; "venv"]%string) python_block
    ++ js_block ++ java_block.
Proof.
  apply (javascript_plan_gets_java_block (lower (txt "A JavaScript front end"))).
  vm_compute. reflexivity.
Defined.

(** ** The run as a whole *)

Lemma prereq_ok s :
  exists docs, run_check_prerequisites s = (Ok docs, snd (run_check_prerequisites s)).
Proof.
  unfold run_check_prerequisites, mbind, get. destruct (prereq s) as [r|].
  - exists (report_docs r). reflexivity.
  - exists []. reflexivity.
Qed.

Section Known.

Lemma known_ret {A} (a : A) : known (ret a).
Proof. intros s H. discriminate H. Qed.

Lemma known_raise {A} e : known (@raise A e).
Proof. intros s H. discriminate H. Qed.

Lemma known_get : known get.
Proof. intros s H. discriminate H. Qed.

Lemma known_modify f : known (modify f).
Proof. intros s H. discriminate H. Qed.

Lemma known_print e : known (print e).
Proof. intros s H. discriminate H. Qed.

Lemma known_exists p : known (exists_ p).
Proof. intros s H. discriminate H. Qed.

Lemma known_bind {A B} (m : M A) (k : A -> M B) :
  known m -> (forall a, known (k a)) -> known (mbind m k).
Proof.
  intros Hm Hk s. unfold mbind. specialize (Hm s).
  destruct (m s) as [[a|e|] s1]; simpl in *.
  - apply Hk.
  - discriminate.
  - exfalso. apply Hm. reflexivity.
Qed.

Lemma known_for_each {A} (f : A -> M unit) (l : list A) :
  (forall a, known (f a)) -> known (for_each l f).
Proof.
  intros H. induction l as [|a l IH]; [apply known_ret|].
  simpl. apply known_bind; [apply H|intros _; exact IH].
Qed.

Lemma known_scan_checklists l : known (scan_checklists l).
Proof.
  induction l as [|[name n] l IH]; [apply known_ret|].
  simpl. apply known_bind.
  - destruct n; [apply known_raise|apply known_ret|apply known_raise].
  - intros c. apply known_bind; [exact IH|intros r; apply known_ret].
Qed.

Lemma known_input : known input.
Proof.
  unfold input. apply known_bind; [apply known_print|intros _].
  apply known_bind; [apply known_get|intros s].
  destruct (stdin s); [apply known_raise|].
  apply known_bind; [apply known_modify|intros _; apply known_ret].
Qed.

Lemma check_known : known check_checklists_status.
Proof.
  unfold check_checklists_status, self_feature_dir.
  apply known_bind; [apply known_bind; [apply known_get|intros; apply known_ret]|intros d].
  destruct (negb (dir_given d)).
  { apply known_bind; [apply known_print|intros; apply known_ret]. }
  apply known_bind; [apply known_modify|intros _].
  apply known_bind; [apply known_exists|intros present].
  destruct (negb present).
  { apply known_bind; [apply known_print|intros; apply known_ret]. }
  apply known_bind; [apply known_get|intros s0].
  apply known_bind; [apply known_scan_checklists|intros rows].
  apply known_bind; [apply known_print|intros _].
  apply known_bind; [apply known_for_each; intros; apply known_print|intros _].
  destruct (negb _).
  - apply known_bind; [apply known_print|intros _].
    apply known_bind; [apply known_input|intros line].
    destruct (existsb _ _); [apply known_ret|].
    apply known_bind; [apply known_print|intros; apply known_ret].
  - apply known_bind; [apply known_print|intros; apply known_ret].
Qed.

End Known.

(** The checklist gate changes neither the files nor the feature
    directory of the instance. *)
Lemma check_keeps_dir : keeps (fun s => feature_dir (self s)) check_checklists_status.
Proof.
  unfold check_checklists_status, self_feature_dir.
  apply keeps_bind; [apply keeps_bind; [apply keeps_get|intros; apply keeps_ret]|intros d].
  destruct (negb (dir_given d)).
  { apply keeps_bind; [apply keeps_modify; reflexivity|intros; apply keeps_ret]. }
  apply keeps_bind; [apply keeps_modify; reflexivity|intros _].
  apply keeps_bind; [apply keeps_exists|intros present].
  destruct (negb present).
  { apply keeps_bind; [apply keeps_modify; reflexivity|intros; apply keeps_ret]. }
  apply keeps_bind; [apply keeps_get|intros s0].
  apply keeps_bind; [apply keeps_scan_checklists|intros rows].
  apply keeps_bind; [apply keeps_modify; reflexivity|intros _].
  apply keeps_bind;
    [apply keeps_for_each; intros; apply keeps_modify; reflexivity|intros _].
  destruct (negb _).
  - apply keeps_bind; [apply keeps_modify; reflexivity|intros _].
    apply keeps_bind.
    { unfold input. apply keeps_bind; [apply keeps_modify; reflexivity|intros _].
      intros s. unfold mbind, get. destruct (stdin s); reflexivity. }
    intros line. destruct (existsb _ _); [apply keeps_ret|].
    apply keeps_bind; [apply keeps_modify; reflexivity|intros; apply keeps_ret].
  - apply keeps_bind; [apply keeps_modify; reflexivity|intros; apply keeps_ret].
Qed.

Lemma loadable_ext s s' :
  files s' = files s -> feature_dir (self s') = feature_dir (self s) ->
  loadable s' = loadable s.
Proof.
  intros Hf Hd. unfold loadable, present, in_dir, the_dir. rewrite Hf, Hd. reflexivity.
Qed.

Lemma load_fails s :
  loadable s = false ->
  exists e, load_implementation_context s = (Raise e, snd (load_implementation_context s)).
Proof.
  unfold loadable. rewrite load_result.
  destruct (dir_given (feature_dir (self s))); [|intros _; eexists; reflexivity].
  destruct (present (in_dir "plan.md" s) s); [|intros _; eexists; reflexivity].
  destruct (present (in_dir "tasks.md" s) s); [|intros _; eexists; reflexivity].
  discriminate.
Qed.

Lemma run_stops_early (o : methods) (s : state) :
  m_run_check_prerequisites o = run_check_prerequisites ->
  m_load_implementation_context o = load_implementation_context ->
  m_check_checklists_status o = check_checklists_status
  \/ m_check_checklists_status o = ret true ->
  loadable (snd (run_check_prerequisites (say EvRunStart s))) = false ->
  exists r s', run o s = (r, s')
               /\ (r = Ok false \/ exists e, r = Raise e)
               /\ files s' = files s.
Proof.
  intros Hpre Hload Hcheck Hno. unfold run. rewrite Hpre, Hload.
  unfold mbind at 1. unfold print at 1. unfold modify at 1. fold (say EvRunStart s).
  destruct (prereq_ok (say EvRunStart s)) as [docs E].
  pose proof (prereq_keeps_files (say EvRunStart s)) as Hf2.
  set (s2 := snd (run_check_prerequisites (say EvRunStart s))) in *.
  rewrite (mbind_ok _ _ _ _ _ E).
  unfold mbind at 1. unfold print at 1. unfold modify at 1.
  fold (say (EvAvailableDocs docs) s2).
  set (s3 := say (EvAvailableDocs docs) s2).
  assert (Hc : exists r s4, m_check_checklists_status o s3 = (r, s4)
                            /\ r <> Unknown
                            /\ files s4 = files s2
                            /\ loadable s4 = false).
  { destruct Hcheck as [-> | ->].
    - exists (fst (check_checklists_status s3)), (snd (check_checklists_status s3)).
      split; [apply surjective_pairing|]. split; [apply check_known|].
      split; [apply (check_keeps_files s3)|].
      rewrite <- Hno. apply loadable_ext.
      + apply (check_keeps_files s3).
      + apply (check_keeps_dir s3).
    - exists (Ok true), s3. split; [reflexivity|]. split; [discriminate|].
      split; [reflexivity|exact Hno]. }
  destruct Hc as [r [s4 [Ec [Hk [Hf4 Hl4]]]]].
  unfold mbind at 1. rewrite Ec.
  destruct r as [[|]|e|].
  - cbn [negb].
    destruct (load_fails s4 Hl4) as [e El].
    pose proof (load_keeps_files s4) as Hf5.
    set (s5 := snd (load_implementation_context s4)) in *.
    assert (Et : try_except (load_implementation_context ;; ret true)
                            (fun e => print (EvContextError e) ;; ret false) s4
                 = (Ok false, say (EvContextError e) s5)).
    { unfold try_except. unfold mbind at 1. rewrite El. reflexivity. }
    rewrite (mbind_ok _ _ _ _ _ Et). cbn [negb].
    eexists. eexists. split; [reflexivity|]. split; [left; reflexivity|].
    cbn [say set_stdout files]. rewrite Hf5, Hf4. exact Hf2.
  - cbn [negb]. eexists. eexists. split; [reflexivity|]. split; [left; reflexivity|].
    cbn [say set_stdout files]. rewrite Hf4. exact Hf2.
  - eexists. eexists. split; [reflexivity|]. split; [right; exists e; reflexivity|].
    rewrite Hf4. exact Hf2.
  - exfalso. apply Hk. reflexivity.
Qed.

Lemma instance_methods (a : args) :
  m_run_check_prerequisites (instance SpeckitImplementer a) = run_check_prerequisites
  /\ m_load_implementation_context (instance SpeckitImplementer a)
     = load_implementation_context
  /\ (m_check_checklists_status (instance SpeckitImplementer a) = check_checklists_status
      \/ m_check_checklists_status (instance SpeckitImplementer a) = ret true).
Proof.
  unfold instance. destruct (arg_skip_checklists a).
  - repeat split. right. reflexivity.
  - repeat split. left. reflexivity.
Qed.

(** Without a feature directory that holds [plan.md] and [tasks.md] the
    program ends with exit status 1 and has changed no file, whatever the
    options and whatever the user answers; naming a tasks file on the
    command line does not help. *)
Theorem missing_plan_stops_run (a : args) (s : state)
  (H : loadable (resolved a s) = false) :
  fst (main a s) = Some 1 /\ files (snd (main a s)) = files s.
Proof.
  unfold main, main_of.
  destruct (instance_methods a) as [Hpre [Hload Hcheck]].
  destruct (run_stops_early (instance SpeckitImplementer a) (prepared a s)
              Hpre Hload Hcheck H) as [r [s' [E [Hr Hf]]]].
  assert (Hp : files (prepared a s) = files s).
  { unfold prepared. destruct (dir_given (arg_tasks_file a)); reflexivity. }
  rewrite E. destruct Hr as [-> | [e ->]]; split; try reflexivity;
    cbn [snd say set_stdout files]; rewrite Hf; exact Hp.
Qed.

Lemma missing_plan_stops_run_witness :
  fst (main override_args (initial no_plan_files)) = Some 1
  /\ files (snd (main override_args (initial no_plan_files))) = files (initial no_plan_files).
Proof.
  apply (missing_plan_stops_run override_args (initial no_plan_files)).
  vm_compute. reflexivity.
Defined.
